(** * Plupy: the timestamp stream decoder of [arduino_UNO]

    A shallow embedding of [arduino_UNO.read_timestamps],
    [arduino_UNO.channel_cleaner], [arduino_UNO.convert_units] and of the
    functions around them (src/plupy.py), with the properties of the decoder
    stated over it.

    Python [bytes] are lists of [Byte.byte], Python [str] values are lists of
    [ascii], Python integers are [Z]; the numpy [int64] array built at the end
    of [read_timestamps] is a list of [Z] with the conversion check and the
    wrap-around of the scalar product written out, and the [float64] array
    that [convert_units] builds is a list of binary64 numbers ([spec_float]).
    A Python exception is the result [None]. *)

From Stdlib Require Import ZArith Bool Ascii String List Lia Sorted.
From Stdlib Require Import Strings.Byte DecimalString.
From Stdlib Require DecimalFacts DecimalPos DecimalZ.
From Stdlib Require Import QArith Qabs Qpower Lqa.
From Stdlib Require Import Floats.SpecFloat.
Import ListNotations.

Local Open Scope Z_scope.

(* ------------------------------------------------------------------------ *)
(** ** Python primitives used by the decoder *)

Module Py.

(** The error monad of the embedding: [None] is a raised exception. *)
Definition bind {A B : Type} (m : option A) (f : A -> option B) : option B :=
  match m with
  | Some a => f a
  | None => None
  end.

Notation "x <- m ;; k" := (bind m (fun x => k))
  (at level 61, m at next level, right associativity).

(** A list comprehension whose element expression can raise. *)
Fixpoint mapM {A B : Type} (f : A -> option B) (l : list A) : option (list B) :=
  match l with
  | [] => Some []
  | x :: l' =>
      y <- f x ;;
      ys <- mapM f l' ;;
      Some (y :: ys)
  end.

(** [s[i:j]] for [0 <= i <= j]: the slice is clamped to the sequence. *)
Definition slice {A : Type} (s : list A) (i j : nat) : list A :=
  firstn (j - i) (skipn i s).

(** [range(0, stop, step)] for a positive [step]. *)
Definition range_step (stop step : nat) : list nat :=
  map (fun k => (k * step)%nat) (seq 0 ((stop + step - 1) / step)).

(** The value of a byte, [0 <= byte_val b < 256]. *)
Definition byte_val (b : byte) : Z := Z.of_N (Byte.to_N b).

Definition hexdigits : list ascii :=
  list_ascii_of_string "0123456789abcdef".

Definition hex_digit (n : Z) : ascii :=
  nth (Z.to_nat n) hexdigits "0"%char.

(** [bytes.hex()]: two lowercase hexadecimal digits per byte. *)
Definition hex (bs : list byte) : list ascii :=
  flat_map (fun b => [hex_digit (byte_val b / 16); hex_digit (byte_val b mod 16)]) bs.

(** The value of a digit character in bases up to 16 (either case). *)
Definition digit_val (c : ascii) : option Z :=
  let n := Z.of_nat (nat_of_ascii c) in
  if (48 <=? n) && (n <=? 57) then Some (n - 48)
  else if (97 <=? n) && (n <=? 102) then Some (n - 87)
  else if (65 <=? n) && (n <=? 70) then Some (n - 55)
  else None.

Fixpoint int_digits (base acc : Z) (s : list ascii) : option Z :=
  match s with
  | [] => Some acc
  | c :: s' =>
      d <- digit_val c ;;
      if d <? base then int_digits base (acc * base + d) s' else None
  end.

(** [int(s, 16)] on a string of digits; the empty string and a character that
    is no hexadecimal digit raise [ValueError].  (The signs, prefixes,
    underscores and blanks that [int] also accepts do not occur in the output
    of [hex].) *)
Definition int16 (s : list ascii) : option Z :=
  match s with
  | [] => None
  | _ => int_digits 16 0 s
  end.

(** The binary digits of a positive number, most significant first. *)
Fixpoint bin_pos (p : positive) : list ascii :=
  match p with
  | xH => ["1"%char]
  | xO p' => bin_pos p' ++ ["0"%char]
  | xI p' => bin_pos p' ++ ["1"%char]
  end.

(** ["{0:04b}".format(n)]: binary digits, zero-padded on the left to four
    characters (the sign comes first for a negative number). *)
Definition format_04b (n : Z) : list ascii :=
  match n with
  | Z0 => repeat "0"%char 4
  | Zpos p => repeat "0"%char (4 - length (bin_pos p)) ++ bin_pos p
  | Zneg p => "-"%char :: repeat "0"%char (3 - length (bin_pos p)) ++ bin_pos p
  end.

(** [np.array(l, dtype="int64")]: a Python integer outside the range of a
    signed 64-bit integer raises [OverflowError]. *)
Definition np_array_int64 (l : list Z) : option (list Z) :=
  mapM (fun x => if (- 2 ^ 63 <=? x) && (x <? 2 ^ 63) then Some x else None) l.

(** The value of a signed 64-bit integer after wrap-around. *)
Definition wrap64 (x : Z) : Z := (x + 2 ^ 63) mod 2 ^ 64 - 2 ^ 63.

(** [a * k] on an [int64] array and a small Python integer: element-wise,
    wrapping. *)
Definition np_mul_int64 (a : list Z) (k : Z) : list Z :=
  map (fun x => wrap64 (x * k)) a.

End Py.

Import Py.

(* ------------------------------------------------------------------------ *)
(** ** [arduino_UNO.read_timestamps] *)

(** An entry of [event_channel_list]: a bit string in legacy mode, an integer
    otherwise. *)
Inductive channel : Type :=
  | ChStr (s : list ascii)
  | ChInt (n : Z).

(** The word extraction at the head of [read_timestamps]. *)
Definition ts_word_list (binary_stream : list byte) : option (list Z) :=
  let bytes_hex := hex (rev binary_stream) in
  ws <- mapM (fun i => int16 (slice bytes_hex i (i + 8)))
             (range_step (length bytes_hex) 8) ;;
  Some (rev ws).

(** The variables of the loop over the words. *)
Record loop_state : Type := mkLoop {
  ts_list : list Z;
  event_channel_list : list channel;
  periode_count : Z;
  prev_ts : Z
}.

Definition periode_duration : Z := Z.shiftl 1 27.

Definition loop_init : loop_state :=
  {| ts_list := []; event_channel_list := []; periode_count := 0; prev_ts := -1 |}.

(** One iteration of [for ts_word in ts_word_list]. *)
Definition loop_body (legacy : bool) (st : loop_state) (ts_word : Z) : loop_state :=
  let time_stamp := Z.shiftr ts_word 5 in
  let pattern := Z.land ts_word 31 in
  let periode_count' :=
    if negb (prev_ts st =? -1) && (time_stamp <? prev_ts st)
    then periode_count st + 1
    else periode_count st in
  if Z.land pattern 16 =? 0 then
    {| ts_list := ts_list st ++ [time_stamp + periode_duration * periode_count'];
       event_channel_list :=
         event_channel_list st ++
           [if legacy then ChStr (format_04b (Z.land pattern 15))
            else ChInt (Z.land pattern 15)];
       periode_count := periode_count';
       prev_ts := time_stamp |}
  else
    {| ts_list := ts_list st;
       event_channel_list := event_channel_list st;
       periode_count := periode_count';
       prev_ts := time_stamp |}.

Definition run_loop (legacy : bool) (ws : list Z) (st : loop_state) : loop_state :=
  fold_left (loop_body legacy) ws st.

Definition read_timestamps (binary_stream : list byte) (legacy : bool)
  : option (list Z * list channel) :=
  ws <- ts_word_list binary_stream ;;
  let st := run_loop legacy ws loop_init in
  arr <- np_array_int64 (ts_list st) ;;
  Some (np_mul_int64 arr 2, event_channel_list st).

(* ------------------------------------------------------------------------ *)
(** ** [arduino_UNO.channel_cleaner] *)

(** The variables of the loop over the patterns. *)
Record cleaner_state : Type := mkCleaner {
  cha_clean : list (list string);
  counts_1 : Z;
  counts_2 : Z;
  counts_3 : Z;
  counts_4 : Z
}.

Definition cleaner_init : cleaner_state :=
  {| cha_clean := []; counts_1 := 0; counts_2 := 0; counts_3 := 0; counts_4 := 0 |}.

(** [cha_list[i] == '1']; an index past the end raises [IndexError]. *)
Definition is_one (cha_list : list ascii) (i : nat) : option bool :=
  c <- nth_error cha_list i ;;
  Some (Ascii.eqb c "1"%char).

(** One iteration of [for cha_list in cha_info]. *)
Definition cleaner_body (st : cleaner_state) (cha_list : list ascii)
  : option cleaner_state :=
  let channel := [] in
  b0 <- is_one cha_list 0 ;;
  let channel := if b0 then channel ++ ["CH4"%string] else channel in
  let counts_4' := if b0 then counts_4 st + 1 else counts_4 st in
  b1 <- is_one cha_list 1 ;;
  let channel := if b1 then channel ++ ["CH3"%string] else channel in
  let counts_3' := if b1 then counts_3 st + 1 else counts_3 st in
  b2 <- is_one cha_list 2 ;;
  let channel := if b2 then channel ++ ["CH2"%string] else channel in
  let counts_2' := if b2 then counts_2 st + 1 else counts_2 st in
  b3 <- is_one cha_list 3 ;;
  let channel := if b3 then channel ++ ["CH1"%string] else channel in
  let counts_1' := if b3 then counts_1 st + 1 else counts_1 st in
  Some {| cha_clean := cha_clean st ++ [channel];
          counts_1 := counts_1'; counts_2 := counts_2';
          counts_3 := counts_3'; counts_4 := counts_4' |}.

Fixpoint cleaner_loop (cha_info : list (list ascii)) (st : cleaner_state)
  : option cleaner_state :=
  match cha_info with
  | [] => Some st
  | cha_list :: rest =>
      st' <- cleaner_body st cha_list ;;
      cleaner_loop rest st'
  end.

Definition channel_cleaner (cha_info : list (list ascii))
  : option (list (list string) * (Z * Z * Z * Z)) :=
  st <- cleaner_loop cha_info cleaner_init ;;
  Some (cha_clean st, (counts_1 st, counts_2 st, counts_3 st, counts_4 st)).

(* ------------------------------------------------------------------------ *)
(** ** Vocabulary of the statements *)

(** The little-endian value of a group of bytes. *)
Fixpoint le_val (g : list byte) : Z :=
  match g with
  | [] => 0
  | b :: g' => byte_val b + 256 * le_val g'
  end.

(** The big-endian value of a group of bytes. *)
Definition be_val (g : list byte) : Z :=
  fold_left (fun acc b => acc * 256 + byte_val b) g 0.

(** The consecutive 4-byte groups of a stream, in stream order, each read as a
    little-endian unsigned 32-bit integer. *)
Fixpoint le_words (bs : list byte) : list Z :=
  match bs with
  | b0 :: b1 :: b2 :: b3 :: rest =>
      (byte_val b0 + 256 * byte_val b1 + 65536 * byte_val b2
       + 16777216 * byte_val b3) :: le_words rest
  | _ => []
  end.

(** The [m] consecutive groups of [n] elements of a sequence, the last ones
    clamped to the sequence. *)
Definition slices {A : Type} (n m : nat) (s : list A) : list (list A) :=
  map (fun i => slice s i (i + n)) (map (fun k => (k * n)%nat) (seq 0 m)).

(** The words of a stream, written out: the leading [length bs mod 4] bytes,
    when there are any, are one short little-endian word, and the 4-byte
    little-endian words of the rest follow. *)
Definition stream_words (bs : list byte) : list Z :=
  let r := (length bs mod 4)%nat in
  (if (r =? 0)%nat then [] else [le_val (firstn r bs)]) ++ le_words (skipn r bs).

(** The longest prefix of a stream that is a whole number of 4-byte words. *)
Definition aligned_prefix (bs : list byte) : list byte :=
  firstn (4 * (length bs / 4)) bs.

(** The stream with its leading partial word (the first [length bs mod 4]
    bytes) extended by zero bytes to a whole word. *)
Definition zero_extend_head (bs : list byte) : list byte :=
  let r := (length bs mod 4)%nat in
  if (r =? 0)%nat then bs
  else firstn r bs ++ repeat x00 (4 - r) ++ skipn r bs.

(** The fields of a word. *)
Definition raw_counter (w : Z) : Z := Z.shiftr w 5.
Definition trailer (w : Z) : Z := Z.land w 31.
Definition flag_clear (w : Z) : bool := Z.land (trailer w) 16 =? 0.
Definition channel_pattern (w : Z) : Z := Z.land (trailer w) 15.

(** The rendering of a channel pattern selected by [legacy]. *)
Definition render (legacy : bool) (p : Z) : channel :=
  if legacy then ChStr (format_04b p) else ChInt p.

(** No word has a raw counter value below that of the word before it. *)
Fixpoint no_rollover (ws : list Z) : bool :=
  match ws with
  | [] => true
  | w :: ws' =>
      match ws' with
      | [] => true
      | w' :: _ => (raw_counter w <=? raw_counter w') && no_rollover ws'
      end
  end.

(** The loop as a function of the rollover count and the previous raw value:
    the absolute tick count and the word of every valid word, and the count and
    previous value at the end. *)
Definition next_count (c prev : Z) (w : Z) : Z :=
  if negb (prev =? -1) && (raw_counter w <? prev) then c + 1 else c.

Fixpoint decode (c prev : Z) (ws : list Z) : list (Z * Z) :=
  match ws with
  | [] => []
  | w :: ws' =>
      let c' := next_count c prev w in
      let rest := decode c' (raw_counter w) ws' in
      if flag_clear w then (raw_counter w + 2 ^ 27 * c', w) :: rest else rest
  end.

Fixpoint count_after (c prev : Z) (ws : list Z) : Z :=
  match ws with
  | [] => c
  | w :: ws' => count_after (next_count c prev w) (raw_counter w) ws'
  end.

Fixpoint prev_after (prev : Z) (ws : list Z) : Z :=
  match ws with
  | [] => prev
  | w :: ws' => prev_after (raw_counter w) ws'
  end.

(** The two output lists read off the decoded entries. *)
Definition ticks_of (es : list (Z * Z)) : list Z := map fst es.

Definition channels_of (legacy : bool) (es : list (Z * Z)) : list channel :=
  map (fun e => render legacy (channel_pattern (snd e))) es.

(** A word of at most 32 bits. *)
Definition word_ok (w : Z) : Prop := 0 <= w < 2 ^ 32.

(** The raw counter value of a 4-byte word of a stream. *)
Definition raw_of (g : list byte) : Z := raw_counter (le_val g).

(** The effect of inserting the word [w] after the word [p] of the stream
    [a ++ p ++ c]: the outputs up to [p] are kept, [w] adds its own entry when
    it is valid, and every later timestamp grows by 2^27 * 2. *)
Definition insertion_shifts (legacy : bool) (a p w c : list byte) : Prop :=
  exists ts_head ch_head ts_w ch_w ts_tail ch_tail,
    read_timestamps (a ++ p) legacy = Some (ts_head, ch_head)
    /\ read_timestamps (a ++ p ++ c) legacy
       = Some (ts_head ++ ts_tail, ch_head ++ ch_tail)
    /\ read_timestamps (a ++ p ++ w) legacy
       = Some (ts_head ++ ts_w, ch_head ++ ch_w)
    /\ read_timestamps (a ++ p ++ w ++ c) legacy
       = Some (ts_head ++ ts_w ++ map (fun t => t + 2 ^ 27 * 2) ts_tail,
               ch_head ++ ch_w ++ ch_tail).

(** The size of stream for which the tick counts stay within [int64]. *)
Definition stream_size_ok (bs : list byte) : Prop :=
  Z.of_nat (length bs) <= 2 ^ 37.

(** A stream beyond that size.  [wrap_pair] is two valid words, with the raw
    counter values 1 and 0 and the pattern 1: the second one wraps.
    [wrapping_stream n] is [n] such pairs, and [long_stream] 2^35 of them,
    2^38 bytes; [wrapping_entries n] are the tick counts and the words that
    the loop finds in [wrapping_stream n]. *)
Definition wrap_pair : list byte := [x21; x00; x00; x00; x01; x00; x00; x00].

Fixpoint wrapping_stream (n : nat) : list byte :=
  match n with
  | O => []
  | S n' => wrapping_stream n' ++ wrap_pair
  end.

Fixpoint wrapping_entries (n : nat) : list (Z * Z) :=
  match n with
  | O => []
  | S n' =>
      wrapping_entries n'
      ++ [(1 + 2 ^ 27 * Z.of_nat n', 33); (0 + 2 ^ 27 * (Z.of_nat n' + 1), 1)]
  end.

Definition long_stream : list byte := wrapping_stream (N.to_nat (2 ^ 35)).

(** Modelled from the spec: the encoder of section 4.1's layout, which the
    repository does not contain.  A pair (tick, pattern) becomes the word
    whose high 27 bits are the tick count in native ticks modulo 2^27, whose
    flag bit is clear and whose low four bits are the pattern, written as four
    bytes, least significant first. *)
Definition byte_of_Z (z : Z) : byte :=
  match Byte.of_N (Z.to_N (z mod 256)) with
  | Some b => b
  | None => x00
  end.

Definition encode_word (w : Z) : list byte :=
  [byte_of_Z w; byte_of_Z (w / 256); byte_of_Z (w / 65536); byte_of_Z (w / 16777216)].

Definition pair_word (p : Z * Z) : Z :=
  ((fst p / 2) mod 2 ^ 27) * 32 + snd p.

Definition encode_pairs (pairs : list (Z * Z)) : list byte :=
  flat_map (fun p => encode_word (pair_word p)) pairs.

(** The round trip through the encoder and [read_timestamps]. *)
Definition round_trips (legacy : bool) (pairs : list (Z * Z)) : Prop :=
  read_timestamps (encode_pairs pairs) legacy
  = Some (map fst pairs, map (fun p => render legacy (snd p)) pairs).

(** Ticks that are even and split into a rollover index and a 27-bit value,
    with four-bit patterns. *)
Definition well_formed_pair (p : Z * Z) : Prop :=
  0 <= fst p /\ fst p mod 2 = 0 /\
  (exists k r, 0 <= k /\ 0 <= r < 2 ^ 27 /\ fst p / 2 = r + 2 ^ 27 * k) /\
  0 <= snd p < 16.

Fixpoint non_decreasing (l : list Z) : Prop :=
  match l with
  | [] => True
  | x :: l' =>
      match l' with
      | [] => True
      | y :: _ => x <= y /\ non_decreasing l'
      end
  end.

(** Consecutive ticks less than one rollover period (2^27 native ticks, 2^28
    output units) apart, the first one within the first period. *)
Fixpoint gaps_below (prev : Z) (l : list Z) : Prop :=
  match l with
  | [] => True
  | x :: l' => prev <= x < prev + 2 ^ 28 /\ gaps_below x l'
  end.

(** The channel patterns of [channel_cleaner]: four characters, each a binary
    digit. *)
Definition is_bit_pattern (s : list ascii) : Prop :=
  length s = 4%nat /\ Forall (fun c => c = "0"%char \/ c = "1"%char) s.

(** The bit of a pattern at an index. *)
Definition bit_at (i : nat) (s : list ascii) : bool :=
  match nth_error s i with
  | Some c => Ascii.eqb c "1"%char
  | None => false
  end.

(** The names of the active channels of a pattern, from channel 4 down to
    channel 1. *)
Definition active_channels (s : list ascii) : list string :=
  (if bit_at 0 s then ["CH4"%string] else [])
  ++ (if bit_at 1 s then ["CH3"%string] else [])
  ++ (if bit_at 2 s then ["CH2"%string] else [])
  ++ (if bit_at 3 s then ["CH1"%string] else []).

(** The number of patterns whose bit at an index is set. *)
Definition count_active (i : nat) (cha_info : list (list ascii)) : Z :=
  Z.of_nat (length (filter (bit_at i) cha_info)).

(** The names of the channels whose bit is set in a word: bit 3 is channel 4,
    bit 0 is channel 1. *)
Definition word_channels (w : Z) : list string :=
  (if Z.testbit w 3 then ["CH4"%string] else [])
  ++ (if Z.testbit w 2 then ["CH3"%string] else [])
  ++ (if Z.testbit w 1 then ["CH2"%string] else [])
  ++ (if Z.testbit w 0 then ["CH1"%string] else []).

(** The number of words in which a bit is set. *)
Definition count_bit (k : Z) (ws : list Z) : Z :=
  Z.of_nat (length (filter (fun w => Z.testbit w k) ws)).

(** The bit strings of the entries of a legacy channel list; an integer entry
    has none. *)
Definition channel_string (c : channel) : option (list ascii) :=
  match c with
  | ChStr s => Some s
  | ChInt _ => None
  end.

(** The number of words of a stream of [n] bytes. *)
Definition word_count (n : nat) : nat := ((n + 3) / 4)%nat.

(* ------------------------------------------------------------------------ *)
(** ** Serial lines: [command]

    A serial port as the functions see it once [initialize_device] has opened
    it: the byte strings that the calls of [readline] return, in order (when
    they are used up, [readline] times out and returns [b""]), and what has
    been written, oldest first.  The settings of the line, the opening and
    the closing are not part of it. *)

Record serial_port : Type := mkPort {
  incoming : list (list byte);
  written : list (list byte)
}.

Definition write (device : serial_port) (data : list byte) : serial_port :=
  {| incoming := incoming device; written := written device ++ [data] |}.

Definition readline (device : serial_port) : list byte * serial_port :=
  match incoming device with
  | [] => ([], device)
  | line :: rest => (line, {| incoming := rest; written := written device |})
  end.

(** [a == b] on [bytes]. *)
Fixpoint bytes_eqb (a b : list byte) : bool :=
  match a, b with
  | [], [] => true
  | x :: a', y :: b' => Byte.eqb x y && bytes_eqb a' b'
  | _, _ => false
  end.

(** How a call ends: with a value, with an exception, or never; the first
    two with the state that is left. *)
Inductive outcome (S A : Type) : Type :=
  | Returns (a : A) (s : S)
  | Raises (s : S)
  | Diverges.

Arguments Returns {S A} a s.
Arguments Raises {S A} s.
Arguments Diverges {S A}.

Definition and_then {S A B : Type} (m : outcome S A) (k : A -> S -> outcome S B)
  : outcome S B :=
  match m with
  | Returns a s => k a s
  | Raises s => Raises s
  | Diverges => Diverges
  end.

(** The text constants of the protocols, as bytes. *)
Definition b_ok : list byte := [x6f; x6b; x0d; x0a].             (* b"ok\r\n" *)
Definition b_Y : list byte := [x59; x0d].                         (* b'Y\r' *)
Definition b_F : list byte := [x46; x20; x0d].                    (* "F \r" *)
Definition b_B1 : list byte := [x42; x31; x20; x0d].              (* "B1 \r" *)
Definition b_B2 : list byte := [x42; x32; x20; x0d].              (* "B2 \r" *)
Definition b_V1 : list byte := [x56; x31; x20; x0d].              (* "V1 \r" *)
Definition b_start_nl : list byte := [x73; x74; x61; x72; x74; x0a]. (* "start\n" *)
Definition b_start : list byte := [x73; x74; x61; x72; x74].      (* b"start" *)
Definition b_crlf : list byte := [x0d; x0a].                      (* b'\r\n' *)
Definition b_a : list byte := [x61].                              (* b"a" *)

(** The loop of [command], at most [fuel] turns of it: write the command,
    read a line, stop unless [repeat] is still set.  [Diverges] stands for
    the turns that are left when the fuel is used up. *)
Fixpoint command_loop (fuel : nat) (device : serial_port)
         (command good_response : list byte) (repeat : bool)
  : outcome serial_port (list byte) :=
  match fuel with
  | O => Diverges
  | S fuel' =>
      let device := write device command in
      let (res, device) := readline device in
      let repeat := if bytes_eqb res good_response then false else repeat in
      if negb repeat then Returns res device
      else command_loop fuel' device command good_response repeat
  end.

(** [command(port, command, ..., repeat, good_response)], the command
    already encoded.  A turn that reads the time-out value [b""] without
    stopping leaves the loop where it was, so that one turn more than there
    are lines to read decides whether the loop ends. *)
Definition command (port : serial_port) (command : list byte)
           (repeat : bool) (good_response : list byte)
  : outcome serial_port (list byte) :=
  command_loop (S (length (incoming port))) port command good_response repeat.

(* ------------------------------------------------------------------------ *)
(** ** [stepper_motor] *)

(** [str(n)] for an integer, encoded. *)
Definition py_str (n : Z) : list byte :=
  list_byte_of_string (NilZero.string_of_int (Z.to_int n)).

Definition is_moving (port : serial_port) : outcome serial_port (list byte) :=
  command port b_F false b_ok.

Fixpoint wait_loop (fuel : nat) (port : serial_port) : outcome serial_port unit :=
  match fuel with
  | O => Diverges
  | S fuel' =>
      and_then (is_moving port) (fun res port =>
        if negb (bytes_eqb res b_Y) then wait_loop fuel' port
        else Returns tt port)
  end.

(** [wait()]: as for [command], one turn more than there are lines to read
    decides whether the loop ends. *)
Definition wait (port : serial_port) : outcome serial_port unit :=
  wait_loop (S (length (incoming port))) port.


Definition forward (port : serial_port) (steps : Z) : outcome serial_port (list byte) :=
  let steps_str := py_str steps in
  and_then (command port b_B1 false b_ok) (fun _ port =>
  and_then (command port ([x2b] ++ steps_str ++ [x0d]) false b_ok) (fun res port =>
  and_then (wait port) (fun _ port =>
  Returns res port))).

Definition right (port : serial_port) (steps : Z) : outcome serial_port (list byte) :=
  let steps_str := py_str steps in
  and_then (command port b_B2 false b_ok) (fun _ port =>
  and_then (command port ([x2d] ++ steps_str ++ [x0d]) false b_ok) (fun res port =>
  and_then (wait port) (fun _ port =>
  Returns res port))).

Definition left (port : serial_port) (steps : Z) : outcome serial_port (list byte) :=
  let steps_str := py_str steps in
  and_then (command port b_B2 false b_ok) (fun _ port =>
  and_then (command port ([x2b] ++ steps_str ++ [x0d]) false b_ok) (fun res port =>
  and_then (wait port) (fun _ port =>
  Returns res port))).

(** The flags of a [stepper_motor] object ([end] is [end_] here). *)
Record stepper_motor : Type := mkStepper {
  b1_flag : bool;
  b2_flag : bool;
  end_ : bool
}.

(** A call on the port from a method that also holds the flags. *)
Definition on_port {A : Type} (self : stepper_motor) (m : outcome serial_port A)
  : outcome (stepper_motor * serial_port) A :=
  match m with
  | Returns a port => Returns a (self, port)
  | Raises port => Raises (self, port)
  | Diverges => Diverges
  end.

Section NewPosition.

(** [int(bytes.decode(res)[2:-1])], the position in an answer to "V1";
    [None] when the decoding or the conversion raises. *)
Variable position_of : list byte -> option Z.

Definition read_position (self : stepper_motor) (port : serial_port)
  : outcome (stepper_motor * serial_port) Z :=
  and_then (on_port self (command port b_V1 false b_ok)) (fun res st =>
    match position_of res with
    | Some n => Returns n st
    | None => Raises st
    end).

Definition new_position (self : stepper_motor) (port : serial_port) (steps size : Z)
  : outcome (stepper_motor * serial_port) unit :=
  and_then (on_port self (command port b_B2 false b_ok)) (fun _ st =>
  and_then (read_position (fst st) (snd st)) (fun position1 st =>
  let self := fst st in
  let port := snd st in
  and_then
    (if (size <=? position1) && negb (b1_flag self) then
       and_then (on_port self (forward port steps)) (fun _ st =>
         Returns tt ({| b1_flag := true; b2_flag := true; end_ := end_ (fst st) |},
                     snd st))
     else if (position1 <=? 0) && negb (b1_flag self) then
       and_then (on_port self (forward port steps)) (fun _ st =>
         Returns tt ({| b1_flag := true; b2_flag := false; end_ := end_ (fst st) |},
                     snd st))
     else if negb (b2_flag self) then
       and_then (on_port self (left port steps)) (fun _ st =>
         Returns tt ({| b1_flag := false; b2_flag := b2_flag (fst st);
                        end_ := end_ (fst st) |}, snd st))
     else if b2_flag self then
       and_then (on_port self (right port steps)) (fun _ st =>
         Returns tt ({| b1_flag := false; b2_flag := b2_flag (fst st);
                        end_ := end_ (fst st) |}, snd st))
     else Returns tt (self, port))
    (fun _ st =>
  and_then (on_port (fst st) (command (snd st) b_B1 false b_ok)) (fun _ st =>
  and_then (read_position (fst st) (snd st)) (fun position2 st =>
  if size <=? position2 then
    Returns tt ({| b1_flag := b1_flag (fst st); b2_flag := b2_flag (fst st);
                   end_ := true |}, snd st)
  else Returns tt st))))).

End NewPosition.

(* ------------------------------------------------------------------------ *)
(** ** [arduino_UNO.convert_units] and [arduino_UNO.start] *)

(** The elements of a [float64] array are binary64 numbers: the [spec_float]
    of the Standard Library with a mantissa of 53 bits and the exponent of
    the infinities 1024, whose operations round to nearest, ties to even. *)

(** The conversion of an integer to a double, as the product of an [int64]
    array with a float does it for each element. *)
Definition float_of_int (n : Z) : spec_float := binary_normalize 53 1024 n 0 false.

(** [10**(-k)] for a positive [k].  A power of integers with a negative
    exponent is computed in floats, as [10.0 ** -k]; its value is the double
    nearest to 10^-k, which is the quotient of the doubles 1 and 10^k. *)
Definition pow10_neg (k : Z) : spec_float :=
  SFdiv 53 1024 (float_of_int 1) (float_of_int (10 ^ k)).

(** [a * c] on an [int64] array and a Python float: element-wise, each
    element converted to a double first. *)
Definition np_mul_float (a : list Z) (c : spec_float) : list spec_float :=
  map (fun x => SFmul 53 1024 (float_of_int x) c) a.

(** What [convert_units] returns: the [int64] array of counts itself, or an
    array of floats. *)
Inductive converted : Type :=
  | Counts (counts_ns : list Z)
  | Floats (values : list spec_float).

(** [convert_units(counts_ns, units)] on an [int64] array, such as
    [read_timestamps] returns; with a unit that it does not know it returns a
    variable that was never assigned, which raises. *)
Definition convert_units (counts_ns : list Z) (units : string) : option converted :=
  if String.eqb units "ns" then Some (Counts counts_ns)
  else if String.eqb units "us" then Some (Floats (np_mul_float counts_ns (pow10_neg 3)))
  else if String.eqb units "ms" then Some (Floats (np_mul_float counts_ns (pow10_neg 6)))
  else if String.eqb units "s" then Some (Floats (np_mul_float counts_ns (pow10_neg 9)))
  else None.

(** The number that a double stands for; the infinities and NaN stand for
    none. *)
Definition float_value (f : spec_float) : option Q :=
  match f with
  | S754_zero _ => Some 0%Q
  | S754_finite s m e => Some (inject_Z (cond_Zopp s (Zpos m)) * 2 ^ e)%Q
  | S754_infinity _ => None
  | S754_nan => None
  end.

(** The numbers that the elements of a converted array stand for. *)
Definition element_values (c : converted) : list (option Q) :=
  match c with
  | Counts counts_ns => map (fun x => Some (inject_Z x)) counts_ns
  | Floats values => map float_value values
  end.

(** The unit symbols and the powers of ten that they stand for: the factor of
    the unit with exponent [k] is 10^-k. *)
Definition unit_exponent (units : string) : option Z :=
  if String.eqb units "ns" then Some 0
  else if String.eqb units "us" then Some 3
  else if String.eqb units "ms" then Some 6
  else if String.eqb units "s" then Some 9
  else None.

(** The count [x] times the factor 10^-k, as a rational number. *)
Definition exact_scaling (k x : Z) : Q := (inject_Z x * 10 ^ (- k))%Q.

(** [v] is the count [x] scaled by 10^-k, up to the rounding of binary64
    arithmetic: a number at most 2^-51 of the exact product away from it. *)
Definition scaled_by (k x : Z) (v : option Q) : Prop :=
  exists q, v = Some q
            /\ (Qabs (q - exact_scaling k x) <= Qabs (exact_scaling k x) / 2 ^ 51)%Q.

(** The patterns that [channel_cleaner] indexes: an entry that is an integer
    cannot be indexed, which raises. *)
Definition cha_strings (cha_info : list channel) : option (list (list ascii)) :=
  mapM channel_string cha_info.

(** The inner loop of [start]: send "start" until the line read is the
    acknowledgement. *)
Fixpoint await_start (fuel : nat) (first_com : list byte) (UNO : serial_port)
  : outcome serial_port (list byte) :=
  match fuel with
  | O => Diverges
  | S fuel' =>
      if negb (bytes_eqb first_com b_start_nl) then
        let UNO := write UNO b_start_nl in
        let (first_com, UNO) := readline UNO in
        await_start fuel' first_com UNO
      else Returns first_com UNO
  end.

(** The outer loop of [start]. *)
Fixpoint start_loop (fuel : nat) (first_com : list byte) (UNO : serial_port)
  : outcome serial_port (converted * list (list string) * (Z * Z * Z * Z)) :=
  match fuel with
  | O => Diverges
  | S fuel' =>
      and_then (await_start (S (length (incoming UNO))) first_com UNO)
        (fun first_com UNO =>
      let (hex_stream, UNO) := readline UNO in
      match read_timestamps hex_stream true with
      | None => Raises UNO
      | Some (counts, cha_info) =>
          if negb (bytes_eqb hex_stream []) && negb (bytes_eqb hex_stream b_start)
             && negb (bytes_eqb hex_stream b_crlf) && negb (bytes_eqb hex_stream b_a)
          then
            match convert_units counts "ns" with
            | None => Raises UNO
            | Some counts =>
                match cha_strings cha_info with
                | None => Raises UNO
                | Some strs =>
                    match channel_cleaner strs with
                    | None => Raises UNO
                    | Some (channels, ch_counts) =>
                        Returns (counts, channels, ch_counts) UNO
                    end
                end
            end
          else start_loop fuel' first_com UNO
      end)
  end.

(** [start()]: in each of the loops a turn that reads the time-out value
    [b""] leaves the loop where it was, so that one turn more than there are
    lines to read decides whether it ends. *)
Definition start (UNO : serial_port)
  : outcome serial_port (converted * list (list string) * (Z * Z * Z * Z)) :=
  start_loop (S (length (incoming UNO))) [] UNO.

(** The lines before and after the first line equal to [g]. *)
Fixpoint split_at_first (g : list byte) (lines : list (list byte))
  : option (list (list byte) * list (list byte)) :=
  match lines with
  | [] => None
  | l :: rest =>
      if bytes_eqb l g then Some ([], rest)
      else match split_at_first g rest with
           | Some (pre, post) => Some (l :: pre, post)
           | None => None
           end
  end.

(** A move of the stepper motor, written out: the motor is selected, the
    move is sent, and "F" is sent until the answer is [b'Y\r']; the answer to
    the move is returned. *)
Definition move_outcome (select move : list byte) (port : serial_port)
  : outcome serial_port (list byte) :=
  match split_at_first b_Y (skipn 2 (incoming port)) with
  | Some (pre, post) =>
      Returns (nth 1 (incoming port) [])
              {| incoming := post;
                 written := written port ++ [select; move]
                            ++ repeat b_F (S (length pre)) |}
  | None => Diverges
  end.

(** The test of [start] on a line: it is none of [b''], [b"start"],
    [b'\r\n'] and [b"a"]. *)
Definition accepted (hex_stream : list byte) : bool :=
  negb (bytes_eqb hex_stream []) && negb (bytes_eqb hex_stream b_start)
  && negb (bytes_eqb hex_stream b_crlf) && negb (bytes_eqb hex_stream b_a).

(** The first accepted line of a list of lines, and the lines after it. *)
Fixpoint skip_rejected (lines : list (list byte))
  : option (list byte * list (list byte)) :=
  match lines with
  | [] => None
  | l :: rest => if accepted l then Some (l, rest) else skip_rejected rest
  end.

(** What [start] returns for a line: its timestamps, the channels of its
    valid words and the totals of the four channels. *)
Definition line_result (ws : list Z) (ts : list Z)
  : converted * list (list string) * (Z * Z * Z * Z) :=
  (Counts ts, map word_channels (filter flag_clear ws),
   (count_bit 0 (filter flag_clear ws), count_bit 1 (filter flag_clear ws),
    count_bit 2 (filter flag_clear ws), count_bit 3 (filter flag_clear ws))).

(** The end of [start] on an accepted line: the conversion of the counts and
    the cleaning of the channels. *)
Definition deliver (hex_stream : list byte) (UNO : serial_port)
  : outcome serial_port (converted * list (list string) * (Z * Z * Z * Z)) :=
  match read_timestamps hex_stream true with
  | None => Raises UNO
  | Some (counts, cha_info) =>
      match convert_units counts "ns" with
      | None => Raises UNO
      | Some counts =>
          match cha_strings cha_info with
          | None => Raises UNO
          | Some strs =>
              match channel_cleaner strs with
              | None => Raises UNO
              | Some (channels, ch_counts) =>
                  Returns (counts, channels, ch_counts) UNO
              end
          end
      end
  end.

(* ------------------------------------------------------------------------ *)
(** ** [get_file_name] *)

(** [str(n)] for an integer. *)
Definition str_int (n : Z) : string := NilZero.string_of_int (Z.to_int n).

Fixpoint zeros (k : nat) : string :=
  match k with
  | O => EmptyString
  | S k' => String "0" (zeros k')
  end.

(** [f"{n:09d}"]: the decimal digits, with zeros on the left up to nine
    characters; the sign of a negative number comes first and is counted. *)
Definition format_09d (n : Z) : string :=
  match Z.to_int n with
  | Decimal.Pos d =>
      let digits := NilZero.string_of_uint d in
      String.append (zeros (9 - String.length digits)) digits
  | Decimal.Neg d =>
      let digits := NilZero.string_of_uint d in
      String "-" (String.append (zeros (8 - String.length digits)) digits)
  end.

(** [get_file_name(set_delay, true_delay)]; [date] is what
    [round(time.time())] gives when the function is called. *)
Definition get_file_name (date set_delay true_delay : Z) : string :=
  String.append
    (String.append
       (String.append (String.append (str_int date) "_") (format_09d set_delay))
       "_")
    (format_09d true_delay).





(* ------------------------------------------------------------------------ *)
(** ** Sequences, slices and the error monad *)

Section ListFacts.

Local Open Scope nat_scope.

Context {A : Type}.

Lemma mapM_map {B C : Type} (f : B -> option C) (g : A -> B) (l : list A) :
  mapM f (map g l) = mapM (fun x => f (g x)) l.
Proof.
  induction l as [|x l IH]; simpl; [reflexivity|].
  now rewrite IH.
Qed.

Lemma mapM_Some {B : Type} (f : A -> option B) (g : A -> B) (l : list A) :
  (forall x, In x l -> f x = Some (g x)) -> mapM f l = Some (map g l).
Proof.
  induction l as [|x l IH]; simpl; intros H; [reflexivity|].
  rewrite (H x (or_introl eq_refl)); simpl.
  rewrite IH; [reflexivity|].
  intros y Hy; apply H; now right.
Qed.

Lemma slice_eq (s : list A) (i n : nat) :
  slice s i (i + n) = firstn n (skipn i s).
Proof. unfold slice; f_equal; lia. Qed.

Lemma slices_0 (n : nat) (s : list A) : slices n 0 s = [].
Proof. reflexivity. Qed.

Lemma slices_S (n m : nat) (s : list A) :
  slices n (S m) s = firstn n s :: slices n m (skipn n s).
Proof.
  unfold slices.
  rewrite <- cons_seq, <- seq_shift; simpl map.
  change (slice s 0 n) with (slice s 0 (0 + n)).
  rewrite (slice_eq s 0 n); simpl skipn.
  f_equal.
  rewrite !map_map.
  apply map_ext; intros k.
  rewrite !slice_eq, skipn_skipn.
  do 2 f_equal; lia.
Qed.

Lemma slices_app (n k m : nat) (a b : list A) :
  length a = k * n -> 0 < n ->
  slices n (k + m) (a ++ b) = slices n k a ++ slices n m b.
Proof.
  revert a; induction k as [|k IH]; intros a Ha Hn.
  - simpl in Ha; apply length_zero_iff_nil in Ha; subst a; reflexivity.
  - change (S k + m) with (S (k + m)).
    rewrite !slices_S, firstn_app, skipn_app.
    replace (n - length a) with 0 by lia.
    simpl firstn at 2; simpl skipn at 2.
    rewrite app_nil_r, <- app_comm_cons.
    f_equal.
    apply IH; [|assumption].
    rewrite length_skipn; lia.
Qed.

Lemma slices_lengths (n k : nat) (s : list A) :
  length s = k * n -> Forall (fun g => length g = n) (slices n k s).
Proof.
  revert s; induction k as [|k IH]; intros s Hs.
  - constructor.
  - rewrite slices_S; constructor.
    + rewrite length_firstn; lia.
    + apply IH; rewrite length_skipn; lia.
Qed.

Lemma slices_rev (n k : nat) (s : list A) :
  length s = k * n -> 0 < n ->
  slices n k (rev s) = rev (map (@rev A) (slices n k s)).
Proof.
  revert s; induction k as [|k IH]; intros s Hs Hn.
  - reflexivity.
  - rewrite (slices_S n k s); simpl map; simpl rev.
    rewrite <- (IH (skipn n s)) by (rewrite ?length_skipn; lia).
    rewrite <- (firstn_skipn n s) at 1.
    rewrite rev_app_distr.
    replace (S k) with (k + 1) by lia.
    rewrite slices_app by (rewrite ?length_rev, ?length_skipn; lia).
    f_equal.
    rewrite slices_S, slices_0.
    rewrite firstn_all2; [reflexivity|].
    rewrite length_rev, length_firstn; lia.
Qed.

End ListFacts.

(* ------------------------------------------------------------------------ *)
(** ** Hexadecimal text and the word extraction *)

(** Division of naturals by a constant, for [lia]. *)
Ltac nat_divmod a b :=
  pose proof (Nat.div_mod_eq a b);
  pose proof (Nat.mod_upper_bound a b ltac:(discriminate)).

Lemma byte_val_range (b : byte) : 0 <= byte_val b < 256.
Proof.
  unfold byte_val.
  pose proof (Byte.to_N_bounded b); lia.
Qed.

(** Replaces the value of every byte of the goal by a number below 256. *)
Ltac byte_ranges :=
  repeat match goal with
         | |- context [byte_val ?b] =>
             generalize (byte_val_range b); generalize (byte_val b); intros ? ?
         end.

(** A check on the numbers below a bound, settled by evaluation. *)
Lemma below_check (f : Z -> bool) (k : nat) :
  forallb f (map Z.of_nat (seq 0 k)) = true ->
  forall n, 0 <= n < Z.of_nat k -> f n = true.
Proof.
  intros H n Hn.
  rewrite forallb_forall in H; apply H.
  apply in_map_iff; exists (Z.to_nat n).
  split; [lia|apply in_seq; lia].
Qed.

Lemma digit_val_hex_digit (n : Z) :
  0 <= n < 16 -> digit_val (hex_digit n) = Some n.
Proof.
  intros H.
  pose proof (below_check
                (fun m => match digit_val (hex_digit m) with
                          | Some d => d =? m
                          | None => false
                          end) 16 eq_refl n H) as E.
  cbv beta in E.
  destruct (digit_val (hex_digit n)) as [d|]; [|discriminate].
  apply Z.eqb_eq in E; now subst d.
Qed.

Lemma int_digits_hex (g : list byte) (acc : Z) :
  int_digits 16 acc (hex g)
  = Some (fold_left (fun a b => a * 256 + byte_val b) g acc).
Proof.
  revert acc; induction g as [|b g IH]; intros acc; [reflexivity|].
  pose proof (byte_val_range b) as Hb.
  cbn [hex flat_map app int_digits fold_left].
  rewrite digit_val_hex_digit by (split; [apply Z.div_pos|apply Z.div_lt_upper_bound]; lia).
  cbn [bind].
  replace (byte_val b / 16 <? 16) with true
    by (symmetry; apply Z.ltb_lt, Z.div_lt_upper_bound; lia).
  rewrite digit_val_hex_digit by (apply Z.mod_pos_bound; lia).
  cbn [bind].
  replace (byte_val b mod 16 <? 16) with true
    by (symmetry; apply Z.ltb_lt, Z.mod_pos_bound; lia).
  fold (hex g); rewrite IH.
  do 2 f_equal.
  pose proof (Z.div_mod (byte_val b) 16); lia.
Qed.

Lemma int16_hex (g : list byte) :
  g <> [] -> int16 (hex g) = Some (be_val g).
Proof.
  intros Hg; unfold int16.
  destruct (hex g) eqn:E.
  - destruct g; [congruence|discriminate].
  - rewrite <- E; apply int_digits_hex.
Qed.

Lemma be_val_rev (g : list byte) : be_val (rev g) = le_val g.
Proof.
  unfold be_val; induction g as [|b g IH]; [reflexivity|].
  cbn [rev le_val]; rewrite fold_left_app; cbn [fold_left].
  rewrite IH; lia.
Qed.

Lemma length_hex (l : list byte) : length (hex l) = (2 * length l)%nat.
Proof.
  induction l as [|b l IH]; [reflexivity|].
  cbn [hex flat_map app length]; fold (hex l); lia.
Qed.

Lemma hex_firstn (k : nat) (l : list byte) :
  firstn (2 * k) (hex l) = hex (firstn k l).
Proof.
  revert l; induction k as [|k IH]; intros l; [reflexivity|].
  destruct l as [|b l]; [reflexivity|].
  replace (2 * S k)%nat with (S (S (2 * k))) by lia.
  cbn [hex flat_map app firstn]; fold (hex l); fold (hex (firstn k l)).
  now rewrite IH.
Qed.

Lemma hex_skipn (k : nat) (l : list byte) :
  skipn (2 * k) (hex l) = hex (skipn k l).
Proof.
  revert l; induction k as [|k IH]; intros l; [reflexivity|].
  destruct l as [|b l]; [reflexivity|].
  replace (2 * S k)%nat with (S (S (2 * k))) by lia.
  cbn [hex flat_map app skipn]; fold (hex l).
  apply IH.
Qed.

Lemma slice_hex (l : list byte) (k : nat) :
  slice (hex l) (k * 8) (k * 8 + 8) = hex (slice l (k * 4) (k * 4 + 4)).
Proof.
  rewrite !slice_eq.
  replace (k * 8)%nat with (2 * (k * 4))%nat by lia.
  rewrite hex_skipn.
  apply (hex_firstn 4).
Qed.

Lemma le_words_slices (k : nat) (s : list byte) :
  length s = (k * 4)%nat -> map le_val (slices 4 k s) = le_words s.
Proof.
  revert s; induction k as [|k IH]; intros s Hs.
  - destruct s; [reflexivity|discriminate].
  - destruct s as [|b0 [|b1 [|b2 [|b3 s]]]]; try discriminate.
    rewrite slices_S; cbn [firstn skipn map le_words le_val].
    f_equal; [lia|].
    apply IH; simpl in Hs; lia.
Qed.

(** The word list before the final reversal: the big-endian values of the
    groups of the reversed stream. *)
Lemma ts_word_list_slices (bs : list byte) :
  ts_word_list bs
  = Some (rev (map be_val (slices 4 ((length bs + 3) / 4) (rev bs)))).
Proof.
  unfold ts_word_list, range_step.
  rewrite length_hex, length_rev.
  replace ((2 * length bs + 8 - 1) / 8)%nat with ((length bs + 3) / 4)%nat.
  2:{ nat_divmod (2 * length bs + 8 - 1)%nat 8%nat.
      nat_divmod (length bs + 3)%nat 4%nat.
      lia. }
  rewrite mapM_map.
  rewrite (mapM_Some _ (fun k => be_val (slice (rev bs) (k * 4) (k * 4 + 4)))).
  - cbn [bind]; unfold slices; now rewrite map_map, map_map.
  - intros k Hk; apply in_seq in Hk.
    rewrite slice_hex; apply int16_hex.
    rewrite slice_eq; intros E.
    apply (f_equal (@length byte)) in E.
    rewrite length_firstn, length_skipn, length_rev in E.
    change (length (@nil byte)) with 0%nat in E.
    assert (k * 4 < length bs)%nat; [|lia].
    destruct Hk as [_ Hk].
    nat_divmod (length bs + 3)%nat 4%nat; lia.
Qed.

Lemma map_be_val_rev (X : list (list byte)) :
  map be_val (map (@rev byte) X) = map le_val X.
Proof.
  rewrite map_map; apply map_ext; intros g; apply be_val_rev.
Qed.

(** The word extraction computes [stream_words], and raises nothing. *)
Lemma ts_word_list_eq (bs : list byte) :
  ts_word_list bs = Some (stream_words bs).
Proof.
  rewrite ts_word_list_slices; f_equal.
  unfold stream_words.
  set (r := (length bs mod 4)%nat).
  set (k := (length bs / 4)%nat).
  assert (Hlen : length bs = (r + k * 4)%nat /\ (r < 4)%nat)
    by (subst r k; nat_divmod (length bs) 4%nat; lia).
  destruct Hlen as [Hlen Hr].
  assert (Hrest : length (skipn r bs) = (k * 4)%nat) by (rewrite length_skipn; lia).
  assert (Hpre : length (firstn r bs) = r) by (rewrite length_firstn; lia).
  rewrite <- (firstn_skipn r bs) at 2.
  rewrite rev_app_distr.
  replace ((length bs + 3) / 4)%nat with (k + (if (r =? 0)%nat then 0 else 1))%nat.
  2:{ nat_divmod (length bs + 3)%nat 4%nat.
      destruct (Nat.eqb_spec r 0); lia. }
  rewrite slices_app by (rewrite ?length_rev; lia).
  rewrite slices_rev by lia.
  rewrite map_app, rev_app_distr.
  rewrite map_rev, rev_involutive, map_be_val_rev, le_words_slices by assumption.
  f_equal.
  destruct (Nat.eqb_spec r 0) as [E|E]; [reflexivity|].
  rewrite slices_S, slices_0; cbn [map rev app].
  rewrite firstn_all2 by (rewrite length_rev; lia).
  now rewrite be_val_rev.
Qed.

(* ------------------------------------------------------------------------ *)
(** ** The loop over the words *)

Lemma run_loop_decode (legacy : bool) (ws : list Z) (st : loop_state) :
  run_loop legacy ws st
  = {| ts_list := ts_list st ++ ticks_of (decode (periode_count st) (prev_ts st) ws);
       event_channel_list :=
         event_channel_list st
         ++ channels_of legacy (decode (periode_count st) (prev_ts st) ws);
       periode_count := count_after (periode_count st) (prev_ts st) ws;
       prev_ts := prev_after (prev_ts st) ws |}.
Proof.
  unfold run_loop, ticks_of, channels_of.
  revert st; induction ws as [|w ws IH]; intros st.
  - destruct st; simpl; now rewrite !app_nil_r.
  - cbn [fold_left]; rewrite IH; clear IH.
    cbn [decode count_after prev_after].
    unfold loop_body.
    change (Z.land (Z.land w 31) 16 =? 0) with (flag_clear w).
    change (Z.shiftr w 5) with (raw_counter w).
    change (if negb (prev_ts st =? -1) && (raw_counter w <? prev_ts st)
            then periode_count st + 1 else periode_count st)
      with (next_count (periode_count st) (prev_ts st) w).
    destruct (flag_clear w); cbn [ts_list event_channel_list periode_count prev_ts].
    + cbn [map fst snd]; rewrite <- !app_assoc; reflexivity.
    + reflexivity.
Qed.

Lemma decode_app (ws1 ws2 : list Z) (c prev : Z) :
  decode c prev (ws1 ++ ws2)
  = decode c prev ws1 ++ decode (count_after c prev ws1) (prev_after prev ws1) ws2.
Proof.
  revert c prev; induction ws1 as [|w ws1 IH]; intros c prev; [reflexivity|].
  cbn [app decode count_after prev_after]; rewrite IH.
  now destruct (flag_clear w).
Qed.

Lemma count_after_app (ws1 ws2 : list Z) (c prev : Z) :
  count_after c prev (ws1 ++ ws2)
  = count_after (count_after c prev ws1) (prev_after prev ws1) ws2.
Proof.
  revert c prev; induction ws1 as [|w ws1 IH]; intros c prev; [reflexivity|].
  cbn [app count_after prev_after]; apply IH.
Qed.

Lemma prev_after_app (ws1 ws2 : list Z) (prev : Z) :
  prev_after prev (ws1 ++ ws2) = prev_after (prev_after prev ws1) ws2.
Proof.
  revert prev; induction ws1 as [|w ws1 IH]; intros prev; [reflexivity|].
  cbn [app prev_after]; apply IH.
Qed.

(** A shift of the rollover count shifts every decoded tick count. *)
Lemma decode_shift (ws : list Z) (c prev d : Z) :
  decode (c + d) prev ws
  = map (fun e => (fst e + 2 ^ 27 * d, snd e)) (decode c prev ws).
Proof.
  revert c prev; induction ws as [|w ws IH]; intros c prev; [reflexivity|].
  cbn [decode].
  assert (E : next_count (c + d) prev w = next_count c prev w + d)
    by (unfold next_count; destruct (negb (prev =? -1) && (raw_counter w <? prev)); lia).
  rewrite E, IH.
  destruct (flag_clear w); [|reflexivity].
  cbn [map fst snd]; do 2 f_equal; lia.
Qed.

(** The entries of [decode] are exactly the valid words, in order. *)
Lemma decode_words (ws : list Z) (c prev : Z) :
  map snd (decode c prev ws) = filter flag_clear ws.
Proof.
  revert c prev; induction ws as [|w ws IH]; intros c prev; [reflexivity|].
  cbn [decode filter].
  destruct (flag_clear w); cbn [map snd]; now rewrite IH.
Qed.

Lemma raw_counter_range (w : Z) : word_ok w -> 0 <= raw_counter w < 2 ^ 27.
Proof.
  unfold word_ok, raw_counter; intros H.
  rewrite Z.shiftr_div_pow2 by lia.
  split; [apply Z.div_pos; lia|apply Z.div_lt_upper_bound; lia].
Qed.

(** The validity test reads bit 4 of the word, the flag bit of the trailer. *)
Lemma flag_clear_bit4 (w : Z) : flag_clear w = negb (Z.testbit w 4).
Proof.
  unfold flag_clear, trailer.
  rewrite <- Z.land_assoc; change (Z.land 31 16) with (2 ^ 4).
  assert (E : Z.land w (2 ^ 4) = if Z.testbit w 4 then 2 ^ 4 else 0).
  { apply Z.bits_inj'; intros n Hn.
    rewrite Z.land_spec, Z.pow2_bits_eqb by lia.
    destruct (Z.eqb_spec 4 n) as [<-|Hne].
    - destruct (Z.testbit w 4); [reflexivity|].
      now rewrite Z.bits_0.
    - rewrite andb_false_r.
      destruct (Z.testbit w 4); [|now rewrite Z.bits_0].
      rewrite Z.pow2_bits_eqb by lia.
      symmetry; now apply Z.eqb_neq. }
  rewrite E; now destruct (Z.testbit w 4).
Qed.

Lemma next_count_cases (c prev w : Z) :
  (next_count c prev w = c /\ (prev = -1 \/ prev <= raw_counter w))
  \/ (next_count c prev w = c + 1 /\ prev <> -1 /\ raw_counter w < prev).
Proof.
  unfold next_count.
  destruct (Z.eqb_spec prev (-1)); cbn [negb andb]; [left; auto|].
  destruct (Z.ltb_spec (raw_counter w) prev); [right; auto|left; auto].
Qed.

(** Every decoded tick count lies between the position reached before the
    words and the end of the last period the words can reach. *)
Lemma decode_bounds (ws : list Z) (c prev : Z) :
  Forall word_ok ws -> -1 <= prev < 2 ^ 27 ->
  Forall (fun e =>
            2 ^ 27 * c + prev <= fst e
            < 2 ^ 27 * (c + (if prev =? -1 then 0 else 1) + Z.of_nat (length ws)))
         (decode c prev ws).
Proof.
  revert c prev; induction ws as [|w ws IH]; intros c prev Hws Hprev; [constructor|].
  inversion Hws as [|? ? Hw Hws']; subst.
  pose proof (raw_counter_range w Hw) as Ht.
  cbn [decode].
  set (c' := next_count c prev w).
  assert (Hc' : 2 ^ 27 * c + prev <= raw_counter w + 2 ^ 27 * c'
                /\ c' <= c + (if prev =? -1 then 0 else 1)).
  { subst c'; destruct (next_count_cases c prev w) as [[-> H]|[-> [H1 H2]]];
      destruct (Z.eqb_spec prev (-1)); lia. }
  assert (Hrest : Forall (fun e =>
            2 ^ 27 * c + prev <= fst e
            < 2 ^ 27 * (c + (if prev =? -1 then 0 else 1)
                        + Z.of_nat (length (w :: ws))))
            (decode c' (raw_counter w) ws)).
  { eapply Forall_impl; [|apply (IH c' (raw_counter w) Hws'); lia].
    intros e He; cbv beta in He.
    replace (raw_counter w =? -1) with false in He
      by (symmetry; apply Z.eqb_neq; lia).
    cbn [length]; lia. }
  destruct (flag_clear w); [|exact Hrest].
  constructor; [|exact Hrest].
  cbn [fst length]; lia.
Qed.

(** The decoded tick counts never decrease. *)
Lemma decode_sorted (ws : list Z) (c prev : Z) :
  Forall word_ok ws -> -1 <= prev < 2 ^ 27 ->
  StronglySorted Z.le (ticks_of (decode c prev ws)).
Proof.
  unfold ticks_of.
  revert c prev; induction ws as [|w ws IH]; intros c prev Hws Hprev; [constructor|].
  inversion Hws as [|? ? Hw Hws']; subst.
  pose proof (raw_counter_range w Hw) as Ht.
  cbn [decode].
  assert (Hs := IH (next_count c prev w) (raw_counter w) Hws' ltac:(lia)).
  destruct (flag_clear w); [|exact Hs].
  cbn [map fst]; constructor; [exact Hs|].
  apply Forall_map.
  eapply Forall_impl; [|apply decode_bounds; [exact Hws'|lia]].
  intros e He; cbv beta in He; lia.
Qed.

(* ------------------------------------------------------------------------ *)
(** ** The words of a stream *)

Lemma le_val_range (g : list byte) :
  (length g <= 4)%nat -> word_ok (le_val g).
Proof.
  unfold word_ok.
  destruct g as [|b0 [|b1 [|b2 [|b3 [|b4 g]]]]]; cbn [length le_val]; intros H;
    try (exfalso; lia); byte_ranges; lia.
Qed.

Lemma le_words_range (k : nat) (s : list byte) :
  length s = (k * 4)%nat -> Forall word_ok (le_words s).
Proof.
  intros Hs; rewrite <- (le_words_slices k s Hs).
  apply Forall_map.
  eapply Forall_impl; [|apply (slices_lengths 4 k s Hs)].
  intros g Hg; apply le_val_range; cbv beta in Hg; lia.
Qed.

Lemma length_slices {A : Type} (n m : nat) (s : list A) :
  length (slices n m s) = m.
Proof. unfold slices; now rewrite !length_map, length_seq. Qed.

Lemma length_le_words (k : nat) (s : list byte) :
  length s = (k * 4)%nat -> length (le_words s) = k.
Proof.
  intros Hs; rewrite <- (le_words_slices k s Hs).
  now rewrite length_map, length_slices.
Qed.

Lemma stream_split (bs : list byte) :
  exists k, length (skipn (length bs mod 4) bs) = (k * 4)%nat
            /\ length bs = (length bs mod 4 + k * 4)%nat
            /\ (length bs mod 4 < 4)%nat.
Proof.
  exists (length bs / 4)%nat.
  rewrite length_skipn.
  nat_divmod (length bs) 4%nat; lia.
Qed.

Lemma stream_words_range (bs : list byte) : Forall word_ok (stream_words bs).
Proof.
  unfold stream_words.
  destruct (stream_split bs) as [k [Hk [Hlen Hr]]].
  apply Forall_app; split.
  - destruct (length bs mod 4 =? 0)%nat; constructor; [|constructor].
    apply le_val_range; rewrite length_firstn; lia.
  - apply (le_words_range k); assumption.
Qed.

Lemma length_stream_words (bs : list byte) :
  4 * Z.of_nat (length (stream_words bs)) <= Z.of_nat (length bs) + 3.
Proof.
  unfold stream_words.
  destruct (stream_split bs) as [k [Hk [Hlen Hr]]].
  rewrite length_app, (length_le_words k) by assumption.
  destruct (Nat.eqb_spec (length bs mod 4) 0); cbn [length]; lia.
Qed.

Lemma le_words_app (k : nat) (a b : list byte) :
  length a = (k * 4)%nat -> le_words (a ++ b) = le_words a ++ le_words b.
Proof.
  revert a; induction k as [|k IH]; intros a Ha.
  - destruct a; [reflexivity|discriminate].
  - destruct a as [|b0 [|b1 [|b2 [|b3 a]]]]; try discriminate.
    cbn [app le_words]; f_equal.
    apply IH; simpl in Ha; lia.
Qed.

Lemma stream_words_aligned (k : nat) (bs : list byte) :
  length bs = (k * 4)%nat -> stream_words bs = le_words bs.
Proof.
  intros Hs; unfold stream_words.
  replace (length bs mod 4)%nat with 0%nat; [reflexivity|].
  rewrite Hs; symmetry; apply Nat.Div0.mod_mul.
Qed.

(** Whole words appended to a stream append their words. *)
Lemma stream_words_app (k : nat) (a b : list byte) :
  length b = (k * 4)%nat -> stream_words (a ++ b) = stream_words a ++ le_words b.
Proof.
  intros Hb; unfold stream_words.
  destruct (stream_split a) as [j [Hj [Hlen Hr]]].
  replace (length (a ++ b) mod 4)%nat with (length a mod 4)%nat.
  2:{ rewrite length_app, Hb.
      rewrite Nat.Div0.mod_add; reflexivity. }
  rewrite firstn_app, skipn_app.
  replace (length a mod 4 - length a)%nat with 0%nat by lia.
  cbn [firstn skipn]; rewrite app_nil_r.
  rewrite (le_words_app j) by assumption.
  now rewrite app_assoc.
Qed.

Lemma le_words_single (g : list byte) :
  length g = 4%nat -> le_words g = [le_val g].
Proof.
  destruct g as [|b0 [|b1 [|b2 [|b3 [|b4 g]]]]]; try discriminate.
  intros _; cbn [le_words le_val]; f_equal; lia.
Qed.

(* ------------------------------------------------------------------------ *)
(** ** The [int64] array *)

Lemma np_array_int64_ok (l : list Z) :
  Forall (fun x => - 2 ^ 63 <= x < 2 ^ 63) l -> np_array_int64 l = Some l.
Proof.
  intros H; unfold np_array_int64.
  rewrite (mapM_Some _ (fun x => x)); [now rewrite map_id|].
  intros x Hx.
  rewrite Forall_forall in H; specialize (H x Hx).
  replace (- 2 ^ 63 <=? x) with true by (symmetry; apply Z.leb_le; lia).
  replace (x <? 2 ^ 63) with true by (symmetry; apply Z.ltb_lt; lia).
  reflexivity.
Qed.

Lemma wrap64_small (x : Z) : - 2 ^ 63 <= x < 2 ^ 63 -> wrap64 x = x.
Proof.
  intros H; unfold wrap64.
  rewrite Z.mod_small; lia.
Qed.

Lemma np_array_int64_inv (l arr : list Z) :
  np_array_int64 l = Some arr -> arr = l.
Proof.
  unfold np_array_int64.
  revert arr; induction l as [|x l IH]; intros arr; cbn [mapM bind].
  - intros H; now injection H as <-.
  - destruct ((- 2 ^ 63 <=? x) && (x <? 2 ^ 63)); cbn [bind]; [|discriminate].
    destruct (mapM _ l) as [l'|]; cbn [bind]; [|discriminate].
    intros H; injection H as <-.
    now rewrite (IH l' eq_refl).
Qed.

(** [read_timestamps] in terms of [decode], while the doubled tick counts fit
    in 64 bits. *)
Lemma read_timestamps_decode (bs : list byte) (legacy : bool) :
  Forall (fun e => - 2 ^ 62 <= fst e < 2 ^ 62) (decode 0 (-1) (stream_words bs)) ->
  read_timestamps bs legacy
  = Some (map (fun e => 2 * fst e) (decode 0 (-1) (stream_words bs)),
          channels_of legacy (decode 0 (-1) (stream_words bs))).
Proof.
  intros H; unfold read_timestamps.
  rewrite ts_word_list_eq; cbn [bind].
  rewrite run_loop_decode; cbn [ts_list event_channel_list loop_init app].
  unfold ticks_of.
  rewrite np_array_int64_ok.
  2:{ apply Forall_map; eapply Forall_impl; [|exact H].
      intros e He; cbv beta in He; lia. }
  cbn [bind]; unfold np_mul_int64; rewrite map_map.
  do 2 f_equal.
  apply map_ext_in; intros e He.
  rewrite Forall_forall in H; specialize (H e He).
  rewrite wrap64_small; lia.
Qed.

(** A stream of admissible size raises nothing and its tick counts do not
    wrap. *)
Lemma read_timestamps_sized (bs : list byte) (legacy : bool) :
  stream_size_ok bs ->
  read_timestamps bs legacy
  = Some (map (fun e => 2 * fst e) (decode 0 (-1) (stream_words bs)),
          channels_of legacy (decode 0 (-1) (stream_words bs))).
Proof.
  unfold stream_size_ok; intros Hsize.
  apply read_timestamps_decode.
  eapply Forall_impl;
    [|apply (decode_bounds (stream_words bs) 0 (-1) (stream_words_range bs)); lia].
  intros e He; cbv beta in He.
  change (-1 =? -1) with true in He.
  pose proof (length_stream_words bs).
  lia.
Qed.

(* ------------------------------------------------------------------------ *)
(** ** Streams without rollover, order and pairing of the outputs *)

Lemma decode_no_rollover (ws : list Z) (c prev : Z) :
  no_rollover ws = true ->
  (prev = -1 \/ match ws with [] => True | w :: _ => prev <= raw_counter w end) ->
  decode c prev ws
  = map (fun w => (raw_counter w + 2 ^ 27 * c, w)) (filter flag_clear ws).
Proof.
  revert c prev; induction ws as [|w ws IH]; intros c prev Hno Hprev; [reflexivity|].
  cbn [decode filter].
  assert (E : next_count c prev w = c).
  { destruct (next_count_cases c prev w) as [[E _]|[_ [H1 H2]]]; [exact E|].
    destruct Hprev; lia. }
  rewrite E, IH.
  - now destruct (flag_clear w).
  - destruct ws; [reflexivity|].
    cbn [no_rollover] in Hno; now apply andb_prop in Hno.
  - right; destruct ws as [|w' ws]; [exact I|].
    cbn [no_rollover] in Hno; apply andb_prop in Hno.
    now apply Z.leb_le.
Qed.

Lemma decode_entries (ws : list Z) (c prev : Z) :
  0 <= c ->
  Forall (fun e => exists k, 0 <= k /\ fst e = raw_counter (snd e) + 2 ^ 27 * k)
         (decode c prev ws).
Proof.
  revert c prev; induction ws as [|w ws IH]; intros c prev Hc; [constructor|].
  cbn [decode].
  assert (Hc' : 0 <= next_count c prev w)
    by (destruct (next_count_cases c prev w) as [[-> _]|[-> _]]; lia).
  destruct (flag_clear w); [constructor|]; try (apply IH; exact Hc').
  exists (next_count c prev w); cbn [fst snd]; auto.
Qed.

Lemma Forall2_map_both {A B C : Type} (P : B -> C -> Prop)
      (f : A -> B) (g : A -> C) (l : list A) :
  Forall (fun x => P (f x) (g x)) l -> Forall2 P (map f l) (map g l).
Proof.
  induction 1; cbn [map]; constructor; assumption.
Qed.

Lemma StronglySorted_double (l : list Z) :
  StronglySorted Z.le l -> StronglySorted Z.le (map (fun x => 2 * x) l).
Proof.
  induction 1 as [|x l Hl IH Hx]; cbn [map]; constructor; [exact IH|].
  apply Forall_map; eapply Forall_impl; [|exact Hx].
  intros y Hy; cbv beta in Hy; lia.
Qed.

(* ------------------------------------------------------------------------ *)
(** ** Partial leading words *)

Lemma le_val_app_zeros (g : list byte) (n : nat) :
  le_val (g ++ repeat x00 n) = le_val g.
Proof.
  induction g as [|b g IH]; cbn [app le_val].
  - induction n as [|n IHn]; cbn [repeat le_val]; [reflexivity|].
    rewrite IHn; reflexivity.
  - now rewrite IH.
Qed.

Lemma stream_words_partial (bs : list byte) :
  (length bs mod 4 <> 0)%nat ->
  stream_words bs
  = le_val (firstn (length bs mod 4) bs) :: le_words (skipn (length bs mod 4) bs).
Proof.
  intros H; unfold stream_words.
  now destruct (Nat.eqb_spec (length bs mod 4) 0).
Qed.

Lemma stream_words_zero_extend (bs : list byte) :
  stream_words (zero_extend_head bs) = stream_words bs.
Proof.
  unfold zero_extend_head.
  destruct (Nat.eqb_spec (length bs mod 4) 0) as [E|E]; [reflexivity|].
  rewrite (stream_words_partial bs E).
  destruct (stream_split bs) as [k [Hk [Hlen Hr]]].
  set (r := (length bs mod 4)%nat) in *.
  assert (Hpre : length (firstn r bs ++ repeat x00 (4 - r)) = 4%nat)
    by (rewrite length_app, length_firstn, repeat_length; lia).
  rewrite app_assoc.
  rewrite (stream_words_aligned (S k)) by (rewrite length_app, Hpre, Hk; lia).
  rewrite (le_words_app 1) by (rewrite Hpre; reflexivity).
  rewrite (le_words_single _ Hpre), le_val_app_zeros.
  reflexivity.
Qed.

(* ------------------------------------------------------------------------ *)
(** ** Words inserted into a stream *)

Lemma le_words_cons (c : list byte) :
  (4 <= length c)%nat ->
  le_words c = le_val (firstn 4 c) :: le_words (skipn 4 c).
Proof.
  destruct c as [|b0 [|b1 [|b2 [|b3 c]]]]; cbn [length]; intros H;
    try (exfalso; lia).
  cbn [le_words firstn skipn le_val]; f_equal; lia.
Qed.

Lemma stream_words_snoc (k : nat) (a p c : list byte) :
  length p = 4%nat -> length c = (k * 4)%nat ->
  stream_words (a ++ p ++ c) = (stream_words a ++ [le_val p]) ++ le_words c.
Proof.
  intros Hp Hc.
  rewrite (stream_words_app (S k)) by (rewrite length_app; lia).
  rewrite (le_words_app 1) by lia.
  now rewrite (le_words_single p Hp), app_assoc.
Qed.

Lemma stream_words_snoc1 (a p : list byte) :
  length p = 4%nat -> stream_words (a ++ p) = stream_words a ++ [le_val p].
Proof.
  intros Hp.
  rewrite (stream_words_app 1) by lia.
  now rewrite (le_words_single p Hp).
Qed.

Lemma prev_after_snoc (ws : list Z) (w prev : Z) :
  prev_after prev (ws ++ [w]) = raw_counter w.
Proof. now rewrite prev_after_app. Qed.

(** The words after a point depend on the previous raw value only through
    the comparison with the first of them. *)
Lemma decode_first_compare (ws : list Z) (c x y : Z) :
  x <> -1 -> y <> -1 ->
  match ws with
  | [] => True
  | q :: _ => (raw_counter q <? x) = (raw_counter q <? y)
  end ->
  decode c x ws = decode c y ws.
Proof.
  intros Hx Hy; destruct ws as [|q ws]; [reflexivity|]; intros E.
  cbn [decode]; unfold next_count.
  apply Z.eqb_neq in Hx, Hy.
  now rewrite Hx, Hy, E.
Qed.

Lemma channels_of_shift (legacy : bool) (d : Z) (es : list (Z * Z)) :
  channels_of legacy (map (fun e => (fst e + 2 ^ 27 * d, snd e)) es)
  = channels_of legacy es.
Proof. unfold channels_of; rewrite map_map; reflexivity. Qed.

Lemma stream_size_ok_le (a b : list byte) :
  (length a <= length b)%nat -> stream_size_ok b -> stream_size_ok a.
Proof. unfold stream_size_ok; lia. Qed.

(* ------------------------------------------------------------------------ *)
(** ** The channel cleaner *)

Lemma is_one_bit_at (s : list ascii) (i : nat) :
  (i < length s)%nat -> is_one s i = Some (bit_at i s).
Proof.
  intros H; unfold is_one, bit_at.
  destruct (nth_error s i) eqn:E; [reflexivity|].
  apply nth_error_None in E; lia.
Qed.

Lemma cleaner_body_pattern (st : cleaner_state) (s : list ascii) :
  length s = 4%nat ->
  cleaner_body st s
  = Some {| cha_clean := cha_clean st ++ [active_channels s];
            counts_1 := counts_1 st + (if bit_at 3 s then 1 else 0);
            counts_2 := counts_2 st + (if bit_at 2 s then 1 else 0);
            counts_3 := counts_3 st + (if bit_at 1 s then 1 else 0);
            counts_4 := counts_4 st + (if bit_at 0 s then 1 else 0) |}.
Proof.
  intros Hs; unfold cleaner_body, active_channels.
  rewrite !is_one_bit_at by lia; cbn [bind].
  destruct (bit_at 0 s), (bit_at 1 s), (bit_at 2 s), (bit_at 3 s);
    cbn [app]; rewrite ?Z.add_0_r; reflexivity.
Qed.

Lemma count_active_cons (i : nat) (s : list ascii) (l : list (list ascii)) :
  count_active i (s :: l) = (if bit_at i s then 1 else 0) + count_active i l.
Proof.
  unfold count_active; cbn [filter].
  destruct (bit_at i s); cbn [length]; lia.
Qed.

Lemma cleaner_loop_patterns (cha_info : list (list ascii)) (st : cleaner_state) :
  Forall (fun s => length s = 4%nat) cha_info ->
  cleaner_loop cha_info st
  = Some {| cha_clean := cha_clean st ++ map active_channels cha_info;
            counts_1 := counts_1 st + count_active 3 cha_info;
            counts_2 := counts_2 st + count_active 2 cha_info;
            counts_3 := counts_3 st + count_active 1 cha_info;
            counts_4 := counts_4 st + count_active 0 cha_info |}.
Proof.
  intros H; revert st; induction H as [|s l Hs Hl IH]; intros st.
  - destruct st; cbn [cleaner_loop map cha_clean counts_1 counts_2 counts_3 counts_4].
    unfold count_active; cbn [filter length Z.of_nat].
    now rewrite app_nil_r, !Z.add_0_r.
  - cbn [cleaner_loop]; rewrite (cleaner_body_pattern st s Hs); cbn [bind].
    rewrite IH; cbn [cha_clean counts_1 counts_2 counts_3 counts_4 map].
    rewrite !count_active_cons, <- app_assoc, !Z.add_assoc.
    reflexivity.
Qed.

(* ------------------------------------------------------------------------ *)
(** ** The encoder of the word layout *)

Lemma byte_val_of_Z (z : Z) : byte_val (byte_of_Z z) = z mod 256.
Proof.
  unfold byte_of_Z, byte_val.
  pose proof (Z.mod_pos_bound z 256 ltac:(lia)) as Hz.
  destruct (Byte.of_N (Z.to_N (z mod 256))) as [b|] eqn:E.
  - apply Byte.to_of_N in E; rewrite E; lia.
  - apply Byte.of_N_None_iff in E; lia.
Qed.

Lemma le_val_encode_word (w : Z) : word_ok w -> le_val (encode_word w) = w.
Proof.
  unfold word_ok, encode_word; intros H.
  cbn [le_val]; rewrite !byte_val_of_Z.
  replace (w / 65536) with (w / 256 / 256)
    by (rewrite Z.div_div by lia; reflexivity).
  replace (w / 16777216) with (w / 256 / 256 / 256)
    by (rewrite !Z.div_div by lia; reflexivity).
  pose proof (Z.div_mod w 256 ltac:(lia)).
  pose proof (Z.div_mod (w / 256) 256 ltac:(lia)).
  pose proof (Z.div_mod (w / 256 / 256) 256 ltac:(lia)).
  assert (0 <= w / 256 / 256 / 256 < 256).
  { split; [repeat apply Z.div_pos; lia|].
    repeat apply Z.div_lt_upper_bound; lia. }
  rewrite (Z.mod_small (w / 256 / 256 / 256)) by assumption.
  lia.
Qed.

Lemma pair_word_fields (p : Z * Z) :
  well_formed_pair p ->
  word_ok (pair_word p)
  /\ raw_counter (pair_word p) = (fst p / 2) mod 2 ^ 27
  /\ flag_clear (pair_word p) = true
  /\ channel_pattern (pair_word p) = snd p.
Proof.
  destruct p as [t pat]; unfold well_formed_pair, pair_word; cbn [fst snd].
  intros [Ht [_ [_ Hpat]]].
  pose proof (Z.mod_pos_bound (t / 2) (2 ^ 27) ltac:(lia)) as Hr.
  set (r := (t / 2) mod 2 ^ 27) in *.
  assert (Hdiv : (r * 32 + pat) / 32 = r)
    by (rewrite Z.div_add_l by lia; rewrite Z.div_small; lia).
  assert (Hmod : (r * 32 + pat) mod 32 = pat)
    by (rewrite Z.add_comm, Z.mod_add by lia; apply Z.mod_small; lia).
  assert (Htr : trailer (r * 32 + pat) = pat).
  { unfold trailer; change 31 with (Z.ones 5).
    rewrite Z.land_ones by lia; exact Hmod. }
  repeat split.
  - lia.
  - lia.
  - unfold raw_counter; rewrite Z.shiftr_div_pow2 by lia; exact Hdiv.
  - unfold flag_clear; rewrite Htr.
    apply (below_check (fun m => Z.land m 16 =? 0) 16 eq_refl); lia.
  - unfold channel_pattern; rewrite Htr.
    change 15 with (Z.ones 4); rewrite Z.land_ones by lia.
    apply Z.mod_small; lia.
Qed.

Lemma stream_words_encode (pairs : list (Z * Z)) :
  Forall well_formed_pair pairs ->
  stream_words (encode_pairs pairs) = map pair_word pairs.
Proof.
  intros H.
  assert (Hlen : length (encode_pairs pairs) = (length pairs * 4)%nat).
  { clear H; induction pairs as [|p l IH]; [reflexivity|].
    unfold encode_pairs in *; cbn [flat_map]; rewrite length_app, IH.
    cbn [encode_word length]; lia. }
  rewrite (stream_words_aligned _ _ Hlen); clear Hlen.
  induction H as [|p l Hp Hl IH]; [reflexivity|].
  unfold encode_pairs in *; cbn [flat_map map].
  rewrite (le_words_app 1) by reflexivity.
  rewrite le_words_single by reflexivity.
  rewrite le_val_encode_word by (apply pair_word_fields; exact Hp).
  now rewrite IH.
Qed.

(** With every tick less than one period after the one before, the rollover
    count of the decoder is the period the tick lies in. *)
Lemma decode_pairs (pairs : list (Z * Z)) (c prev A : Z) :
  Forall well_formed_pair pairs ->
  gaps_below A (map fst pairs) ->
  0 <= A -> A mod 2 = 0 ->
  (prev = -1 /\ c = 0 /\ A = 0)
  \/ (prev = (A / 2) mod 2 ^ 27 /\ c = (A / 2) / 2 ^ 27) ->
  decode c prev (map pair_word pairs)
  = map (fun p => (fst p / 2, pair_word p)) pairs.
Proof.
  intros H; revert c prev A; induction H as [|p l Hp Hl IH];
    intros c prev A Hgaps HA HA2 Hinv; [reflexivity|].
  cbn [map gaps_below] in Hgaps; destruct Hgaps as [Hgap Hgaps].
  destruct (pair_word_fields p Hp) as [_ [Hraw [Hflag _]]].
  destruct Hp as [Ht [Ht2 _]].
  cbn [map decode]; rewrite Hflag, Hraw.
  pose proof (Z.div_mod (fst p / 2) (2 ^ 27) ltac:(lia)) as Ea.
  pose proof (Z.mod_pos_bound (fst p / 2) (2 ^ 27) ltac:(lia)) as Ba.
  pose proof (Z.div_mod (A / 2) (2 ^ 27) ltac:(lia)) as EA.
  pose proof (Z.mod_pos_bound (A / 2) (2 ^ 27) ltac:(lia)) as BA.
  pose proof (Z.div_mod (fst p) 2 ltac:(lia)) as Et.
  pose proof (Z.div_mod A 2 ltac:(lia)) as EA2.
  assert (Hc : next_count c prev (pair_word p) = (fst p / 2) / 2 ^ 27).
  { unfold next_count; rewrite Hraw.
    destruct Hinv as [[-> [-> ->]]|[-> ->]].
    - cbn [Z.eqb negb andb]; symmetry; apply Z.div_small; lia.
    - replace ((A / 2) mod 2 ^ 27 =? -1) with false
        by (symmetry; apply Z.eqb_neq; lia).
      cbn [negb andb].
      destruct (Z.ltb_spec ((fst p / 2) mod 2 ^ 27) ((A / 2) mod 2 ^ 27)); lia. }
  rewrite Hc.
  rewrite (IH ((fst p / 2) / 2 ^ 27) ((fst p / 2) mod 2 ^ 27) (fst p));
    try assumption; try lia.
  f_equal; f_equal; lia.
Qed.

(* ------------------------------------------------------------------------ *)
(** ** A stream whose tick counts leave the [int64] range *)

Lemma length_wrapping_stream (n : nat) :
  length (wrapping_stream n) = (n * 8)%nat.
Proof.
  induction n as [|n IH]; [reflexivity|].
  cbn [wrapping_stream]; rewrite length_app, IH; cbn [wrap_pair length]; lia.
Qed.

Lemma stream_words_wrapping (n : nat) :
  stream_words (wrapping_stream (S n))
  = stream_words (wrapping_stream n) ++ [33; 1].
Proof.
  cbn [wrapping_stream].
  now rewrite (stream_words_app 2) by reflexivity.
Qed.

(** Every pair adds one to the rollover count. *)
Lemma decode_wrapping (n : nat) :
  decode 0 (-1) (stream_words (wrapping_stream n)) = wrapping_entries n
  /\ count_after 0 (-1) (stream_words (wrapping_stream n)) = Z.of_nat n
  /\ (prev_after (-1) (stream_words (wrapping_stream n)) = -1
      \/ prev_after (-1) (stream_words (wrapping_stream n)) = 0).
Proof.
  induction n as [|n [IHd [IHc IHp]]].
  - repeat split; left; reflexivity.
  - rewrite stream_words_wrapping.
    rewrite decode_app, count_after_app, prev_after_app, IHd, IHc.
    set (p := prev_after (-1) (stream_words (wrapping_stream n))) in *.
    assert (E : next_count (Z.of_nat n) p 33 = Z.of_nat n)
      by (unfold next_count; destruct IHp as [-> | ->]; reflexivity).
    cbn [decode count_after prev_after wrapping_entries].
    rewrite E.
    change (raw_counter 33) with 1; change (raw_counter 1) with 0.
    change (flag_clear 33) with true; change (flag_clear 1) with true.
    assert (E' : next_count (Z.of_nat n) 1 1 = Z.of_nat n + 1) by reflexivity.
    rewrite E'.
    repeat split; [lia|right; reflexivity].
Qed.

Lemma wrapping_entries_range (n : nat) :
  Forall (fun e => 0 <= fst e <= 2 ^ 27 * Z.of_nat n) (wrapping_entries n).
Proof.
  induction n as [|n IH]; [constructor|].
  cbn [wrapping_entries]; apply Forall_app; split.
  - eapply Forall_impl; [|exact IH].
    intros e He; cbv beta in He; lia.
  - repeat constructor; cbn [fst]; lia.
Qed.

Lemma Sorted_last_two {A : Type} (R : A -> A -> Prop) (l : list A) (x y : A) :
  Sorted R (l ++ [x; y]) -> R x y.
Proof.
  induction l as [|a l IH]; cbn [app]; intros H.
  - apply Sorted_inv in H; destruct H as [_ H].
    now apply HdRel_inv in H.
  - apply Sorted_inv in H; destruct H as [H _]; now apply IH.
Qed.

(** Up to 2^35 pairs the tick counts fit the [int64] array, and the call
    returns their doubles, wrapped. *)
Lemma read_timestamps_wrapping (n : nat) (legacy : bool) :
  Z.of_nat n < 2 ^ 35 ->
  read_timestamps (wrapping_stream (S n)) legacy
  = Some (map (fun e => wrap64 (fst e * 2)) (wrapping_entries n)
          ++ [wrap64 ((1 + 2 ^ 27 * Z.of_nat n) * 2);
              wrap64 ((0 + 2 ^ 27 * (Z.of_nat n + 1)) * 2)],
          channels_of legacy (wrapping_entries (S n))).
Proof.
  intros Hn; unfold read_timestamps.
  rewrite ts_word_list_eq; cbn [bind].
  rewrite run_loop_decode.
  cbn [ts_list event_channel_list periode_count prev_ts loop_init app].
  destruct (decode_wrapping (S n)) as [-> _].
  unfold ticks_of; rewrite np_array_int64_ok.
  - cbn [bind]; unfold np_mul_int64; rewrite map_map.
    cbn [wrapping_entries]; rewrite map_app; reflexivity.
  - apply Forall_map.
    eapply Forall_impl; [|apply wrapping_entries_range].
    intros e He; cbv beta in He; lia.
Qed.

Lemma np_array_int64_overflow (l : list Z) (x : Z) :
  In x l -> 2 ^ 63 <= x -> np_array_int64 l = None.
Proof.
  unfold np_array_int64; intros Hin Hx.
  induction l as [|y l IH]; [destruct Hin|].
  cbn [mapM bind].
  destruct ((- 2 ^ 63 <=? y) && (y <? 2 ^ 63)) eqn:E; [|reflexivity].
  cbn [bind].
  destruct Hin as [->|Hin].
  - apply andb_prop in E; destruct E as [_ E]; apply Z.ltb_lt in E; lia.
  - now rewrite (IH Hin).
Qed.

(** With 2^36 pairs the last tick count is 2^63, which the [int64] array
    does not take: the call raises, in either mode. *)
Lemma read_timestamps_overflow (legacy : bool) :
  read_timestamps (wrapping_stream (N.to_nat (2 ^ 36))) legacy = None.
Proof.
  assert (Hn : exists n, N.to_nat (2 ^ 36) = S n /\ Z.of_nat n = 2 ^ 36 - 1).
  { exists (Nat.pred (N.to_nat (2 ^ 36))).
    assert (H : Z.of_nat (N.to_nat (2 ^ 36)) = 2 ^ 36)
      by (rewrite N_nat_Z; reflexivity).
    split; lia. }
  destruct Hn as [n [-> Hn]].
  unfold read_timestamps.
  rewrite ts_word_list_eq; cbn [bind].
  rewrite run_loop_decode.
  cbn [ts_list event_channel_list periode_count prev_ts loop_init app].
  destruct (decode_wrapping (S n)) as [-> _].
  rewrite (np_array_int64_overflow _ (0 + 2 ^ 27 * (Z.of_nat n + 1)));
    [reflexivity| |lia].
  unfold ticks_of; cbn [wrapping_entries]; rewrite map_app.
  apply in_or_app; right; right; left; reflexivity.
Qed.

Lemma wrap64_last_pair (n : nat) :
  Z.of_nat n = 2 ^ 35 - 1 ->
  wrap64 ((1 + 2 ^ 27 * Z.of_nat n) * 2) = 2 ^ 63 - 2 ^ 28 + 2
  /\ wrap64 ((0 + 2 ^ 27 * (Z.of_nat n + 1)) * 2) = - 2 ^ 63.
Proof. intros ->; split; reflexivity. Qed.

(* ------------------------------------------------------------------------ *)
(** ** Properties of the timestamp stream decoder *)

(** C1.  For a stream whose words never wrap (no word has a raw counter value
    below that of the word before it), [read_timestamps] returns, for the
    valid words (flag bit clear) in input word order, the raw 27-bit counter
    value times 2 as the timestamp, next to the channel pattern of the same
    word. *)
Theorem read_timestamps_no_rollover
        (binary_stream : list byte) (legacy : bool) (ws : list Z) :
  ts_word_list binary_stream = Some ws ->
  no_rollover ws = true ->
  read_timestamps binary_stream legacy
  = Some (map (fun w => raw_counter w * 2) (filter flag_clear ws),
          map (fun w => render legacy (channel_pattern w)) (filter flag_clear ws))
  /\ Forall (fun w => 0 <= raw_counter w < 2 ^ 27) ws.
Proof.
  intros Hws Hno.
  rewrite ts_word_list_eq in Hws; injection Hws as <-.
  pose proof (stream_words_range binary_stream) as Hrange.
  assert (Hraw : Forall (fun w => 0 <= raw_counter w < 2 ^ 27)
                        (stream_words binary_stream))
    by (eapply Forall_impl; [|exact Hrange]; intros w; apply raw_counter_range).
  split; [|exact Hraw].
  pose proof (decode_no_rollover _ 0 (-1) Hno (or_introl eq_refl)) as Hd.
  rewrite read_timestamps_decode; rewrite Hd.
  - unfold channels_of; rewrite !map_map; cbn [fst snd].
    do 2 f_equal; apply map_ext; intros w; lia.
  - apply Forall_map, Forall_forall; intros w Hw; cbn [fst].
    apply filter_In in Hw; destruct Hw as [Hw _].
    rewrite Forall_forall in Hraw; specialize (Hraw w Hw); lia.
Qed.

Lemma read_timestamps_no_rollover_witness :
  read_timestamps [x41; x01; x00; x00; x91; x01; x00; x00; x81; x01; x00; x00] false
  = Some ([20; 24], [ChInt 1; ChInt 1])
  /\ Forall (fun w => 0 <= raw_counter w < 2 ^ 27) [321; 401; 385].
Proof.
  apply (read_timestamps_no_rollover
           [x41; x01; x00; x00; x91; x01; x00; x00; x81; x01; x00; x00]
           false [321; 401; 385]);
    vm_compute; reflexivity.
Defined.

(** C3, as stated, fails: the timestamps are the tick counts times 2 in an
    [int64] array, and the product wraps.  In [long_stream], a stream of 2^38
    bytes, every second word wraps the counter; the last two tick counts are
    2^62 - 2^27 + 1 and 2^62, and the call returns, as its last two
    timestamps, 2^63 - 2^28 + 2 and then -2^63. *)
Lemma read_timestamps_decreases :
  Z.of_nat (length long_stream) = 2 ^ 38
  /\ exists ts chans,
       read_timestamps long_stream true = Some (ts, chans)
       /\ ~ Sorted Z.le ts.
Proof.
  split.
  { unfold long_stream; rewrite length_wrapping_stream.
    rewrite Nat2Z.inj_mul, N_nat_Z; reflexivity. }
  assert (Hn : exists n, N.to_nat (2 ^ 35) = S n /\ Z.of_nat n = 2 ^ 35 - 1).
  { exists (Nat.pred (N.to_nat (2 ^ 35))).
    assert (H : Z.of_nat (N.to_nat (2 ^ 35)) = 2 ^ 35)
      by (rewrite N_nat_Z; reflexivity).
    split; lia. }
  destruct Hn as [n [Hn1 Hn2]].
  unfold long_stream; rewrite Hn1.
  rewrite read_timestamps_wrapping by lia.
  destruct (wrap64_last_pair n Hn2) as [-> ->].
  eexists _, _; split; [reflexivity|].
  intros H; apply Sorted_last_two in H; lia.
Qed.

(** C3, amended.  For a stream of at most 2^37 bytes (a size for which the
    tick counts and their doubles fit the [int64] array) [read_timestamps]
    returns, and the timestamps it returns never decrease: every raw counter
    value fits in 27 bits, so that after the rollover correction each
    timestamp is at least the one before it. *)
Theorem read_timestamps_non_decreasing (binary_stream : list byte) (legacy : bool) :
  stream_size_ok binary_stream ->
  exists ws ts chans,
    ts_word_list binary_stream = Some ws
    /\ Forall (fun w => 0 <= raw_counter w < 2 ^ 27) ws
    /\ read_timestamps binary_stream legacy = Some (ts, chans)
    /\ Sorted Z.le ts.
Proof.
  intros Hsize.
  pose proof (stream_words_range binary_stream) as Hrange.
  eexists _, _, _; split; [apply ts_word_list_eq|].
  split; [eapply Forall_impl; [|exact Hrange]; intros w; apply raw_counter_range|].
  split; [apply (read_timestamps_sized _ _ Hsize)|].
  apply StronglySorted_Sorted.
  rewrite <- (map_map fst (fun x => 2 * x)).
  apply StronglySorted_double.
  apply (decode_sorted _ 0 (-1) Hrange); lia.
Qed.

Lemma read_timestamps_non_decreasing_witness :
  stream_size_ok [x41; x01; x00; x00; x71; x00; x00; x00; xa1; x00; x00; x00]
  /\ exists ws ts chans,
       ts_word_list [x41; x01; x00; x00; x71; x00; x00; x00; xa1; x00; x00; x00]
       = Some ws
       /\ Forall (fun w => 0 <= raw_counter w < 2 ^ 27) ws
       /\ read_timestamps
            [x41; x01; x00; x00; x71; x00; x00; x00; xa1; x00; x00; x00] true
          = Some (ts, chans)
       /\ Sorted Z.le ts.
Proof.
  split.
  - vm_compute; discriminate.
  - apply (read_timestamps_non_decreasing
             [x41; x01; x00; x00; x71; x00; x00; x00; xa1; x00; x00; x00] true).
    vm_compute; discriminate.
Defined.

(** C10.  The two lists returned by [read_timestamps] have the same length,
    with one timestamp and one channel entry per valid word, for every stream
    and every call that returns: the i-th channel entry is the rendering of
    the pattern of the i-th valid word, in the legacy (bit string) and in the
    integer mode alike, and the i-th timestamp is the raw counter value of
    that same word plus a whole number of periods, times 2, as a signed
    64-bit integer.  The call returns for every stream of at most 2^37
    bytes, and the product by 2 does not wrap there; it does not return for
    every stream ([read_timestamps_overflow]). *)
Theorem read_timestamps_paired (binary_stream : list byte) (legacy : bool) :
  exists ws,
    ts_word_list binary_stream = Some ws
    /\ (forall ts chans,
          read_timestamps binary_stream legacy = Some (ts, chans) ->
          length ts = length chans
          /\ length ts = length (filter flag_clear ws)
          /\ chans = map (fun w => render legacy (channel_pattern w))
                         (filter flag_clear ws)
          /\ Forall2 (fun t w =>
                        exists k, 0 <= k
                                  /\ t = wrap64 ((raw_counter w + 2 ^ 27 * k) * 2))
                     ts (filter flag_clear ws))
    /\ (stream_size_ok binary_stream ->
        exists ts chans,
          read_timestamps binary_stream legacy = Some (ts, chans)
          /\ Forall2 (fun t w =>
                        exists k, 0 <= k /\ t = (raw_counter w + 2 ^ 27 * k) * 2)
                     ts (filter flag_clear ws)).
Proof.
  exists (stream_words binary_stream).
  split; [apply ts_word_list_eq|].
  set (D := decode 0 (-1) (stream_words binary_stream)).
  assert (HD : map snd D = filter flag_clear (stream_words binary_stream))
    by apply decode_words.
  split.
  - intros ts chans H.
    unfold read_timestamps in H.
    rewrite ts_word_list_eq in H; cbn [bind] in H.
    rewrite run_loop_decode in H.
    cbn [ts_list event_channel_list periode_count prev_ts loop_init app] in H.
    fold D in H.
    destruct (np_array_int64 (ticks_of D)) as [arr|] eqn:E; [|discriminate H].
    apply np_array_int64_inv in E; subst arr.
    cbn [bind] in H; injection H as <- <-.
    unfold np_mul_int64, ticks_of, channels_of; rewrite <- HD.
    repeat split.
    + now rewrite !length_map.
    + now rewrite !length_map.
    + now rewrite map_map.
    + rewrite map_map; apply Forall2_map_both.
      eapply Forall_impl; [|apply (decode_entries _ 0 (-1)); lia].
      intros e [k [Hk He]]; exists k; split; [exact Hk|now rewrite He].
  - intros Hsize.
    eexists _, _; split; [apply (read_timestamps_sized _ _ Hsize)|].
    fold D; rewrite <- HD.
    apply Forall2_map_both.
    eapply Forall_impl; [|apply (decode_entries _ 0 (-1)); lia].
    intros e [k [Hk He]]; exists k; split; [exact Hk|lia].
Qed.

Lemma read_timestamps_paired_witness :
  exists ts chans,
    read_timestamps [x41; x01; x00; x00; x71; x00; x00; x00; xa1; x00; x00; x00] false
    = Some (ts, chans)
    /\ length ts = length chans
    /\ chans = [ChInt 1; ChInt 1].
Proof.
  destruct (read_timestamps_paired
              [x41; x01; x00; x00; x71; x00; x00; x00; xa1; x00; x00; x00] false)
    as [ws [Hws [Hall Hsized]]].
  destruct Hsized as [ts [chans [H _]]]; [vm_compute; discriminate|].
  exists ts, chans; split; [exact H|].
  destruct (Hall ts chans H) as [Hlen [_ [Hch _]]].
  split; [exact Hlen|].
  injection Hws as <-; exact Hch.
Defined.

(** C5.  For a stream whose length is a multiple of the 4-byte word size, the
    word extraction of [read_timestamps] (reverse the bytes, cut the
    hexadecimal text into groups of eight digits, reverse the groups) gives
    the consecutive 4-byte groups of the stream in stream order, each read as
    a little-endian unsigned 32-bit integer. *)
Theorem ts_word_list_little_endian (binary_stream : list byte) :
  (length binary_stream mod 4 = 0)%nat ->
  ts_word_list binary_stream = Some (le_words binary_stream).
Proof.
  intros H.
  rewrite ts_word_list_eq; f_equal.
  apply (stream_words_aligned (length binary_stream / 4)).
  nat_divmod (length binary_stream) 4%nat; lia.
Qed.

Lemma ts_word_list_little_endian_witness :
  ts_word_list [x41; x01; x00; x00; x78; x56; x34; x12]
  = Some (le_words [x41; x01; x00; x00; x78; x56; x34; x12]).
Proof.
  apply (ts_word_list_little_endian [x41; x01; x00; x00; x78; x56; x34; x12]).
  reflexivity.
Defined.

(** C7, as stated, fails: the one-byte stream [b"a"] has no whole word, yet
    its byte is decoded as a word of its own. *)
Lemma partial_word_not_dropped :
  (length [x61] mod 4 <> 0)%nat
  /\ read_timestamps [x61] true = Some ([6], [ChStr (list_ascii_of_string "0001")])
  /\ read_timestamps (aligned_prefix [x61]) true = Some ([], [])
  /\ read_timestamps [x61] true <> read_timestamps (aligned_prefix [x61]) true.
Proof.
  repeat split; try (vm_compute; reflexivity); vm_compute; discriminate.
Qed.

(** C7, amended.  For a stream whose length is not a multiple of the word
    size nothing is dropped: the words are cut from the end of the stream, so
    that the leading [length mod 4] bytes are one short little-endian word,
    decoded first, and the 4-byte words of the remaining bytes follow; the
    output is the output on the stream whose leading partial word is extended
    by zero bytes to a whole word. *)
Theorem read_timestamps_partial_word (binary_stream : list byte) (legacy : bool) :
  (length binary_stream mod 4 <> 0)%nat ->
  ts_word_list binary_stream
  = Some (le_val (firstn (length binary_stream mod 4) binary_stream)
          :: le_words (skipn (length binary_stream mod 4) binary_stream))
  /\ read_timestamps binary_stream legacy
     = read_timestamps (zero_extend_head binary_stream) legacy.
Proof.
  intros H; split.
  - rewrite ts_word_list_eq; f_equal.
    apply stream_words_partial; exact H.
  - unfold read_timestamps.
    now rewrite !ts_word_list_eq, stream_words_zero_extend.
Qed.

Lemma read_timestamps_partial_word_witness :
  ts_word_list [x61; x41; x01; x00; x00]
  = Some (le_val (firstn (length [x61; x41; x01; x00; x00] mod 4)
                         [x61; x41; x01; x00; x00])
          :: le_words (skipn (length [x61; x41; x01; x00; x00] mod 4)
                             [x61; x41; x01; x00; x00]))
  /\ read_timestamps [x61; x41; x01; x00; x00] true
     = read_timestamps (zero_extend_head [x61; x41; x01; x00; x00]) true.
Proof.
  apply (read_timestamps_partial_word [x61; x41; x01; x00; x00] true).
  vm_compute; discriminate.
Defined.

(** C2, as stated, fails: in the stream of the words with raw values 10 and 5
    the second word already wraps; a word with raw value 3 inserted between
    them takes the wrap over, and the timestamp of the last word stays as it
    was. *)
Lemma insertion_without_shift :
  raw_of [x61; x00; x00; x00] < raw_of [x41; x01; x00; x00]
  /\ ~ insertion_shifts true [] [x41; x01; x00; x00] [x61; x00; x00; x00]
                          [xa1; x00; x00; x00].
Proof.
  split; [vm_compute; reflexivity|].
  intros [th [ch [tw [cw [tt [ct [H1 [H2 [H3 H4]]]]]]]]].
  assert (E1 : read_timestamps ([] ++ [x41; x01; x00; x00]) true
               = Some ([20], [ChStr (list_ascii_of_string "0001")]))
    by (vm_compute; reflexivity).
  assert (E2 : read_timestamps ([] ++ [x41; x01; x00; x00] ++ [xa1; x00; x00; x00]) true
               = Some ([20; 268435466],
                       [ChStr (list_ascii_of_string "0001");
                        ChStr (list_ascii_of_string "0001")]))
    by (vm_compute; reflexivity).
  assert (E3 : read_timestamps ([] ++ [x41; x01; x00; x00] ++ [x61; x00; x00; x00]) true
               = Some ([20; 268435462],
                       [ChStr (list_ascii_of_string "0001");
                        ChStr (list_ascii_of_string "0001")]))
    by (vm_compute; reflexivity).
  assert (E4 : read_timestamps ([] ++ [x41; x01; x00; x00] ++ [x61; x00; x00; x00]
                                   ++ [xa1; x00; x00; x00]) true
               = Some ([20; 268435462; 268435466],
                       [ChStr (list_ascii_of_string "0001");
                        ChStr (list_ascii_of_string "0001");
                        ChStr (list_ascii_of_string "0001")]))
    by (vm_compute; reflexivity).
  rewrite E1 in H1; injection H1 as <- <-.
  rewrite E2 in H2; cbn [app] in H2; injection H2 as <- _.
  rewrite E3 in H3; cbn [app] in H3; injection H3 as <- _.
  rewrite E4 in H4; cbn [app map] in H4; injection H4 as H4 _.
  vm_compute in H4; discriminate.
Qed.

(** C2, amended.  In a stream of at most 2^37 bytes, a rollover word [w] (raw
    value strictly below that of the word [p] before it) inserted after [p]
    adds exactly 2^27 * 2 to the timestamp of every later valid word,
    relative to decoding without [w], provided the word that followed [p], if
    there is one, compares with [w] as it compared with [p]: its raw value is
    not both at least that of [w] and below that of [p]. *)
Theorem insertion_shifts_later_words (legacy : bool) (a p w c : list byte) :
  length p = 4%nat -> length w = 4%nat -> (length c mod 4 = 0)%nat ->
  stream_size_ok (a ++ p ++ w ++ c) ->
  raw_of w < raw_of p ->
  c = [] \/ raw_of (firstn 4 c) < raw_of w \/ raw_of p <= raw_of (firstn 4 c) ->
  insertion_shifts legacy a p w c.
Proof.
  intros Hp Hw Hc Hsize Hlt Hnext.
  assert (Hck : exists k, length c = (k * 4)%nat)
    by (exists (length c / 4)%nat; nat_divmod (length c) 4%nat; lia).
  destruct Hck as [k Hck].
  set (wa := stream_words a ++ [le_val p]).
  set (D0 := decode 0 (-1) wa).
  set (c1 := count_after 0 (-1) wa).
  set (T := decode c1 (raw_of p) (le_words c)).
  set (DW := decode c1 (raw_of p) [le_val w]).
  pose proof (raw_counter_range _ (le_val_range p ltac:(lia))) as Rp.
  pose proof (raw_counter_range _ (le_val_range w ltac:(lia))) as Rw.
  fold (raw_of p) in Rp; fold (raw_of w) in Rw.
  assert (W1 : stream_words (a ++ p) = wa) by (apply stream_words_snoc1; exact Hp).
  assert (W2 : stream_words (a ++ p ++ c) = wa ++ le_words c)
    by (apply (stream_words_snoc k); assumption).
  assert (W3 : stream_words (a ++ p ++ w) = wa ++ [le_val w]).
  { rewrite (stream_words_snoc 1) by assumption.
    now rewrite (le_words_single w Hw). }
  assert (W4 : stream_words (a ++ p ++ w ++ c) = (wa ++ [le_val w]) ++ le_words c).
  { rewrite (stream_words_snoc (S k)) by (rewrite ?length_app; lia).
    rewrite (le_words_app 1) by lia.
    now rewrite (le_words_single w Hw), app_assoc. }
  assert (Pwa : prev_after (-1) wa = raw_of p) by apply prev_after_snoc.
  assert (Dtail : decode (count_after c1 (raw_of p) [le_val w])
                         (prev_after (raw_of p) [le_val w]) (le_words c)
                  = map (fun e => (fst e + 2 ^ 27 * 1, snd e)) T).
  { cbn [count_after prev_after]; fold (raw_of w).
    replace (next_count c1 (raw_of p) (le_val w)) with (c1 + 1).
    2:{ destruct (next_count_cases c1 (raw_of p) (le_val w)) as [[-> H]|[-> _]];
        [fold (raw_of w) in H; lia|reflexivity]. }
    rewrite decode_shift; f_equal.
    apply decode_first_compare; try lia.
    destruct Hnext as [->|Hnext]; [exact I|].
    destruct c as [|b c']; [exact I|].
    rewrite le_words_cons by (cbn [length] in *; destruct k; lia).
    fold (raw_of (firstn 4 (b :: c'))).
    destruct (Z.ltb_spec (raw_of (firstn 4 (b :: c'))) (raw_of w)),
             (Z.ltb_spec (raw_of (firstn 4 (b :: c'))) (raw_of p)); lia. }
  exists (map (fun e => 2 * fst e) D0), (channels_of legacy D0),
         (map (fun e => 2 * fst e) DW), (channels_of legacy DW),
         (map (fun e => 2 * fst e) T), (channels_of legacy T).
  repeat split.
  - rewrite read_timestamps_sized, W1; [reflexivity|].
    eapply stream_size_ok_le; [|exact Hsize]; rewrite !length_app; lia.
  - rewrite read_timestamps_sized, W2.
    + rewrite decode_app, Pwa.
      unfold channels_of; now rewrite !map_app.
    + eapply stream_size_ok_le; [|exact Hsize]; rewrite !length_app; lia.
  - rewrite read_timestamps_sized, W3.
    + rewrite decode_app, Pwa.
      unfold channels_of; now rewrite !map_app.
    + eapply stream_size_ok_le; [|exact Hsize]; rewrite !length_app; lia.
  - rewrite read_timestamps_sized, W4 by exact Hsize.
    rewrite decode_app, decode_app, prev_after_app, count_after_app, Pwa.
    fold c1 D0 DW; rewrite Dtail.
    rewrite <- !app_assoc.
    unfold channels_of; rewrite !map_app, !map_map; cbn [fst snd].
    do 4 f_equal.
    apply map_ext; intros e; lia.
Qed.

Lemma insertion_shifts_later_words_witness :
  insertion_shifts false [x00; x00; x00; x00] [x41; x01; x00; x00]
                   [x61; x00; x00; x00] [x81; x01; x00; x00; x11; x00; x00; x00].
Proof.
  apply (insertion_shifts_later_words
           false [x00; x00; x00; x00] [x41; x01; x00; x00]
           [x61; x00; x00; x00] [x81; x01; x00; x00; x11; x00; x00; x00]).
  - reflexivity.
  - reflexivity.
  - reflexivity.
  - vm_compute; discriminate.
  - vm_compute; reflexivity.
  - right; right; vm_compute; discriminate.
Defined.

(** C4.  A word whose flag bit (bit 4 of the trailer) is set adds no entry to
    either list, but the loop goes on from its raw counter value as the
    previous value, and with the rollover count incremented when that value
    is below the one before it.  So such a word can trigger a rollover
    increment for the words after it (second part: the word with raw value 12
    after 10 gets one period more once the flagged word with raw value 3
    stands between them), and it can suppress the increment of the next word
    (third part: the word with raw value 5 increments the count after 10, and
    does not after the flagged word with raw value 3). *)
Theorem flagged_word_tracking :
  (forall (legacy : bool) (a w c : list byte),
      length w = 4%nat -> (length c mod 4 = 0)%nat ->
      flag_clear (le_val w) = false ->
      exists wa wc,
        ts_word_list a = Some wa /\ ts_word_list c = Some wc
        /\ ts_word_list (a ++ w ++ c) = Some (wa ++ le_val w :: wc)
        /\ let st := run_loop legacy wa loop_init in
           let st' :=
             {| ts_list := ts_list st;
                event_channel_list := event_channel_list st;
                periode_count :=
                  if negb (prev_ts st =? -1) && (raw_of w <? prev_ts st)
                  then periode_count st + 1 else periode_count st;
                prev_ts := raw_of w |} in
           run_loop legacy (wa ++ [le_val w]) loop_init = st'
           /\ run_loop legacy (wa ++ le_val w :: wc) loop_init
              = run_loop legacy wc st'
           /\ read_timestamps (a ++ w ++ c) legacy
              = (arr <- np_array_int64 (ts_list (run_loop legacy wc st')) ;;
                 Some (np_mul_int64 arr 2,
                       event_channel_list (run_loop legacy wc st'))))
  /\ (flag_clear (le_val [x71; x00; x00; x00]) = false
      /\ read_timestamps ([x41; x01; x00; x00] ++ [x81; x01; x00; x00]) false
         = Some ([20; 24], [ChInt 1; ChInt 1])
      /\ read_timestamps ([x41; x01; x00; x00] ++ [x71; x00; x00; x00]
                          ++ [x81; x01; x00; x00]) false
         = Some ([20; 24 + 2 ^ 27 * 2], [ChInt 1; ChInt 1]))
  /\ (forall legacy : bool,
         flag_clear 113 = false
         /\ periode_count (run_loop legacy [321; 161] loop_init)
            = periode_count (run_loop legacy [321] loop_init) + 1
         /\ periode_count (run_loop legacy [321; 113; 161] loop_init)
            = periode_count (run_loop legacy [321; 113] loop_init)).
Proof.
  split; [|split].
  - intros legacy a w c Hw Hc Hflag.
    assert (Hck : exists k, length c = (k * 4)%nat)
      by (exists (length c / 4)%nat; nat_divmod (length c) 4%nat; lia).
    destruct Hck as [k Hck].
    assert (Hwords : ts_word_list (a ++ w ++ c)
                     = Some (stream_words a ++ le_val w :: le_words c)).
    { rewrite ts_word_list_eq, (stream_words_snoc k) by assumption.
      now rewrite <- app_assoc. }
    assert (Hstep : loop_body legacy (run_loop legacy (stream_words a) loop_init)
                              (le_val w)
                    = {| ts_list := ts_list (run_loop legacy (stream_words a) loop_init);
                         event_channel_list :=
                           event_channel_list
                             (run_loop legacy (stream_words a) loop_init);
                         periode_count :=
                           if negb (prev_ts (run_loop legacy (stream_words a) loop_init)
                                    =? -1)
                              && (raw_of w
                                  <? prev_ts (run_loop legacy (stream_words a) loop_init))
                           then periode_count
                                  (run_loop legacy (stream_words a) loop_init) + 1
                           else periode_count
                                  (run_loop legacy (stream_words a) loop_init);
                         prev_ts := raw_of w |}).
    { unfold loop_body.
      change (Z.land (Z.land (le_val w) 31) 16 =? 0) with (flag_clear (le_val w)).
      now rewrite Hflag. }
    exists (stream_words a), (le_words c).
    split; [apply ts_word_list_eq|].
    split; [rewrite ts_word_list_eq, (stream_words_aligned k) by assumption;
            reflexivity|].
    split; [exact Hwords|].
    cbv zeta.
    rewrite <- Hstep.
    split; [|split].
    + unfold run_loop; now rewrite fold_left_app.
    + unfold run_loop; now rewrite fold_left_app.
    + unfold read_timestamps; rewrite Hwords; cbn [bind].
      unfold run_loop; now rewrite fold_left_app.
  - repeat split; vm_compute; reflexivity.
  - intros legacy; repeat split; destruct legacy; vm_compute; reflexivity.
Qed.

Lemma flagged_word_tracking_witness :
  exists wa wc,
    ts_word_list [x41; x01; x00; x00] = Some wa
    /\ ts_word_list [xa1; x00; x00; x00] = Some wc
    /\ ts_word_list ([x41; x01; x00; x00] ++ [x71; x00; x00; x00]
                     ++ [xa1; x00; x00; x00])
       = Some (wa ++ le_val [x71; x00; x00; x00] :: wc)
    /\ let st := run_loop true wa loop_init in
       let st' :=
         {| ts_list := ts_list st;
            event_channel_list := event_channel_list st;
            periode_count :=
              if negb (prev_ts st =? -1)
                 && (raw_of [x71; x00; x00; x00] <? prev_ts st)
              then periode_count st + 1 else periode_count st;
            prev_ts := raw_of [x71; x00; x00; x00] |} in
       run_loop true (wa ++ [le_val [x71; x00; x00; x00]]) loop_init = st'
       /\ run_loop true (wa ++ le_val [x71; x00; x00; x00] :: wc) loop_init
          = run_loop true wc st'
       /\ read_timestamps ([x41; x01; x00; x00] ++ [x71; x00; x00; x00]
                           ++ [xa1; x00; x00; x00]) true
          = (arr <- np_array_int64 (ts_list (run_loop true wc st')) ;;
             Some (np_mul_int64 arr 2, event_channel_list (run_loop true wc st'))).
Proof.
  apply (proj1 flagged_word_tracking true [x41; x01; x00; x00]
               [x71; x00; x00; x00] [xa1; x00; x00; x00]);
    reflexivity.
Defined.

(** C6, as stated, fails: the ticks 0 and 2^28 are even, split into a
    rollover index and a 27-bit value, and do not decrease, yet both are
    encoded with the raw value 0 and are decoded as 0. *)
Lemma round_trip_loses_period :
  Forall well_formed_pair [(0, 1); (268435456, 2)]
  /\ non_decreasing (map fst [(0, 1); (268435456, 2)])
  /\ read_timestamps (encode_pairs [(0, 1); (268435456, 2)]) false
     = Some ([0; 0], [ChInt 1; ChInt 2])
  /\ ~ round_trips false [(0, 1); (268435456, 2)].
Proof.
  split; [|split; [|split]].
  - repeat constructor; cbn [fst snd]; try lia; try reflexivity.
    + exists 0, 0; repeat split; try lia; reflexivity.
    + exists 1, 0; repeat split; try lia; reflexivity.
  - cbn; lia.
  - vm_compute; reflexivity.
  - unfold round_trips; intros H.
    vm_compute in H; discriminate.
Qed.

(** C6, amended.  Round trip: for every finite sequence of (tick, pattern)
    pairs with ticks even, non-negative and below 2^63, non-decreasing, the
    first tick below 2^28 and every tick less than 2^28 (one rollover period)
    after the one before it, and patterns of four bits, encoding the pairs
    into the word layout and applying [read_timestamps] gives the original
    pairs back, in either rendering of the patterns. *)
Theorem round_trip_within_period (legacy : bool) (pairs : list (Z * Z)) :
  Forall well_formed_pair pairs ->
  Forall (fun p => fst p < 2 ^ 63) pairs ->
  gaps_below 0 (map fst pairs) ->
  round_trips legacy pairs.
Proof.
  intros Hwf Hbound Hgaps; unfold round_trips.
  assert (Hd : decode 0 (-1) (stream_words (encode_pairs pairs))
               = map (fun p => (fst p / 2, pair_word p)) pairs).
  { rewrite stream_words_encode by exact Hwf.
    apply (decode_pairs pairs 0 (-1) 0 Hwf Hgaps); [lia|reflexivity|].
    left; repeat split. }
  rewrite read_timestamps_decode; rewrite Hd.
  - unfold channels_of; rewrite !map_map; cbn [fst snd].
    do 2 f_equal; apply map_ext_in; intros p Hp;
      rewrite Forall_forall in Hwf; specialize (Hwf p Hp).
    + destruct Hwf as [_ [Heven _]].
      pose proof (Z.div_mod (fst p) 2 ltac:(lia)); lia.
    + f_equal; apply pair_word_fields; exact Hwf.
  - apply Forall_map, Forall_forall; intros p Hp; cbn [fst].
    rewrite Forall_forall in Hwf, Hbound.
    specialize (Hwf p Hp); specialize (Hbound p Hp).
    destruct Hwf as [Hpos _].
    pose proof (Z.div_mod (fst p) 2 ltac:(lia)).
    pose proof (Z.mod_pos_bound (fst p) 2 ltac:(lia)).
    lia.
Qed.

Lemma round_trip_within_period_witness :
  round_trips true [(10, 1); (268435456, 2); (268435460, 15); (536870914, 3)].
Proof.
  apply (round_trip_within_period
           true [(10, 1); (268435456, 2); (268435460, 15); (536870914, 3)]).
  - repeat constructor; cbn [fst snd]; try lia; try reflexivity.
    + exists 0, 5; repeat split; try lia; reflexivity.
    + exists 1, 0; repeat split; try lia; reflexivity.
    + exists 1, 2; repeat split; try lia; reflexivity.
    + exists 2, 1; repeat split; try lia; reflexivity.
  - repeat constructor; cbn [fst]; lia.
  - cbn [map fst gaps_below]; lia.
Defined.

(* ------------------------------------------------------------------------ *)
(** ** Properties of the channel cleaner *)

(** C8.  For a sequence of 4-character bit strings, [channel_cleaner] returns
    for every pattern the names of its active channels among CH4, CH3, CH2,
    CH1, in that order, and the totals (channel 1, 2, 3, 4) in which every
    count is the number of patterns whose bit of that channel is '1'; the
    pattern "0110" adds the entry ["CH3"; "CH2"] and increments the counts of
    the channels 2 and 3 only. *)
Theorem channel_cleaner_patterns (cha_info : list (list ascii)) :
  Forall is_bit_pattern cha_info ->
  channel_cleaner cha_info
  = Some (map active_channels cha_info,
          (count_active 3 cha_info, count_active 2 cha_info,
           count_active 1 cha_info, count_active 0 cha_info))
  /\ (forall st,
         cleaner_body st (list_ascii_of_string "0110")
         = Some {| cha_clean := cha_clean st ++ [["CH3"%string; "CH2"%string]];
                   counts_1 := counts_1 st;
                   counts_2 := counts_2 st + 1;
                   counts_3 := counts_3 st + 1;
                   counts_4 := counts_4 st |}).
Proof.
  intros H; split.
  - unfold channel_cleaner.
    rewrite cleaner_loop_patterns
      by (eapply Forall_impl; [|exact H]; intros s Hs; apply Hs).
    reflexivity.
  - intros st; reflexivity.
Qed.

Lemma channel_cleaner_patterns_witness :
  channel_cleaner [list_ascii_of_string "0110"; list_ascii_of_string "1001";
                   list_ascii_of_string "0100"]
  = Some (map active_channels
              [list_ascii_of_string "0110"; list_ascii_of_string "1001";
               list_ascii_of_string "0100"],
          (count_active 3 [list_ascii_of_string "0110"; list_ascii_of_string "1001";
                           list_ascii_of_string "0100"],
           count_active 2 [list_ascii_of_string "0110"; list_ascii_of_string "1001";
                           list_ascii_of_string "0100"],
           count_active 1 [list_ascii_of_string "0110"; list_ascii_of_string "1001";
                           list_ascii_of_string "0100"],
           count_active 0 [list_ascii_of_string "0110"; list_ascii_of_string "1001";
                           list_ascii_of_string "0100"]))
  /\ (forall st,
         cleaner_body st (list_ascii_of_string "0110")
         = Some {| cha_clean := cha_clean st ++ [["CH3"%string; "CH2"%string]];
                   counts_1 := counts_1 st;
                   counts_2 := counts_2 st + 1;
                   counts_3 := counts_3 st + 1;
                   counts_4 := counts_4 st |}).
Proof.
  apply (channel_cleaner_patterns
           [list_ascii_of_string "0110"; list_ascii_of_string "1001";
            list_ascii_of_string "0100"]).
  repeat (apply Forall_cons;
          [split;
           [reflexivity
           |repeat (apply Forall_cons; [first [left; reflexivity|right; reflexivity]|]);
            apply Forall_nil]
          |]).
  apply Forall_nil.
Defined.

(* ------------------------------------------------------------------------ *)
(** ** Binary64 arithmetic: rounding to nearest *)

(** The iteration of the shifts, counted in [nat]. *)
Lemma iter_pos_nat {A : Type} (f : A -> A) (p : positive) (x : A) :
  iter_pos f p x = Nat.iter (Pos.to_nat p) f x.
Proof.
  revert x; induction p as [p IH|p IH|]; intros x; cbn [iter_pos].
  - rewrite !IH, Pos2Nat.inj_xI.
    replace (S (2 * Pos.to_nat p)) with (Pos.to_nat p + (Pos.to_nat p + 1))%nat by lia.
    rewrite !Nat.iter_add; reflexivity.
  - rewrite !IH, Pos2Nat.inj_xO.
    replace (2 * Pos.to_nat p)%nat with (Pos.to_nat p + Pos.to_nat p)%nat by lia.
    rewrite Nat.iter_add; reflexivity.
  - reflexivity.
Qed.

(** One shift of a nonnegative mantissa: the half, the bit that is lost,
    and whether anything was lost before. *)
Lemma shr_1_spec (m : Z) (r s : bool) :
  0 <= m ->
  shr_1 {| shr_m := m; shr_r := r; shr_s := s |}
  = {| shr_m := m / 2; shr_r := Z.odd m; shr_s := r || s |}.
Proof.
  intros Hm; rewrite <- Z.div2_div.
  destruct m as [|[p|p|]|p]; try reflexivity; lia.
Qed.

(** [k] shifts of an exact nonnegative integer: the quotient by 2^k, whether
    the remainder is at least one half, and whether it is neither 0 nor one
    half. *)
Lemma shr_iter (M : Z) (k : nat) :
  0 <= M ->
  Nat.iter k shr_1 {| shr_m := M; shr_r := false; shr_s := false |}
  = {| shr_m := M / 2 ^ Z.of_nat k;
       shr_r := 2 ^ Z.of_nat k <=? 2 * (M mod 2 ^ Z.of_nat k);
       shr_s := negb (M mod 2 ^ Z.of_nat k =? 0)
                && negb (2 * (M mod 2 ^ Z.of_nat k) =? 2 ^ Z.of_nat k) |}.
Proof.
  intros HM; induction k as [|k IH].
  - change (Z.of_nat 0) with 0; rewrite Z.pow_0_r, Z.div_1_r, Z.mod_1_r; reflexivity.
  - rewrite Nat.iter_succ, IH; clear IH.
    rewrite shr_1_spec by (apply Z.div_pos; lia).
    rewrite Nat2Z.inj_succ, Z.pow_succ_r by lia.
    set (P := 2 ^ Z.of_nat k) in *.
    assert (HP : 0 < P) by (subst P; lia).
    assert (Hq : M / (2 * P) = M / P / 2)
      by (rewrite (Z.mul_comm 2 P), Z.div_div by lia; reflexivity).
    pose proof (Z.div_mod M P ltac:(lia)) as E1.
    pose proof (Z.mod_pos_bound M P HP) as B1.
    pose proof (Z.div_mod (M / P) 2 ltac:(lia)) as E2.
    pose proof (Z.mod_pos_bound (M / P) 2 ltac:(lia)) as B2.
    assert (Hr : M mod (2 * P) = (M / P mod 2) * P + M mod P).
    { symmetry; apply (Z.mod_unique _ _ (M / P / 2)); [left; nia|nia]. }
    rewrite Hq, Hr, Zodd_mod.
    set (b := M / P mod 2) in *; set (rem := M mod P) in *.
    clearbody b rem; clear E1 E2 Hq Hr.
    assert (Hb : b = 0 \/ b = 1) by lia.
    f_equal.
    + destruct Hb as [-> | ->]; cbn [Z.eqb Pos.eqb]; symmetry;
        [apply Z.leb_gt|apply Z.leb_le]; lia.
    + destruct Hb as [-> | ->];
        destruct (Z.leb_spec P (2 * rem));
        destruct (Z.eqb_spec rem 0);
        destruct (Z.eqb_spec (2 * rem) P);
        match goal with
        | |- context [?x * P + rem =? 0] => destruct (Z.eqb_spec (x * P + rem) 0)
        end;
        match goal with
        | |- context [2 * (?x * P + rem) =? 2 * P] =>
            destruct (Z.eqb_spec (2 * (x * P + rem)) (2 * P))
        end;
        cbn [negb andb orb]; try reflexivity; exfalso; lia.
Qed.

(** The same for the shift by a nonnegative [n] of [shr]. *)
Lemma shr_nonneg (M e n : Z) :
  0 <= M -> 0 <= n ->
  shr {| shr_m := M; shr_r := false; shr_s := false |} e n
  = ({| shr_m := M / 2 ^ n;
        shr_r := 2 ^ n <=? 2 * (M mod 2 ^ n);
        shr_s := negb (M mod 2 ^ n =? 0) && negb (2 * (M mod 2 ^ n) =? 2 ^ n) |},
     e + n).
Proof.
  intros HM Hn; unfold shr.
  destruct n as [|p|p]; [| |lia].
  - rewrite Z.pow_0_r, Z.div_1_r, Z.mod_1_r, Z.add_0_r; reflexivity.
  - rewrite iter_pos_nat, shr_iter by exact HM.
    now rewrite positive_nat_Z.
Qed.

(** Rounding to nearest after [n] shifts: the result is the quotient or the
    next integer, at most one half away from the exact quotient. *)
Lemma round_shifted (M n : Z) :
  0 <= M -> 0 <= n ->
  let mrs := {| shr_m := M / 2 ^ n;
                shr_r := 2 ^ n <=? 2 * (M mod 2 ^ n);
                shr_s := negb (M mod 2 ^ n =? 0)
                         && negb (2 * (M mod 2 ^ n) =? 2 ^ n) |} in
  let R := round_nearest_even (shr_m mrs) (loc_of_shr_record mrs) in
  M / 2 ^ n <= R <= M / 2 ^ n + 1
  /\ 2 * Z.abs (R * 2 ^ n - M) <= 2 ^ n.
Proof.
  intros HM Hn; cbv zeta; cbn [shr_m].
  set (P := 2 ^ n).
  assert (HP : 0 < P) by (subst P; apply Z.pow_pos_nonneg; lia).
  pose proof (Z.div_mod M P ltac:(lia)) as E.
  pose proof (Z.mod_pos_bound M P HP) as B.
  set (q := M / P) in *; set (rem := M mod P) in *; clearbody q rem.
  unfold loc_of_shr_record, round_nearest_even.
  destruct (Z.leb_spec P (2 * rem));
    destruct (Z.eqb_spec rem 0);
    destruct (Z.eqb_spec (2 * rem) P);
    cbn [negb andb]; try destruct (Z.even q); repeat split; lia.
Qed.

(** The number of binary digits of a positive integer. *)
Lemma digits2_pos_bounds (p : positive) :
  2 ^ (Zpos (digits2_pos p) - 1) <= Zpos p < 2 ^ Zpos (digits2_pos p).
Proof.
  induction p as [p IH|p IH|]; cbn [digits2_pos]; [| |vm_compute; intuition discriminate].
  - rewrite Pos2Z.inj_succ.
    replace (Z.succ (Zpos (digits2_pos p)) - 1) with (Z.succ (Zpos (digits2_pos p) - 1)) by lia.
    rewrite !Z.pow_succ_r by lia. lia.
  - rewrite Pos2Z.inj_succ.
    replace (Z.succ (Zpos (digits2_pos p)) - 1) with (Z.succ (Zpos (digits2_pos p) - 1)) by lia.
    rewrite !Z.pow_succ_r by lia. lia.
Qed.

Lemma digits2_unique (p : positive) (d : Z) :
  2 ^ (d - 1) <= Zpos p < 2 ^ d -> Zpos (digits2_pos p) = d.
Proof.
  intros H; pose proof (digits2_pos_bounds p) as B.
  set (d' := Zpos (digits2_pos p)) in *.
  assert (0 < d') by (subst d'; lia).
  assert (0 < d).
  { destruct (Z.ltb_spec 0 d) as [|Hd]; [assumption|exfalso].
    destruct (Z.eq_dec d 0) as [->|Hne]; [simpl in H; lia|].
    rewrite (Z.pow_neg_r 2 d) in H by lia; lia. }
  destruct (Z.lt_trichotomy d d') as [Hlt|[Heq|Hgt]]; [|exact (eq_sym Heq)|]; exfalso.
  - assert (2 ^ d <= 2 ^ (d' - 1)) by (apply Z.pow_le_mono_r; lia). lia.
  - assert (2 ^ d' <= 2 ^ (d - 1)) by (apply Z.pow_le_mono_r; lia). lia.
Qed.

(** The shift to a mantissa of 53 bits, in the range of the normal
    numbers. *)
Lemma shr_fexp_exact (M e d : Z) :
  0 < M -> Zdigits2 M = d -> -1074 <= d + e - 53 -> 53 <= d ->
  shr_fexp 53 1024 M e loc_Exact
  = ({| shr_m := M / 2 ^ (d - 53);
        shr_r := 2 ^ (d - 53) <=? 2 * (M mod 2 ^ (d - 53));
        shr_s := negb (M mod 2 ^ (d - 53) =? 0)
                 && negb (2 * (M mod 2 ^ (d - 53)) =? 2 ^ (d - 53)) |},
     e + (d - 53)).
Proof.
  intros HM Hd He Hd53.
  unfold shr_fexp; rewrite Hd.
  unfold fexp, emin.
  rewrite Z.max_l by lia.
  replace (d + e - 53 - e) with (d - 53) by lia.
  cbn [shr_record_of_loc].
  apply shr_nonneg; lia.
Qed.

(** The rounding of an exact positive value [p * 2^ex] of at least 53 bits,
    within the range of the normal numbers: a normal number, at most half a
    unit of its last bit away, in integers scaled by [2^ex]. *)
Lemma binary_round_aux_nearest (sx : bool) (p : positive) (ex : Z) :
  53 <= Zpos (digits2_pos p) ->
  -1074 <= Zpos (digits2_pos p) + ex - 53 ->
  Zpos (digits2_pos p) + ex <= 1023 ->
  exists m e,
    binary_round_aux 53 1024 sx (Zpos p) ex loc_Exact = S754_finite sx m e
    /\ 2 ^ 52 <= Zpos m < 2 ^ 53
    /\ ex + (Zpos (digits2_pos p) - 53) <= e <= ex + (Zpos (digits2_pos p) - 53) + 1
    /\ 2 * Z.abs (Zpos m * 2 ^ (e - ex) - Zpos p) <= 2 ^ (Zpos (digits2_pos p) - 53).
Proof.
  intros Hd Hlo Hhi.
  pose proof (digits2_pos_bounds p) as Hp.
  set (d := Zpos (digits2_pos p)) in *.
  unfold binary_round_aux.
  rewrite (shr_fexp_exact (Zpos p) ex d) by (reflexivity || lia).
  destruct (round_shifted (Zpos p) (d - 53) ltac:(lia) ltac:(lia)) as [HR Herr].
  cbv zeta in HR, Herr.
  set (R := round_nearest_even _ _) in *.
  set (k := d - 53) in *.
  assert (Hq : 2 ^ 52 <= Zpos p / 2 ^ k < 2 ^ 53).
  { assert (Hk : 0 < 2 ^ k) by (apply Z.pow_pos_nonneg; lia).
    assert (E1 : 2 ^ (d - 1) = 2 ^ 52 * 2 ^ k)
      by (rewrite <- Z.pow_add_r by lia; f_equal; lia).
    assert (E2 : 2 ^ d = 2 ^ 53 * 2 ^ k)
      by (rewrite <- Z.pow_add_r by lia; f_equal; lia).
    split.
    - apply Z.div_le_lower_bound; lia.
    - apply Z.div_lt_upper_bound; lia. }
  assert (HRpos : 2 ^ 52 <= R <= 2 ^ 53) by lia.
  destruct R as [|m'|m'] eqn:ER; try lia.
  destruct (Z.eq_dec (Zpos m') (2 ^ 53)) as [Htop|Htop].
  - rewrite (shr_fexp_exact (Zpos m') (ex + k) 54); try lia.
    2:{ cbn [Zdigits2]; apply digits2_unique; rewrite Htop; lia. }
    rewrite Htop; cbn [shr_m].
    change (2 ^ 53 / 2 ^ (54 - 53)) with (2 ^ 52).
    change (2 ^ 52) with (Zpos (2 ^ 52)%positive) at 1.
    cbv iota beta.
    replace (ex + k + (54 - 53) <=? 1024 - 53) with true
      by (symmetry; apply Z.leb_le; lia).
    exists (2 ^ 52)%positive, (ex + k + (54 - 53)).
    split; [reflexivity|].
    split; [lia|].
    split; [lia|].
    replace (ex + k + (54 - 53) - ex) with (k + 1) by lia.
    rewrite Z.pow_add_r by lia.
    change (Zpos (2 ^ 52)) with (2 ^ 52); change (2 ^ 1) with 2.
    rewrite Htop in Herr. lia.
  - rewrite (shr_fexp_exact (Zpos m') (ex + k) 53); try lia.
    2:{ cbn [Zdigits2]; apply digits2_unique; lia. }
    change (53 - 53) with 0; rewrite Z.pow_0_r, Z.div_1_r, Z.add_0_r.
    cbn [shr_m]; cbv iota beta.
    replace (ex + k <=? 1024 - 53) with true
      by (symmetry; apply Z.leb_le; lia).
    exists m', (ex + k).
    split; [reflexivity|].
    split; [lia|].
    split; [lia|].
    replace (ex + k - ex) with k by lia.
    exact Herr.
Qed.

(** The alignment of a short mantissa. *)
Lemma iter_xO (p n : positive) : Zpos (Pos.iter xO p n) = Zpos p * 2 ^ Zpos n.
Proof.
  induction n as [|n IH] using Pos.peano_ind.
  - cbn [Pos.iter]; lia.
  - rewrite Pos.iter_succ, Pos2Z.inj_xO, IH, Pos2Z.inj_succ, Z.pow_succ_r by lia.
    lia.
Qed.

Section Rationals.

Local Open Scope Q_scope.

Lemma Qpow2_pos (e : Z) : 0 < 2 ^ e.
Proof. apply Qpower_0_lt; reflexivity. Qed.

Lemma Qpow2_add (a b : Z) : 2 ^ (a + b) == 2 ^ a * 2 ^ b.
Proof. apply Qpower_plus; discriminate. Qed.

Lemma Qpow2_inject (n : Z) : (0 <= n)%Z -> 2 ^ n == inject_Z (2 ^ n).
Proof. intros H; now rewrite Zpower_Qpower. Qed.

Lemma Qabs_bound (a b : Q) : - b <= a <= b -> Qabs a <= b.
Proof. intros H; apply Qabs_Qle_condition; exact H. Qed.

(** The rounding of an exact positive value [p * 2^ex], in rationals. *)
Lemma binary_round_aux_Q (sx : bool) (p : positive) (ex : Z) :
  (53 <= Zpos (digits2_pos p))%Z ->
  (-1074 <= Zpos (digits2_pos p) + ex - 53)%Z ->
  (Zpos (digits2_pos p) + ex <= 1023)%Z ->
  exists m e,
    binary_round_aux 53 1024 sx (Zpos p) ex loc_Exact = S754_finite sx m e
    /\ (2 ^ 52 <= Zpos m < 2 ^ 53)%Z
    /\ (ex + (Zpos (digits2_pos p) - 53) <= e
        <= ex + (Zpos (digits2_pos p) - 53) + 1)%Z
    /\ Qabs (inject_Z (Zpos m) * 2 ^ e - inject_Z (Zpos p) * 2 ^ ex)
       <= inject_Z (Zpos p) * 2 ^ ex / 2 ^ 53.
Proof.
  intros Hd Hlo Hhi.
  destruct (binary_round_aux_nearest sx p ex Hd Hlo Hhi) as [m [e [E [Hm [He Herr]]]]].
  exists m, e; split; [exact E|split; [exact Hm|split; [exact He|]]].
  pose proof (digits2_pos_bounds p) as Hp.
  set (d := Zpos (digits2_pos p)) in *.
  assert (E1 : (2 ^ (d - 1) = 2 ^ 52 * 2 ^ (d - 53))%Z)
    by (rewrite <- Z.pow_add_r by lia; f_equal; lia).
  assert (Hz : (2 ^ 53 * Z.abs (Zpos m * 2 ^ (e - ex) - Zpos p) <= Zpos p)%Z) by lia.
  clear Herr E1 Hp.
  replace e with ((e - ex) + ex)%Z at 1 by lia.
  rewrite Qpow2_add, (Qpow2_inject (e - ex)) by lia.
  set (t := (2 ^ (e - ex))%Z) in *.
  pose proof (Qpow2_pos ex) as Hx.
  set (X := 2 ^ ex) in *.
  apply Qabs_bound.
  assert (Hq : - inject_Z (Zpos p) <= 2 ^ 53 * (inject_Z (Zpos m) * inject_Z t - inject_Z (Zpos p)) <= inject_Z (Zpos p)).
  { assert (H1 : (- Zpos p <= 2 ^ 53 * (Zpos m * t + - Zpos p))%Z) by lia.
    assert (H2 : (2 ^ 53 * (Zpos m * t + - Zpos p) <= Zpos p)%Z) by lia.
    rewrite Zle_Qle in H1, H2.
    rewrite ?inject_Z_mult, ?inject_Z_plus, ?inject_Z_opp in H1, H2.
    split; [exact H1|exact H2]. }
  change (2 ^ 53) with 9007199254740992 in *.
  set (P := inject_Z (Zpos p)) in *.
  set (a := inject_Z (Zpos m) * inject_Z t - P) in *.
  assert (K1 : 0 <= (9007199254740992 * a + P) * X)
    by (apply Qmult_le_0_compat; lra).
  assert (K2 : 0 <= (P - 9007199254740992 * a) * X)
    by (apply Qmult_le_0_compat; lra).
  setoid_replace (inject_Z (Zpos m) * (inject_Z t * X) - P * X) with (a * X)
    by (unfold a; ring).
  setoid_replace (P * X / 9007199254740992) with (P * X * (1 # 9007199254740992))
    by (field).
  split; lra.
Qed.

(** The conversion of a nonzero integer below 2^64 in absolute value: a
    normal number, at most 2^-53 of the integer away from it. *)
Lemma binary_round_int (sx : bool) (p : positive) :
  (Zpos p < 2 ^ 64)%Z ->
  exists m e,
    binary_round 53 1024 sx p 0 = S754_finite sx m e
    /\ (2 ^ 52 <= Zpos m < 2 ^ 53)%Z
    /\ (-52 <= e <= 12)%Z
    /\ Qabs (inject_Z (Zpos m) * 2 ^ e - inject_Z (Zpos p))
       <= inject_Z (Zpos p) / 2 ^ 53.
Proof.
  intros Hp.
  pose proof (digits2_pos_bounds p) as Hd.
  set (d := Zpos (digits2_pos p)) in *.
  assert (Hd1 : (1 <= d)%Z) by (subst d; lia).
  assert (Hd2 : (d <= 64)%Z).
  { destruct (Z.leb_spec d 64) as [|H]; [assumption|exfalso].
    assert (2 ^ 64 <= 2 ^ (d - 1))%Z by (apply Z.pow_le_mono_r; lia). lia. }
  unfold binary_round, shl_align.
  fold d; unfold fexp, emin.
  rewrite Z.max_l by lia.
  replace (d + 0 - 53)%Z with (d - 53)%Z by lia.
  rewrite Z.sub_0_r.
  destruct (d - 53)%Z as [|k|k] eqn:Ek.
  - destruct (binary_round_aux_Q sx p 0) as [m [e [E [Hm [He Herr]]]]];
      fold d; try lia.
    fold d in He.
    exists m, e; split; [exact E|split; [exact Hm|split; [lia|]]].
    change (2 ^ 0) with 1 in Herr.
    now rewrite !Qmult_1_r in Herr.
  - destruct (binary_round_aux_Q sx p 0) as [m [e [E [Hm [He Herr]]]]];
      fold d; try lia.
    fold d in He.
    exists m, e; split; [exact E|split; [exact Hm|split; [lia|]]].
    change (2 ^ 0) with 1 in Herr.
    now rewrite !Qmult_1_r in Herr.
  - assert (Hk : (Zpos k = 53 - d)%Z) by lia.
    assert (Hmz : (2 ^ 52 <= Zpos (Pos.iter xO p k) < 2 ^ 53)%Z).
    { rewrite iter_xO, Hk.
      assert (E1 : (2 ^ 52 = 2 ^ (d - 1) * 2 ^ (53 - d))%Z)
        by (rewrite <- Z.pow_add_r by lia; f_equal; lia).
      assert (E2 : (2 ^ 53 = 2 ^ d * 2 ^ (53 - d))%Z)
        by (rewrite <- Z.pow_add_r by lia; f_equal; lia).
      assert (0 < 2 ^ (53 - d))%Z by (apply Z.pow_pos_nonneg; lia).
      nia. }
    assert (Hdz : Zpos (digits2_pos (Pos.iter xO p k)) = 53%Z)
      by (apply digits2_unique; exact Hmz).
    destruct (binary_round_aux_Q sx (Pos.iter xO p k) (Z.neg k))
      as [m [e [E [Hm [He Herr]]]]]; rewrite ?Hdz; try lia.
    rewrite Hdz in He.
    exists m, e; split; [exact E|split; [exact Hm|split; [lia|]]].
    assert (Hval : inject_Z (Zpos (Pos.iter xO p k)) * 2 ^ Z.neg k == inject_Z (Zpos p)).
    { rewrite iter_xO, inject_Z_mult, <- Qpow2_inject by lia.
      rewrite <- Qmult_assoc, <- Qpow2_add.
      replace (Zpos k + Z.neg k)%Z with 0%Z by lia.
      change (2 ^ 0) with 1; ring. }
    now rewrite Hval in Herr.
Qed.

(** The product of two normal numbers, while it stays in the range of the
    normal numbers: at most 2^-53 of the exact product away from it. *)
Lemma SFmul_Q (s1 s2 : bool) (m1 m2 : positive) (e1 e2 : Z) :
  (2 ^ 52 <= Zpos m1 < 2 ^ 53)%Z ->
  (2 ^ 52 <= Zpos m2 < 2 ^ 53)%Z ->
  (-1126 <= e1 + e2 <= 917)%Z ->
  exists m e,
    SFmul 53 1024 (S754_finite s1 m1 e1) (S754_finite s2 m2 e2)
    = S754_finite (xorb s1 s2) m e
    /\ Qabs (inject_Z (Zpos m) * 2 ^ e
             - (inject_Z (Zpos m1) * 2 ^ e1) * (inject_Z (Zpos m2) * 2 ^ e2))
       <= (inject_Z (Zpos m1) * 2 ^ e1) * (inject_Z (Zpos m2) * 2 ^ e2) / 2 ^ 53.
Proof.
  intros H1 H2 He; cbn [SFmul].
  pose proof (digits2_pos_bounds (m1 * m2)) as Hd.
  set (d := Zpos (digits2_pos (m1 * m2))) in *.
  rewrite Pos2Z.inj_mul in Hd.
  assert (HM : (2 ^ 104 <= Zpos m1 * Zpos m2 < 2 ^ 106)%Z).
  { change (2 ^ 104)%Z with (2 ^ 52 * 2 ^ 52)%Z.
    change (2 ^ 106)%Z with (2 ^ 53 * 2 ^ 53)%Z. nia. }
  assert (Hd1 : (105 <= d <= 106)%Z).
  { assert (0 < d)%Z by (subst d; lia).
    split.
    - destruct (Z.leb_spec 105 d) as [|H']; [assumption|exfalso].
      assert (2 ^ d <= 2 ^ 104)%Z by (apply Z.pow_le_mono_r; lia). lia.
    - destruct (Z.leb_spec d 106) as [|H']; [assumption|exfalso].
      assert (2 ^ 106 <= 2 ^ (d - 1))%Z by (apply Z.pow_le_mono_r; lia). lia. }
  destruct (binary_round_aux_Q (xorb s1 s2) (m1 * m2) (e1 + e2))
    as [m [e [E [Hm [_ Herr]]]]]; fold d; try lia.
  exists m, e; split; [exact E|].
  rewrite Pos2Z.inj_mul, inject_Z_mult, Qpow2_add in Herr.
  setoid_replace (inject_Z (Zpos m1) * 2 ^ e1 * (inject_Z (Zpos m2) * 2 ^ e2))
    with (inject_Z (Zpos m1) * inject_Z (Zpos m2) * (2 ^ e1 * 2 ^ e2)) by ring.
  exact Herr.
Qed.

(** Three roundings, each within 2^-53, stay within 2^-51. *)
Lemma rounding_compose (a a' c c' r : Q) :
  0 <= a -> 0 <= c ->
  Qabs (a' - a) <= a / 2 ^ 53 ->
  Qabs (c' - c) <= c / 2 ^ 53 ->
  Qabs (r - a' * c') <= a' * c' / 2 ^ 53 ->
  Qabs (r - a * c) <= a * c / 2 ^ 51.
Proof.
  intros Ha Hc H1 H2 H3.
  apply Qabs_Qle_condition in H1, H2, H3.
  apply Qabs_bound.
  change (2 ^ 53) with 9007199254740992 in *.
  change (2 ^ 51) with 2251799813685248 in *.
  set (u := 1 # 9007199254740992).
  assert (E1 : a / 9007199254740992 == a * u) by (unfold u; field).
  assert (E2 : c / 9007199254740992 == c * u) by (unfold u; field).
  assert (E3 : a' * c' / 9007199254740992 == a' * c' * u) by (unfold u; field).
  assert (E4 : a * c / 2251799813685248 == a * c * (4 * u)) by (unfold u; field).
  rewrite E1 in H1; rewrite E2 in H2; rewrite E3 in H3; rewrite E4.
  clear E1 E2 E3 E4.
  assert (Hac : 0 <= a * c) by (apply Qmult_le_0_compat; assumption).
  (* bounds on a' * c' *)
  assert (U1 : a' * c' <= a * c * ((1 + u) * (1 + u))).
  { assert (K : 0 <= (a * (1 + u) - a') * (c * (1 + u)))
      by (apply Qmult_le_0_compat; [lra|unfold u in *; nra]).
    assert (K' : 0 <= a' * (c * (1 + u) - c'))
      by (apply Qmult_le_0_compat; [unfold u in *; lra|lra]).
    lra. }
  assert (L1 : a * c * ((1 - u) * (1 - u)) <= a' * c').
  { assert (K : 0 <= (a' - a * (1 - u)) * (c * (1 - u)))
      by (apply Qmult_le_0_compat; [lra|unfold u in *; nra]).
    assert (K' : 0 <= a' * (c' - c * (1 - u)))
      by (apply Qmult_le_0_compat; [unfold u in *; lra|lra]).
    lra. }
  unfold u in *; split; nra.
Qed.

(** The three factors: normal numbers, the doubles nearest to 10^-3, 10^-6
    and 10^-9. *)
Lemma pow10_neg_nearest (k : Z) :
  k = 3%Z \/ k = 6%Z \/ k = 9%Z ->
  exists m e,
    pow10_neg k = S754_finite false m e
    /\ (2 ^ 52 <= Zpos m < 2 ^ 53)%Z
    /\ (-82 <= e <= -62)%Z
    /\ Qabs (inject_Z (Zpos m) * 2 ^ e - 10 ^ (- k)) <= 10 ^ (- k) / 2 ^ 53.
Proof.
  intros [-> | [-> | ->]].
  - exists 4611686018427388%positive, (-62)%Z.
    split; [vm_compute; reflexivity|].
    split; [lia|split; [lia|vm_compute; discriminate]].
  - exists 4722366482869645%positive, (-72)%Z.
    split; [vm_compute; reflexivity|].
    split; [lia|split; [lia|vm_compute; discriminate]].
  - exists 4835703278458517%positive, (-82)%Z.
    split; [vm_compute; reflexivity|].
    split; [lia|split; [lia|vm_compute; discriminate]].
Qed.

Lemma Qpow10_pos (k : Z) : 0 < 10 ^ k.
Proof. apply Qpower_0_lt; reflexivity. Qed.

Lemma inject_Z_nonneg (z : Z) : (0 <= z)%Z -> 0 <= inject_Z z.
Proof. intros H; change 0 with (inject_Z 0); now rewrite <- Zle_Qle. Qed.

(** One element of the product of an [int64] array with [10**(-k)]. *)
Lemma scaled_element (k x : Z) :
  k = 3%Z \/ k = 6%Z \/ k = 9%Z ->
  (- 2 ^ 63 <= x < 2 ^ 63)%Z ->
  scaled_by k x (float_value (SFmul 53 1024 (float_of_int x) (pow10_neg k))).
Proof.
  intros Hk Hx.
  destruct (pow10_neg_nearest k Hk) as [m2 [e2 [Ec [Hm2 [He2 Hc]]]]].
  rewrite Ec; clear Ec.
  pose proof (Qpow10_pos (- k)) as Hpos.
  unfold scaled_by, exact_scaling.
  set (C := 10 ^ (- k)) in *.
  destruct x as [|p|p].
  - exists 0; split; [reflexivity|].
    change (inject_Z 0) with 0.
    rewrite Qmult_0_l.
    vm_compute; discriminate.
  - destruct (binary_round_int false p) as [m1 [e1 [E1 [Hm1 [He1 H1]]]]]; [lia|].
    unfold float_of_int; cbn [binary_normalize]; rewrite E1.
    destruct (SFmul_Q false false m1 m2 e1 e2 Hm1 Hm2) as [m [e [E H3]]]; [lia|].
    rewrite E; cbn [xorb float_value cond_Zopp].
    eexists; split; [reflexivity|].
    rewrite (Qabs_pos (inject_Z (Zpos p) * C))
      by (apply Qmult_le_0_compat; [apply inject_Z_nonneg; lia|lra]).
    apply (rounding_compose _ _ _ _ _ (inject_Z_nonneg (Zpos p) (Pos2Z.is_nonneg p))
             (Qlt_le_weak _ _ Hpos) H1 Hc H3).
  - destruct (binary_round_int true p) as [m1 [e1 [E1 [Hm1 [He1 H1]]]]]; [lia|].
    unfold float_of_int; cbn [binary_normalize]; rewrite E1.
    destruct (SFmul_Q true false m1 m2 e1 e2 Hm1 Hm2) as [m [e [E H3]]]; [lia|].
    rewrite E; cbn [xorb float_value cond_Zopp].
    eexists; split; [reflexivity|].
    pose proof (rounding_compose _ _ _ _ _
                  (inject_Z_nonneg (Zpos p) (Pos2Z.is_nonneg p))
                  (Qlt_le_weak _ _ Hpos) H1 Hc H3) as H.
    change (Z.neg p) with (- Zpos p)%Z.
    change (- Zpos m)%Z with (Z.opp (Zpos m)).
    rewrite !inject_Z_opp.
    setoid_replace (- inject_Z (Zpos m) * 2 ^ e - - inject_Z (Zpos p) * C)
      with (- (inject_Z (Zpos m) * 2 ^ e - inject_Z (Zpos p) * C)) by ring.
    setoid_replace (- inject_Z (Zpos p) * C) with (- (inject_Z (Zpos p) * C)) by ring.
    rewrite !Qabs_opp.
    rewrite (Qabs_pos (inject_Z (Zpos p) * C))
      by (apply Qmult_le_0_compat; [apply inject_Z_nonneg; lia|lra]).
    exact H.
Qed.

End Rationals.

(* ------------------------------------------------------------------------ *)
(** ** The conversion of units *)

Lemma unit_exponent_cases (units : string) (k : Z) :
  unit_exponent units = Some k ->
  (units = "ns"%string /\ k = 0) \/ (units = "us"%string /\ k = 3)
  \/ (units = "ms"%string /\ k = 6) \/ (units = "s"%string /\ k = 9).
Proof.
  unfold unit_exponent.
  destruct (String.eqb_spec units "ns") as [->|_];
    [intros H; injection H as <-; left; split; reflexivity|].
  destruct (String.eqb_spec units "us") as [->|_];
    [intros H; injection H as <-; right; left; split; reflexivity|].
  destruct (String.eqb_spec units "ms") as [->|_];
    [intros H; injection H as <-; right; right; left; split; reflexivity|].
  destruct (String.eqb_spec units "s") as [->|_];
    [intros H; injection H as <-; right; right; right; split; reflexivity|].
  discriminate.
Qed.

Lemma scaled_by_exact (x : Z) : scaled_by 0 x (Some (inject_Z x)).
Proof.
  exists (inject_Z x); split; [reflexivity|].
  unfold exact_scaling; change (10 ^ (- 0))%Q with 1%Q.
  rewrite Qmult_1_r.
  setoid_replace (inject_Z x - inject_Z x)%Q with 0%Q by ring.
  apply Qle_shift_div_l; [reflexivity|].
  rewrite Qmult_0_l; apply Qabs_nonneg.
Qed.

Lemma np_mul_float_scaled (k : Z) (counts_ns : list Z) :
  k = 3 \/ k = 6 \/ k = 9 ->
  Forall (fun x => - 2 ^ 63 <= x < 2 ^ 63) counts_ns ->
  Forall2 (scaled_by k) counts_ns
          (map float_value (np_mul_float counts_ns (pow10_neg k))).
Proof.
  intros Hk H; unfold np_mul_float; rewrite map_map.
  induction H as [|x l Hx _ IH]; cbn [map]; constructor; [|exact IH].
  now apply scaled_element.
Qed.

(** C9.  For an [int64] array of tick counts and a unit symbol among "ns",
    "us", "ms" and "s", [convert_units] returns the counts multiplied by the
    factor 1, 10^-3, 10^-6 or 10^-9 of the unit, element by element and in
    the same order.  For "ns" it returns the array of counts itself.  For the
    other units the product is the one of binary64 arithmetic: each count is
    converted to a double and multiplied with the double [10**(-k)], and the
    element that results is a finite number that differs from the exact
    product of the count with 10^-k by at most 2^-51 of it. *)
Theorem convert_units_scales (counts_ns : list Z) (units : string) (k : Z) :
  Forall (fun x => - 2 ^ 63 <= x < 2 ^ 63) counts_ns ->
  unit_exponent units = Some k ->
  exists out,
    convert_units counts_ns units = Some out
    /\ (k = 0 -> out = Counts counts_ns)
    /\ (k <> 0 ->
        out = Floats (map (fun x => SFmul 53 1024 (float_of_int x) (pow10_neg k))
                          counts_ns))
    /\ Forall2 (scaled_by k) counts_ns (element_values out).
Proof.
  intros Hrange Hk.
  destruct (unit_exponent_cases units k Hk)
    as [[-> ->] | [[-> ->] | [[-> ->] | [-> ->]]]];
    eexists; (split; [reflexivity|]);
    (split; [intros H; first [reflexivity|discriminate H]|]);
    (split; [intros H; first [reflexivity|exfalso; now apply H]|]);
    cbn [element_values].
  - clear Hrange Hk; induction counts_ns as [|x l IH]; cbn [map]; constructor;
      [apply scaled_by_exact|exact IH].
  - apply np_mul_float_scaled; [left; reflexivity|exact Hrange].
  - apply np_mul_float_scaled; [right; left; reflexivity|exact Hrange].
  - apply np_mul_float_scaled; [right; right; reflexivity|exact Hrange].
Qed.

Lemma convert_units_scales_witness :
  exists out,
    convert_units [3; 268435466; -5; 0] "us" = Some out
    /\ (3 = 0 -> out = Counts [3; 268435466; -5; 0])
    /\ (3 <> 0 ->
        out = Floats (map (fun x => SFmul 53 1024 (float_of_int x) (pow10_neg 3))
                          [3; 268435466; -5; 0]))
    /\ Forall2 (scaled_by 3) [3; 268435466; -5; 0] (element_values out).
Proof.
  apply (convert_units_scales [3; 268435466; -5; 0] "us" 3).
  - repeat constructor; lia.
  - reflexivity.
Defined.

(** The doubles of two conversions to "us": those of 3 and of 268435466 are
    the doubles nearest to 0.003 and to 268435.466 (half a unit in the last
    place is 2^-62 and 2^-35 there); that of 1001 is not the double nearest
    to 1.001, from which it is more than 2^-53 away. *)
Lemma convert_units_us_values :
  convert_units [3; 268435466; 1001] "us"
  = Some (Floats [S754_finite false 6917529027641082 (-61);
                  S754_finite false 4611686190226080 (-34);
                  S754_finite false 4508103226997867 (-52)])
  /\ (Qabs (inject_Z 6917529027641082 * 2 ^ (-61) - (3 # 1000)) <= 2 ^ (-62))%Q
  /\ (Qabs (inject_Z 4611686190226080 * 2 ^ (-34) - (268435466 # 1000))
      <= 2 ^ (-35))%Q
  /\ (2 ^ (-53) < Qabs (inject_Z 4508103226997867 * 2 ^ (-52) - (1001 # 1000)))%Q.
Proof.
  split; [vm_compute; reflexivity|].
  repeat split; vm_compute; first [discriminate|reflexivity].
Qed.

(* ------------------------------------------------------------------------ *)
(** ** Further properties of the decoder *)

Lemma length_stream_words_eq (bs : list byte) :
  length (stream_words bs) = word_count (length bs).
Proof.
  pose proof (ts_word_list_eq bs) as E1.
  rewrite ts_word_list_slices in E1; injection E1 as E1.
  rewrite <- E1, length_rev, length_map, length_slices.
  reflexivity.
Qed.

Lemma decode_nonneg (ws : list Z) (c prev : Z) :
  Forall word_ok ws -> 0 <= c ->
  Forall (fun e => 0 <= fst e) (decode c prev ws).
Proof.
  revert c prev; induction ws as [|w ws IH]; intros c prev Hws Hc; [constructor|].
  inversion Hws as [|? ? Hw Hws']; subst.
  pose proof (raw_counter_range w Hw) as Ht.
  cbn [decode].
  assert (Hc' : 0 <= next_count c prev w)
    by (destruct (next_count_cases c prev w) as [[-> _]|[-> _]]; lia).
  destruct (flag_clear w); [constructor|]; try (apply IH; assumption).
  cbn [fst]; lia.
Qed.

(** The word extraction raises nothing, whatever the stream: a stream of [n]
    bytes has [(n + 3) / 4] words, each below 2^32. *)
Theorem ts_word_list_total (binary_stream : list byte) :
  exists ws,
    ts_word_list binary_stream = Some ws
    /\ length ws = word_count (length binary_stream)
    /\ Forall (fun w => 0 <= w < 2 ^ 32) ws.
Proof.
  exists (stream_words binary_stream).
  split; [apply ts_word_list_eq|].
  split; [apply length_stream_words_eq|apply stream_words_range].
Qed.

(** Decoding is incremental at the end of a stream: whole words appended to a
    stream leave the entries decoded so far as they are and add entries after
    them. *)
Theorem read_timestamps_append (a b : list byte) (legacy : bool) :
  (length b mod 4 = 0)%nat ->
  stream_size_ok (a ++ b) ->
  exists ts ch ts' ch',
    read_timestamps a legacy = Some (ts, ch)
    /\ read_timestamps (a ++ b) legacy = Some (ts ++ ts', ch ++ ch')
    /\ length ts' = length ch'.
Proof.
  intros Hb Hsize.
  assert (Hk : length b = (length b / 4 * 4)%nat)
    by (nat_divmod (length b) 4%nat; lia).
  set (wa := stream_words a).
  exists (map (fun e => 2 * fst e) (decode 0 (-1) wa)),
         (channels_of legacy (decode 0 (-1) wa)),
         (map (fun e => 2 * fst e)
              (decode (count_after 0 (-1) wa) (prev_after (-1) wa) (le_words b))),
         (channels_of legacy
              (decode (count_after 0 (-1) wa) (prev_after (-1) wa) (le_words b))).
  split; [|split].
  - apply read_timestamps_sized.
    eapply stream_size_ok_le; [|exact Hsize]; rewrite length_app; lia.
  - rewrite (read_timestamps_sized _ _ Hsize).
    rewrite (stream_words_app _ a b Hk), decode_app.
    unfold channels_of; now rewrite !map_app.
  - unfold channels_of; now rewrite !length_map.
Qed.

Lemma read_timestamps_append_witness :
  exists ts ch ts' ch',
    read_timestamps [x61; x41; x01; x00; x00] true = Some (ts, ch)
    /\ read_timestamps ([x61; x41; x01; x00; x00] ++ [x81; x01; x00; x00]) true
       = Some (ts ++ ts', ch ++ ch')
    /\ length ts' = length ch'.
Proof.
  apply (read_timestamps_append [x61; x41; x01; x00; x00] [x81; x01; x00; x00] true).
  - reflexivity.
  - vm_compute; discriminate.
Defined.

(** Every timestamp is even, not negative, and below 2^28 times the number of
    words of the stream. *)
Theorem read_timestamps_range (binary_stream : list byte) (legacy : bool) :
  stream_size_ok binary_stream ->
  exists ts ch,
    read_timestamps binary_stream legacy = Some (ts, ch)
    /\ Forall (fun t => t mod 2 = 0
                        /\ 0 <= t
                           < 2 ^ 28 * Z.of_nat (word_count (length binary_stream)))
              ts.
Proof.
  intros Hsize.
  eexists _, _; split; [apply (read_timestamps_sized _ _ Hsize)|].
  pose proof (stream_words_range binary_stream) as Hrange.
  pose proof (decode_bounds _ 0 (-1) Hrange ltac:(lia)) as Hb.
  pose proof (decode_nonneg _ 0 (-1) Hrange ltac:(lia)) as Hn.
  rewrite length_stream_words_eq in Hb.
  apply Forall_map.
  rewrite Forall_forall in *; intros e He.
  specialize (Hb e He); specialize (Hn e He); cbv beta in Hb.
  change (-1 =? -1) with true in Hb.
  split; [|lia].
  rewrite Z.mul_comm; apply Z.mod_mul; lia.
Qed.

Lemma read_timestamps_range_witness :
  exists ts ch,
    read_timestamps [x41; x01; x00; x00; x61; x00; x00; x00] false = Some (ts, ch)
    /\ Forall (fun t => t mod 2 = 0
                        /\ 0 <= t
                           < 2 ^ 28 * Z.of_nat
                                        (word_count
                                           (length [x41; x01; x00; x00;
                                                    x61; x00; x00; x00])))
              ts.
Proof.
  apply (read_timestamps_range [x41; x01; x00; x00; x61; x00; x00; x00] false).
  vm_compute; discriminate.
Defined.

Lemma channel_pattern_range (w : Z) : 0 <= channel_pattern w < 16.
Proof.
  unfold channel_pattern; change 15 with (Z.ones 4).
  rewrite Z.land_ones by lia.
  apply Z.mod_pos_bound; lia.
Qed.

(** The rendering mode changes the channel entries only: both modes raise or
    return together, with the same timestamps, and the bit string of an
    entry of the legacy mode is the 4-digit binary text of the integer of the
    other mode, a number below 16. *)
Theorem read_timestamps_modes (binary_stream : list byte) :
  exists r : option (list Z * list Z),
    read_timestamps binary_stream true
    = option_map (fun tp => (fst tp, map (fun p => ChStr (format_04b p)) (snd tp))) r
    /\ read_timestamps binary_stream false
       = option_map (fun tp => (fst tp, map ChInt (snd tp))) r
    /\ match r with
       | Some (_, ps) => Forall (fun p => 0 <= p < 16) ps
       | None => True
       end.
Proof.
  set (D := decode 0 (-1) (stream_words binary_stream)).
  exists (option_map (fun arr => (np_mul_int64 arr 2,
                                  map (fun e => channel_pattern (snd e)) D))
                     (np_array_int64 (ticks_of D))).
  unfold read_timestamps.
  rewrite ts_word_list_eq; cbn [bind].
  rewrite !run_loop_decode.
  cbn [ts_list event_channel_list periode_count prev_ts loop_init app].
  fold D.
  destruct (np_array_int64 (ticks_of D)) as [arr|]; cbn [bind option_map fst snd].
  - unfold channels_of, render; rewrite !map_map.
    split; [reflexivity|split; [reflexivity|]].
    apply Forall_forall; intros p Hp.
    apply in_map_iff in Hp; destruct Hp as [e [<- _]].
    apply channel_pattern_range.
  - repeat split.
Qed.

(** A single word in terms of its bytes: the flag bit is bit 4 of the first
    byte, the pattern its low four bits, and the counter is made of the three
    high bits of the first byte below the three other bytes, least
    significant first. *)
Theorem read_timestamps_one_word (b0 b1 b2 b3 : byte) (legacy : bool) :
  read_timestamps [b0; b1; b2; b3] legacy
  = Some (if Z.testbit (byte_val b0) 4 then ([], [])
          else ([2 * (byte_val b0 / 32 + 8 * byte_val b1 + 2048 * byte_val b2
                      + 524288 * byte_val b3)],
                [render legacy (byte_val b0 mod 16)])).
Proof.
  set (w := byte_val b0 + 256 * byte_val b1 + 65536 * byte_val b2
            + 16777216 * byte_val b3).
  assert (Hw : stream_words [b0; b1; b2; b3] = [w]) by reflexivity.
  assert (Hok : word_ok w).
  { pose proof (stream_words_range [b0; b1; b2; b3]) as H.
    rewrite Hw in H; now inversion H. }
  pose proof (raw_counter_range w Hok) as Hraw.
  assert (Hlow : w mod 2 ^ 8 = byte_val b0).
  { subst w; byte_ranges; intros.
    change (2 ^ 8) with 256.
    symmetry; apply (Z.mod_unique _ _ (z0 + 256 * z1 + 65536 * z2)); lia. }
  assert (Hbit : Z.testbit w 4 = Z.testbit (byte_val b0) 4)
    by (rewrite <- Hlow, Z.mod_pow2_bits_low by lia; reflexivity).
  assert (Hr : raw_counter w
               = byte_val b0 / 32 + 8 * byte_val b1 + 2048 * byte_val b2
                 + 524288 * byte_val b3).
  { unfold raw_counter; rewrite Z.shiftr_div_pow2 by lia.
    subst w; byte_ranges; intros.
    replace (z + 256 * z0 + 65536 * z1 + 16777216 * z2)
      with (z + (8 * z0 + 2048 * z1 + 524288 * z2) * 2 ^ 5) by lia.
    rewrite Z.div_add by lia; change (2 ^ 5) with 32; lia. }
  assert (Hp : channel_pattern w = byte_val b0 mod 16).
  { unfold channel_pattern, trailer.
    rewrite <- Z.land_assoc; change (Z.land 31 15) with (Z.ones 4).
    rewrite Z.land_ones by lia.
    pose proof (Z.div_mod w 256 ltac:(lia)) as E.
    change (2 ^ 8) with 256 in Hlow; rewrite Hlow in E.
    change (2 ^ 4) with 16; rewrite E at 1.
    replace (256 * (w / 256) + byte_val b0)
      with (byte_val b0 + 16 * (w / 256) * 16) by lia.
    apply Z.mod_add; lia. }
  rewrite read_timestamps_decode; rewrite Hw; cbn [decode].
  - rewrite flag_clear_bit4, Hbit.
    change (next_count 0 (-1) w) with 0.
    destruct (Z.testbit (byte_val b0) 4); cbn [negb map fst snd channels_of];
      [reflexivity|].
    rewrite Z.mul_0_r, Z.add_0_r, Hr, Hp; reflexivity.
  - destruct (flag_clear w); constructor; [|constructor].
    change (next_count 0 (-1) w) with 0; cbn [fst]; lia.
Qed.

(* ------------------------------------------------------------------------ *)
(** ** Further properties of the channel cleaner *)

Lemma cleaner_body_long (st : cleaner_state) (s : list ascii) :
  (4 <= length s)%nat ->
  cleaner_body st s
  = Some {| cha_clean := cha_clean st ++ [active_channels s];
            counts_1 := counts_1 st + (if bit_at 3 s then 1 else 0);
            counts_2 := counts_2 st + (if bit_at 2 s then 1 else 0);
            counts_3 := counts_3 st + (if bit_at 1 s then 1 else 0);
            counts_4 := counts_4 st + (if bit_at 0 s then 1 else 0) |}.
Proof.
  intros Hs; unfold cleaner_body, active_channels.
  rewrite !is_one_bit_at by lia; cbn [bind].
  destruct (bit_at 0 s), (bit_at 1 s), (bit_at 2 s), (bit_at 3 s);
    cbn [app]; rewrite ?Z.add_0_r; reflexivity.
Qed.

Lemma cleaner_body_short (st : cleaner_state) (s : list ascii) :
  (length s < 4)%nat -> cleaner_body st s = None.
Proof.
  destruct s as [|c0 [|c1 [|c2 [|c3 s]]]]; cbn [length]; intros H;
    try reflexivity.
  exfalso; lia.
Qed.

Lemma cleaner_loop_eq (cha_info : list (list ascii)) (st : cleaner_state) :
  cleaner_loop cha_info st
  = if forallb (fun s => (4 <=? length s)%nat) cha_info
    then Some {| cha_clean := cha_clean st ++ map active_channels cha_info;
                 counts_1 := counts_1 st + count_active 3 cha_info;
                 counts_2 := counts_2 st + count_active 2 cha_info;
                 counts_3 := counts_3 st + count_active 1 cha_info;
                 counts_4 := counts_4 st + count_active 0 cha_info |}
    else None.
Proof.
  revert st; induction cha_info as [|s l IH]; intros st.
  - destruct st; cbn [cleaner_loop forallb map cha_clean counts_1 counts_2
                                   counts_3 counts_4].
    unfold count_active; cbn [filter length Z.of_nat].
    now rewrite app_nil_r, !Z.add_0_r.
  - cbn [cleaner_loop forallb].
    destruct (Nat.leb_spec 4 (length s)) as [Hs|Hs]; cbn [andb].
    + rewrite (cleaner_body_long st s Hs); cbn [bind].
      rewrite IH; destruct (forallb _ l); [|reflexivity].
      cbn [cha_clean counts_1 counts_2 counts_3 counts_4 map].
      rewrite !count_active_cons, <- app_assoc, !Z.add_assoc.
      reflexivity.
    + now rewrite (cleaner_body_short st s Hs).
Qed.

Lemma channel_cleaner_eq (cha_info : list (list ascii)) :
  channel_cleaner cha_info
  = if forallb (fun s => (4 <=? length s)%nat) cha_info
    then Some (map active_channels cha_info,
               (count_active 3 cha_info, count_active 2 cha_info,
                count_active 1 cha_info, count_active 0 cha_info))
    else None.
Proof.
  unfold channel_cleaner; rewrite cleaner_loop_eq.
  now destruct (forallb _ cha_info).
Qed.

(** [channel_cleaner] raises (an index error) exactly when a pattern has
    fewer than four characters; otherwise it returns the active channels of
    every pattern and the four totals, reading the first four characters of a
    pattern only. *)
Theorem channel_cleaner_index_error (cha_info : list (list ascii)) :
  channel_cleaner cha_info
  = if forallb (fun s => (4 <=? length s)%nat) cha_info
    then Some (map active_channels cha_info,
               (count_active 3 cha_info, count_active 2 cha_info,
                count_active 1 cha_info, count_active 0 cha_info))
    else None.
Proof. apply channel_cleaner_eq. Qed.

Lemma count_active_range (i : nat) (l : list (list ascii)) :
  0 <= count_active i l <= Z.of_nat (length l).
Proof.
  unfold count_active.
  pose proof (filter_length_le (bit_at i) l); lia.
Qed.

Lemma count_active_total (l : list (list ascii)) :
  count_active 3 l + count_active 2 l + count_active 1 l + count_active 0 l
  = Z.of_nat (length (concat (map active_channels l))).
Proof.
  induction l as [|s l IH]; [reflexivity|].
  rewrite !count_active_cons; cbn [map concat]; rewrite length_app.
  unfold active_channels at 1.
  destruct (bit_at 0 s), (bit_at 1 s), (bit_at 2 s), (bit_at 3 s);
    cbn [app length]; lia.
Qed.

(** What [channel_cleaner] returns is consistent: one entry per pattern, each
    with at most four names, every total between 0 and the number of
    patterns, and the four totals together count the names of all entries. *)
Theorem channel_cleaner_totals
        (cha_info : list (list ascii)) (clean : list (list string))
        (c1 c2 c3 c4 : Z) :
  channel_cleaner cha_info = Some (clean, (c1, c2, c3, c4)) ->
  length clean = length cha_info
  /\ Forall (fun e => (length e <= 4)%nat) clean
  /\ c1 + c2 + c3 + c4 = Z.of_nat (length (concat clean))
  /\ 0 <= c1 <= Z.of_nat (length cha_info)
  /\ 0 <= c2 <= Z.of_nat (length cha_info)
  /\ 0 <= c3 <= Z.of_nat (length cha_info)
  /\ 0 <= c4 <= Z.of_nat (length cha_info).
Proof.
  rewrite channel_cleaner_eq.
  destruct (forallb _ cha_info); [|discriminate].
  intros H; injection H as <- <- <- <- <-.
  split; [apply length_map|].
  split.
  { apply Forall_map, Forall_forall; intros s _.
    unfold active_channels.
    destruct (bit_at 0 s), (bit_at 1 s), (bit_at 2 s), (bit_at 3 s);
      cbn [app length]; lia. }
  split; [apply count_active_total|].
  repeat split; apply count_active_range.
Qed.

Lemma channel_cleaner_totals_witness :
  length [["CH3"%string; "CH2"%string]; ["CH4"%string; "CH1"%string]]
  = length [list_ascii_of_string "0110"; list_ascii_of_string "1001"]
  /\ Forall (fun e => (length e <= 4)%nat)
            [["CH3"%string; "CH2"%string]; ["CH4"%string; "CH1"%string]]
  /\ 1 + 1 + 1 + 1
     = Z.of_nat (length (concat [["CH3"%string; "CH2"%string];
                                 ["CH4"%string; "CH1"%string]]))
  /\ 0 <= 1 <= Z.of_nat (length [list_ascii_of_string "0110";
                                 list_ascii_of_string "1001"])
  /\ 0 <= 1 <= Z.of_nat (length [list_ascii_of_string "0110";
                                 list_ascii_of_string "1001"])
  /\ 0 <= 1 <= Z.of_nat (length [list_ascii_of_string "0110";
                                 list_ascii_of_string "1001"])
  /\ 0 <= 1 <= Z.of_nat (length [list_ascii_of_string "0110";
                                 list_ascii_of_string "1001"]).
Proof.
  apply (channel_cleaner_totals
           [list_ascii_of_string "0110"; list_ascii_of_string "1001"]).
  reflexivity.
Defined.

Lemma count_active_app (i : nat) (a b : list (list ascii)) :
  count_active i (a ++ b) = count_active i a + count_active i b.
Proof.
  unfold count_active; rewrite filter_app, length_app; lia.
Qed.

(** The cleaner of two sequences of patterns, one after the other: it raises
    when it raises on either, and otherwise appends the entries and adds the
    totals. *)
Theorem channel_cleaner_app (a b : list (list ascii)) :
  channel_cleaner (a ++ b)
  = match channel_cleaner a, channel_cleaner b with
    | Some (la, (a1, a2, a3, a4)), Some (lb, (b1, b2, b3, b4)) =>
        Some (la ++ lb, (a1 + b1, a2 + b2, a3 + b3, a4 + b4))
    | _, _ => None
    end.
Proof.
  rewrite !channel_cleaner_eq, forallb_app.
  destruct (forallb _ a), (forallb _ b); cbn [andb]; try reflexivity.
  now rewrite map_app, !count_active_app.
Qed.

(* ------------------------------------------------------------------------ *)
(** ** The decoder followed by the channel cleaner *)

Lemma format_04b_bits (p : Z) :
  0 <= p < 16 ->
  length (format_04b p) = 4%nat
  /\ bit_at 0 (format_04b p) = Z.testbit p 3
  /\ bit_at 1 (format_04b p) = Z.testbit p 2
  /\ bit_at 2 (format_04b p) = Z.testbit p 1
  /\ bit_at 3 (format_04b p) = Z.testbit p 0.
Proof.
  intros H.
  pose proof (below_check
                (fun m => (length (format_04b m) =? 4)%nat
                          && Bool.eqb (bit_at 0 (format_04b m)) (Z.testbit m 3)
                          && Bool.eqb (bit_at 1 (format_04b m)) (Z.testbit m 2)
                          && Bool.eqb (bit_at 2 (format_04b m)) (Z.testbit m 1)
                          && Bool.eqb (bit_at 3 (format_04b m)) (Z.testbit m 0))
                16 eq_refl p H) as E.
  cbv beta in E.
  repeat (apply andb_prop in E; destruct E as [E ?]).
  apply Nat.eqb_eq in E.
  repeat split; try assumption; now apply eqb_prop.
Qed.

Lemma channel_pattern_testbit (w k : Z) :
  0 <= k < 4 -> Z.testbit (channel_pattern w) k = Z.testbit w k.
Proof.
  intros Hk; unfold channel_pattern, trailer.
  rewrite <- Z.land_assoc; change (Z.land 31 15) with (Z.ones 4).
  rewrite Z.land_spec, Z.ones_spec_low by lia.
  apply andb_true_r.
Qed.

Lemma legacy_strings (ws : list Z) :
  map (fun w => render true (channel_pattern w)) ws
  = map ChStr (map (fun w => format_04b (channel_pattern w)) ws).
Proof. now rewrite map_map. Qed.

Lemma active_channels_word (w : Z) :
  active_channels (format_04b (channel_pattern w)) = word_channels w.
Proof.
  destruct (format_04b_bits _ (channel_pattern_range w)) as [_ [E0 [E1 [E2 E3]]]].
  unfold active_channels, word_channels.
  rewrite E0, E1, E2, E3, !channel_pattern_testbit by lia.
  reflexivity.
Qed.

Lemma count_active_words (i : nat) (k : Z) (ws : list Z) :
  (i < 4)%nat -> k = 3 - Z.of_nat i ->
  count_active i (map (fun w => format_04b (channel_pattern w)) ws)
  = count_bit k ws.
Proof.
  intros Hi ->; unfold count_active, count_bit.
  induction ws as [|w ws IH]; [reflexivity|].
  cbn [map filter].
  assert (E : bit_at i (format_04b (channel_pattern w))
              = Z.testbit w (3 - Z.of_nat i)).
  { destruct (format_04b_bits _ (channel_pattern_range w)) as [_ [E0 [E1 [E2 E3]]]].
    destruct i as [|[|[|[|i]]]]; try (exfalso; lia);
      [rewrite E0|rewrite E1|rewrite E2|rewrite E3];
      apply channel_pattern_testbit; lia. }
  rewrite E; destruct (Z.testbit w (3 - Z.of_nat i)); cbn [length]; lia.
Qed.

Lemma legacy_pipeline (bs : list byte) :
  stream_size_ok bs ->
  read_timestamps bs true
  = Some (map (fun e => 2 * fst e) (decode 0 (-1) (stream_words bs)),
          map ChStr (map (fun w => format_04b (channel_pattern w))
                         (filter flag_clear (stream_words bs))))
  /\ mapM channel_string
          (map ChStr (map (fun w => format_04b (channel_pattern w))
                          (filter flag_clear (stream_words bs))))
     = Some (map (fun w => format_04b (channel_pattern w))
                 (filter flag_clear (stream_words bs)))
  /\ channel_cleaner (map (fun w => format_04b (channel_pattern w))
                          (filter flag_clear (stream_words bs)))
     = Some (map word_channels (filter flag_clear (stream_words bs)),
             (count_bit 0 (filter flag_clear (stream_words bs)),
              count_bit 1 (filter flag_clear (stream_words bs)),
              count_bit 2 (filter flag_clear (stream_words bs)),
              count_bit 3 (filter flag_clear (stream_words bs)))).
Proof.
  intros Hsize.
  set (V := filter flag_clear (stream_words bs)).
  split.
  { rewrite (read_timestamps_sized _ _ Hsize); unfold channels_of.
    rewrite <- legacy_strings; subst V.
    now rewrite <- (decode_words _ 0 (-1)), map_map. }
  split.
  { rewrite mapM_map; cbn [channel_string].
    rewrite (mapM_Some _ (fun s => s)) by reflexivity.
    now rewrite map_id. }
  rewrite channel_cleaner_eq.
  replace (forallb _ _) with true.
  2:{ symmetry; apply forallb_forall; intros s Hs.
      apply in_map_iff in Hs; destruct Hs as [w [<- _]].
      destruct (format_04b_bits _ (channel_pattern_range w)) as [-> _].
      reflexivity. }
  rewrite map_map.
  rewrite (map_ext _ _ active_channels_word).
  now rewrite !(count_active_words _ _ V) by (reflexivity || lia).
Qed.

(** The decoder in legacy mode followed by [channel_cleaner], as [start] runs
    them: the cleaner finds four characters in every entry and raises
    nothing; it returns, for every valid word, the channels whose bit is set
    in the word (bit 3 is CH4, bit 0 is CH1), and as totals the numbers of
    valid words with bit 0, 1, 2 and 3 set. *)
Theorem read_timestamps_channel_cleaner (binary_stream : list byte) :
  stream_size_ok binary_stream ->
  exists ws ts ch strs,
    ts_word_list binary_stream = Some ws
    /\ read_timestamps binary_stream true = Some (ts, ch)
    /\ mapM channel_string ch = Some strs
    /\ channel_cleaner strs
       = Some (map word_channels (filter flag_clear ws),
               (count_bit 0 (filter flag_clear ws),
                count_bit 1 (filter flag_clear ws),
                count_bit 2 (filter flag_clear ws),
                count_bit 3 (filter flag_clear ws))).
Proof.
  intros Hsize.
  destruct (legacy_pipeline binary_stream Hsize) as [H1 [H2 H3]].
  eexists _, _, _, _; split; [apply ts_word_list_eq|].
  split; [exact H1|split; [exact H2|exact H3]].
Qed.

Lemma read_timestamps_channel_cleaner_witness :
  exists ws ts ch strs,
    ts_word_list [x46; x01; x00; x00; x79; x00; x00; x00; x89; x01; x00; x00]
    = Some ws
    /\ read_timestamps
         [x46; x01; x00; x00; x79; x00; x00; x00; x89; x01; x00; x00] true
       = Some (ts, ch)
    /\ mapM channel_string ch = Some strs
    /\ channel_cleaner strs
       = Some (map word_channels (filter flag_clear ws),
               (count_bit 0 (filter flag_clear ws),
                count_bit 1 (filter flag_clear ws),
                count_bit 2 (filter flag_clear ws),
                count_bit 3 (filter flag_clear ws))).
Proof.
  apply (read_timestamps_channel_cleaner
           [x46; x01; x00; x00; x79; x00; x00; x00; x89; x01; x00; x00]).
  vm_compute; discriminate.
Defined.

(* ------------------------------------------------------------------------ *)
(** ** Commands on a serial line *)

Lemma bytes_eqb_eq (a b : list byte) : bytes_eqb a b = true <-> a = b.
Proof.
  revert b; induction a as [|x a IH]; intros [|y b]; cbn [bytes_eqb];
    try (split; [discriminate|discriminate]); [split; reflexivity|].
  rewrite andb_true_iff, IH; split.
  - intros [H ->]; apply Byte.byte_dec_bl in H; now subst.
  - intros H; injection H as -> ->; split; [now apply Byte.byte_dec_lb|reflexivity].
Qed.

Lemma bytes_eqb_neq (a b : list byte) : bytes_eqb a b = false <-> a <> b.
Proof.
  rewrite <- bytes_eqb_eq; destruct (bytes_eqb a b); split; congruence.
Qed.

Lemma split_at_first_some (g : list byte) (lines pre post : list (list byte)) :
  split_at_first g lines = Some (pre, post) ->
  lines = pre ++ g :: post /\ ~ In g pre.
Proof.
  revert pre; induction lines as [|l rest IH]; intros pre; cbn [split_at_first];
    [discriminate|].
  destruct (bytes_eqb l g) eqn:E.
  - intros H; injection H as <- <-.
    apply bytes_eqb_eq in E; subst l; split; [reflexivity|intros []].
  - destruct (split_at_first g rest) as [[pre' post']|]; [|discriminate].
    intros H; injection H as <- <-.
    destruct (IH pre' eq_refl) as [-> Hpre].
    apply bytes_eqb_neq in E.
    split; [reflexivity|].
    intros [H|H]; [now apply E|now apply Hpre].
Qed.

Lemma split_at_first_none (g : list byte) (lines : list (list byte)) :
  split_at_first g lines = None -> ~ In g lines.
Proof.
  induction lines as [|l rest IH]; cbn [split_at_first]; [intros _ []|].
  destruct (bytes_eqb l g) eqn:E; [discriminate|].
  destruct (split_at_first g rest) as [[pre post]|]; [discriminate|].
  intros _ [H|H]; [apply bytes_eqb_neq in E; now apply E|now apply IH].
Qed.

Lemma repeat_snoc_app {A : Type} (l : list A) (x : A) (n : nat) :
  (l ++ [x]) ++ repeat x n = l ++ repeat x (S n).
Proof. now rewrite <- app_assoc. Qed.

(** Without [repeat] the loop has one turn. *)
Lemma command_once (port : serial_port) (c g : list byte) :
  command port c false g
  = Returns (hd [] (incoming port))
            {| incoming := tl (incoming port); written := written port ++ [c] |}.
Proof.
  unfold command; cbn [command_loop].
  destruct port as [[|l rest] wr]; cbn [write readline incoming written hd tl];
    now destruct (bytes_eqb _ g).
Qed.

Lemma command_loop_silent (n : nat) (wr : list (list byte)) (c g : list byte) :
  bytes_eqb [] g = false ->
  command_loop n {| incoming := []; written := wr |} c g true = Diverges.
Proof.
  intros Hg; revert wr; induction n as [|n IH]; intros wr; [reflexivity|].
  cbn [command_loop write readline incoming written]; rewrite Hg.
  cbn [negb]; apply IH.
Qed.

Lemma command_loop_repeat (inc wr : list (list byte)) (n : nat) (c g : list byte) :
  (length inc < n)%nat ->
  command_loop n {| incoming := inc; written := wr |} c g true
  = match split_at_first g inc with
    | Some (pre, post) =>
        Returns g {| incoming := post;
                     written := wr ++ repeat c (S (length pre)) |}
    | None =>
        if bytes_eqb [] g
        then Returns [] {| incoming := [];
                           written := wr ++ repeat c (S (length inc)) |}
        else Diverges
    end.
Proof.
  revert wr n; induction inc as [|l rest IH]; intros wr n Hn;
    destruct n as [|n]; try (exfalso; cbn [length] in Hn; lia).
  - cbn [command_loop write readline incoming written split_at_first].
    destruct (bytes_eqb [] g) eqn:Hg; cbn [negb]; [reflexivity|].
    now apply command_loop_silent.
  - cbn [command_loop write readline incoming written split_at_first].
    destruct (bytes_eqb l g) eqn:Hl; cbn [negb].
    + apply bytes_eqb_eq in Hl; now subst l.
    + rewrite IH by (cbn [length] in Hn; lia).
      destruct (split_at_first g rest) as [[pre post]|].
      * cbn [length]; now rewrite repeat_snoc_app.
      * destruct (bytes_eqb [] g); [|reflexivity].
        cbn [length]; now rewrite repeat_snoc_app.
Qed.

(** [command] with [repeat]: it returns nothing but the good response, after
    sending the command once for every line read up to the first good
    response (the time-out value [b""] after the last line counts when the
    good response is [b""]); it never ends when the good response does not
    come, and it raises nothing. *)
Theorem command_repeat (port : serial_port) (c good_response : list byte) :
  match command port c true good_response with
  | Returns res port' =>
      res = good_response
      /\ exists pre,
           ~ In good_response pre
           /\ written port' = written port ++ repeat c (S (length pre))
           /\ (incoming port = pre ++ good_response :: incoming port'
               \/ (good_response = [] /\ incoming port = pre /\ incoming port' = []))
  | Raises _ => False
  | Diverges => good_response <> [] /\ ~ In good_response (incoming port)
  end.
Proof.
  unfold command; destruct port as [inc wr]; cbn [incoming written].
  rewrite command_loop_repeat by lia.
  destruct (split_at_first good_response inc) as [[pre post]|] eqn:E.
  - apply split_at_first_some in E; destruct E as [-> Hpre].
    split; [reflexivity|].
    exists pre; cbn [incoming written].
    split; [exact Hpre|split; [reflexivity|left; reflexivity]].
  - apply split_at_first_none in E.
    destruct (bytes_eqb [] good_response) eqn:Hg.
    + apply bytes_eqb_eq in Hg; subst good_response.
      split; [reflexivity|].
      exists inc; cbn [incoming written].
      split; [exact E|split; [reflexivity|right; repeat split]].
    + apply bytes_eqb_neq in Hg; split; [congruence|exact E].
Qed.

(* ------------------------------------------------------------------------ *)
(** ** The stepper motor *)

Lemma is_moving_once (port : serial_port) :
  is_moving port
  = Returns (hd [] (incoming port))
            {| incoming := tl (incoming port); written := written port ++ [b_F] |}.
Proof. apply command_once. Qed.

Lemma wait_loop_silent (n : nat) (wr : list (list byte)) :
  wait_loop n {| incoming := []; written := wr |} = Diverges.
Proof.
  revert wr; induction n as [|n IH]; intros wr; [reflexivity|].
  cbn [wait_loop]; rewrite is_moving_once.
  cbn [and_then incoming written hd tl bytes_eqb b_Y negb]; apply IH.
Qed.

Lemma wait_loop_eq (inc wr : list (list byte)) (n : nat) :
  (length inc < n)%nat ->
  wait_loop n {| incoming := inc; written := wr |}
  = match split_at_first b_Y inc with
    | Some (pre, post) =>
        Returns tt {| incoming := post;
                      written := wr ++ repeat b_F (S (length pre)) |}
    | None => Diverges
    end.
Proof.
  revert wr n; induction inc as [|l rest IH]; intros wr n Hn;
    destruct n as [|n]; try (exfalso; cbn [length] in Hn; lia).
  - apply wait_loop_silent.
  - cbn [wait_loop split_at_first]; rewrite is_moving_once.
    cbn [and_then incoming written hd tl].
    destruct (bytes_eqb l b_Y); cbn [negb]; [reflexivity|].
    rewrite IH by (cbn [length] in Hn; lia).
    destruct (split_at_first b_Y rest) as [[pre post]|]; [|reflexivity].
    cbn [length]; now rewrite repeat_snoc_app.
Qed.

(** [wait] ends exactly when the device comes to answer [b'Y\r']: it has
    then sent "F" once for every answer up to that one, which is the last
    one it read; it raises nothing. *)
Theorem wait_until_idle (port : serial_port) :
  match wait port with
  | Returns _ port' =>
      exists pre,
        incoming port = pre ++ b_Y :: incoming port'
        /\ ~ In b_Y pre
        /\ written port' = written port ++ repeat b_F (S (length pre))
  | Raises _ => False
  | Diverges => ~ In b_Y (incoming port)
  end.
Proof.
  unfold wait; destruct port as [inc wr]; cbn [incoming written].
  rewrite wait_loop_eq by lia.
  destruct (split_at_first b_Y inc) as [[pre post]|] eqn:E.
  - apply split_at_first_some in E; destruct E as [-> Hpre].
    exists pre; cbn [incoming written]; auto.
  - now apply split_at_first_none.
Qed.

Lemma move_eq (select move : list byte) (port : serial_port) :
  and_then (command port select false b_ok) (fun _ port =>
  and_then (command port move false b_ok) (fun res port =>
  and_then (wait port) (fun _ port => Returns res port)))
  = move_outcome select move port.
Proof.
  destruct port as [inc wr].
  rewrite command_once; cbn [and_then].
  rewrite command_once; cbn [and_then incoming written].
  unfold wait, move_outcome; cbn [incoming written].
  rewrite wait_loop_eq by lia.
  replace (tl (tl inc)) with (skipn 2 inc) by (now destruct inc as [|? [|? ?]]).
  replace (hd [] (tl inc)) with (nth 1 inc []) by (now destruct inc as [|? [|? ?]]).
  destruct (split_at_first b_Y (skipn 2 inc)) as [[pre post]|]; [|reflexivity].
  cbn [and_then]; now rewrite <- !app_assoc.
Qed.

(** The four moves: each selects its motor ("B1" forward and back, "B2" left
    and right), sends the signed number of steps ("+" forward and left, "-"
    back and right) and returns the answer to it, but only once the device
    has answered [b'Y\r'] to an "F"; when that answer does not come the move
    never ends. *)
Lemma forward_eq (port : serial_port) (steps : Z) :
  forward port steps = move_outcome b_B1 ([x2b] ++ py_str steps ++ [x0d]) port.
Proof. apply move_eq. Qed.

Lemma left_eq (port : serial_port) (steps : Z) :
  left port steps = move_outcome b_B2 ([x2b] ++ py_str steps ++ [x0d]) port.
Proof. apply move_eq. Qed.

Lemma right_eq (port : serial_port) (steps : Z) :
  right port steps = move_outcome b_B2 ([x2d] ++ py_str steps ++ [x0d]) port.
Proof. apply move_eq. Qed.


(** ** The raster pattern of [new_position] *)

Section NewPositionFacts.

Variable position_of : list byte -> option Z.

(** Evaluates a call of [new_position] in a hypothesis, by cases on the
    answers. *)
Ltac np_eval H :=
  repeat first
    [ rewrite command_once in H
    | rewrite forward_eq in H
    | rewrite left_eq in H
    | rewrite right_eq in H
    | progress cbn [and_then on_port fst snd incoming written b1_flag b2_flag end_
                    negb andb] in H
    | rewrite andb_false_r in H
    | rewrite andb_true_r in H
    | progress unfold read_position, move_outcome in H
    | match type of H with
      | context [match position_of ?x with _ => _ end] =>
          destruct (position_of x) eqn:?
      | context [match split_at_first ?g ?l with _ => _ end] =>
          destruct (split_at_first g l) as [[? ?]|] eqn:?
      | context [if ?b then _ else _] => destruct b eqn:?
      end
    | discriminate H ].

(** After a step forward to the next line ([b1_flag] set), the next call
    never steps forward again, wherever the motor stands: it moves along the
    line on motor 2, right ("-") when [b2_flag] is set and left ("+") when it
    is not, keeps [b2_flag] and clears [b1_flag]. *)
Theorem new_position_after_forward
        (self : stepper_motor) (port : serial_port) (steps size : Z)
        (self' : stepper_motor) (port' : serial_port) :
  b1_flag self = true ->
  new_position position_of self port steps size = Returns tt (self', port') ->
  b1_flag self' = false
  /\ b2_flag self' = b2_flag self
  /\ exists rest,
       written port'
       = written port
         ++ [b_B2; b_V1; b_B2;
             (if b2_flag self then [x2d] else [x2b]) ++ py_str steps ++ [x0d]]
         ++ rest.
Proof.
  intros Hb1 H.
  unfold new_position in H.
  destruct self as [b1 [|] e]; cbn [b1_flag b2_flag] in *; subst b1.
  all: np_eval H.
  all: injection H as <- <-; cbn [b1_flag b2_flag written].
  all: repeat split; eexists; rewrite <- !app_assoc; cbn [app]; reflexivity.
Qed.

(** At an end of a line (the position read first is at least [size], or at
    most 0) and with [b1_flag] clear, the call steps forward on motor 1 and
    sets [b1_flag]; [b2_flag] then tells the end: set at [size], clear at
    0. *)
Theorem new_position_at_line_end
        (self : stepper_motor) (port : serial_port) (steps size p : Z)
        (self' : stepper_motor) (port' : serial_port) :
  b1_flag self = false ->
  position_of (nth 1 (incoming port) []) = Some p ->
  size <= p \/ p <= 0 ->
  new_position position_of self port steps size = Returns tt (self', port') ->
  b1_flag self' = true
  /\ b2_flag self' = (size <=? p)
  /\ exists rest,
       written port'
       = written port
         ++ [b_B2; b_V1; b_B1; [x2b] ++ py_str steps ++ [x0d]] ++ rest.
Proof.
  intros Hb1 Hp Hend H.
  replace (nth 1 (incoming port) []) with (hd [] (tl (incoming port))) in Hp
    by (now destruct (incoming port) as [|? [|? ?]]).
  unfold new_position in H.
  destruct self as [b1 b2 e]; cbn [b1_flag b2_flag] in *; subst b1.
  rewrite !command_once in H.
  cbn [and_then on_port fst snd incoming written b1_flag b2_flag end_ negb] in H.
  unfold read_position in H; rewrite command_once in H.
  cbn [and_then on_port fst snd incoming written] in H.
  rewrite Hp in H; cbn [and_then fst snd b1_flag negb] in H.
  rewrite !andb_true_r in H.
  destruct (Z.leb_spec size p) as [Hs|Hs].
  - np_eval H.
    all: injection H as <- <-; cbn [b1_flag b2_flag written].
    all: repeat split; eexists; rewrite <- !app_assoc; cbn [app]; reflexivity.
  - replace (p <=? 0) with true in H by (symmetry; apply Z.leb_le; lia).
    np_eval H.
    all: injection H as <- <-; cbn [b1_flag b2_flag written].
    all: repeat split; eexists; rewrite <- !app_assoc; cbn [app]; reflexivity.
Qed.

(** The flag [end] after a call.  A call that returns has read the answers
    to "B2", "V1", the selection and the move, then the answers to "F" up to
    the first [b'Y\r'], then the answers to "B1" and to the second "V1": the
    flag is set when it was set before or when the position in that last
    answer is at least [size], and it is what it was otherwise.  A call that
    raises leaves the flag as it was. *)
Theorem new_position_end_flag
        (self : stepper_motor) (port : serial_port) (steps size : Z) :
  match new_position position_of self port steps size with
  | Returns _ (self', port') =>
      exists pre post p2,
        skipn 4 (incoming port) = pre ++ b_Y :: post
        /\ ~ In b_Y pre
        /\ position_of (nth 1 post []) = Some p2
        /\ end_ self' = end_ self || (size <=? p2)
        /\ incoming port' = skipn 2 post
  | Raises (self', _) => end_ self' = end_ self
  | Diverges => True
  end.
Proof.
  destruct (new_position position_of self port steps size)
    as [[] [self' port']|[self' port']|] eqn:H; [| |exact I].
  - unfold new_position in H.
    destruct self as [b1 [|] e]; cbn [end_].
    all: np_eval H.
    all: injection H as <- <-; cbn [end_ incoming].
    all: match goal with
         | Hs : split_at_first b_Y _ = Some (?pre, ?post),
           Hp : position_of (hd [] (tl ?post)) = Some ?p2,
           Hc : (_ <=? ?p2) = _ |- _ =>
             apply split_at_first_some in Hs; destruct Hs as [Hsplit Hpre];
             exists pre, post, p2; rewrite <- Hsplit, Hc
         end.
    all: repeat split;
      [ now destruct (incoming port) as [|? [|? [|? [|? ?]]]]
      | assumption
      | match goal with
        | |- position_of (nth 1 ?post []) = _ =>
            replace (nth 1 post []) with (hd [] (tl post))
              by (now destruct post as [|? [|? ?]]); assumption
        end
      | now rewrite ?orb_true_r, ?orb_false_r
      | match goal with
        | |- tl (tl ?post) = _ => now destruct post as [|? [|? ?]]
        end ].
  - unfold new_position in H.
    destruct self as [b1 [|] e]; cbn [end_].
    all: np_eval H.
    all: injection H as <- <-; reflexivity.
Qed.

End NewPositionFacts.

Lemma new_position_after_forward_witness :
  b1_flag {| b1_flag := false; b2_flag := true; end_ := false |} = false
  /\ b2_flag {| b1_flag := false; b2_flag := true; end_ := false |}
     = b2_flag {| b1_flag := true; b2_flag := true; end_ := false |}
  /\ exists rest,
       written {| incoming := []; written := [b_B2; b_V1; b_B2;
                                              [x2d] ++ py_str 500 ++ [x0d]; b_F;
                                              b_B1; b_V1] |}
       = written {| incoming := [b_ok; b_ok; b_ok; b_ok; b_Y; b_ok; b_ok];
                    written := [] |}
         ++ [b_B2; b_V1; b_B2;
             (if b2_flag {| b1_flag := true; b2_flag := true; end_ := false |}
              then [x2d] else [x2b]) ++ py_str 500 ++ [x0d]]
         ++ rest.
Proof.
  apply (new_position_after_forward
           (fun _ => Some 7)
           {| b1_flag := true; b2_flag := true; end_ := false |}
           {| incoming := [b_ok; b_ok; b_ok; b_ok; b_Y; b_ok; b_ok]; written := [] |}
           500 2500).
  - reflexivity.
  - vm_compute; reflexivity.
Defined.

Lemma new_position_at_line_end_witness :
  b1_flag {| b1_flag := true; b2_flag := true; end_ := true |} = true
  /\ b2_flag {| b1_flag := true; b2_flag := true; end_ := true |} = (2500 <=? 2500)
  /\ exists rest,
       written {| incoming := []; written := [b_B2; b_V1; b_B1;
                                              [x2b] ++ py_str 500 ++ [x0d]; b_F;
                                              b_B1; b_V1] |}
       = written {| incoming := [b_ok; b_ok; b_ok; b_ok; b_Y; b_ok; b_ok];
                    written := [] |}
         ++ [b_B2; b_V1; b_B1; [x2b] ++ py_str 500 ++ [x0d]] ++ rest.
Proof.
  apply (new_position_at_line_end
           (fun _ => Some 2500)
           {| b1_flag := false; b2_flag := false; end_ := false |}
           {| incoming := [b_ok; b_ok; b_ok; b_ok; b_Y; b_ok; b_ok]; written := [] |}
           500 2500 2500).
  - reflexivity.
  - reflexivity.
  - left; lia.
  - vm_compute; reflexivity.
Defined.

Lemma new_position_end_flag_witness :
  match new_position (fun res => if bytes_eqb res b_Y then Some 2500 else Some 7)
                     {| b1_flag := true; b2_flag := true; end_ := false |}
                     {| incoming := [b_ok; b_ok; b_ok; b_ok; b_a; b_Y; b_ok; b_Y];
                        written := [] |}
                     500 2500 with
  | Returns _ (self', port') =>
      exists pre post p2,
        skipn 4 (incoming {| incoming := [b_ok; b_ok; b_ok; b_ok; b_a; b_Y; b_ok; b_Y];
                             written := [] |})
        = pre ++ b_Y :: post
        /\ ~ In b_Y pre
        /\ (fun res => if bytes_eqb res b_Y then Some 2500 else Some 7)
             (nth 1 post []) = Some p2
        /\ end_ self'
           = end_ {| b1_flag := true; b2_flag := true; end_ := false |}
             || (2500 <=? p2)
        /\ incoming port' = skipn 2 post
  | Raises (self', _) =>
      end_ self' = end_ {| b1_flag := true; b2_flag := true; end_ := false |}
  | Diverges => True
  end.
Proof.
  exact (new_position_end_flag
           (fun res => if bytes_eqb res b_Y then Some 2500 else Some 7)
           {| b1_flag := true; b2_flag := true; end_ := false |}
           {| incoming := [b_ok; b_ok; b_ok; b_ok; b_a; b_Y; b_ok; b_Y];
              written := [] |}
           500 2500).
Defined.

(* ------------------------------------------------------------------------ *)
(** ** [start]: from the acknowledgement to the decoded line *)

Lemma accepted_false (l : list byte) :
  accepted l = false -> l = [] \/ l = b_start \/ l = b_crlf \/ l = b_a.
Proof.
  unfold accepted; intros H.
  destruct (bytes_eqb l []) eqn:E1; [left; now apply bytes_eqb_eq|].
  destruct (bytes_eqb l b_start) eqn:E2; [right; left; now apply bytes_eqb_eq|].
  destruct (bytes_eqb l b_crlf) eqn:E3;
    [right; right; left; now apply bytes_eqb_eq|].
  destruct (bytes_eqb l b_a) eqn:E4;
    [right; right; right; now apply bytes_eqb_eq|].
  discriminate H.
Qed.

(** The decoder is applied to a rejected line too, and raises nothing. *)
Lemma rejected_decodes (l : list byte) :
  accepted l = false -> exists r, read_timestamps l true = Some r.
Proof.
  intros H; apply accepted_false in H.
  destruct H as [-> | [-> | [-> | ->]]]; eexists; vm_compute; reflexivity.
Qed.

Lemma deliver_sized (line : list byte) (UNO : serial_port) :
  stream_size_ok line ->
  deliver line UNO
  = Returns (line_result (stream_words line)
                         (map (fun e => 2 * fst e)
                              (decode 0 (-1) (stream_words line))))
            UNO.
Proof.
  intros Hsize; unfold deliver, cha_strings.
  destruct (legacy_pipeline line Hsize) as [-> [-> ->]].
  reflexivity.
Qed.

Lemma await_start_silent (n : nat) (first_com : list byte) (wr : list (list byte)) :
  bytes_eqb first_com b_start_nl = false ->
  await_start n first_com {| incoming := []; written := wr |} = Diverges.
Proof.
  revert first_com wr; induction n as [|n IH]; intros first_com wr H;
    [reflexivity|].
  cbn [await_start]; rewrite H.
  cbn [negb write readline incoming written]; now apply IH.
Qed.

Lemma await_start_turn (n : nat) (first_com l : list byte)
      (rest wr : list (list byte)) :
  bytes_eqb first_com b_start_nl = false ->
  await_start (S n) first_com {| incoming := l :: rest; written := wr |}
  = await_start n l {| incoming := rest; written := wr ++ [b_start_nl] |}.
Proof.
  intros H; cbn [await_start]; rewrite H; reflexivity.
Qed.

Lemma await_start_done (n : nat) (UNO : serial_port) :
  await_start (S n) b_start_nl UNO = Returns b_start_nl UNO.
Proof. reflexivity. Qed.

Lemma await_start_eq (inc wr : list (list byte)) (n : nat) (first_com : list byte) :
  (length inc < n)%nat ->
  bytes_eqb first_com b_start_nl = false ->
  await_start n first_com {| incoming := inc; written := wr |}
  = match split_at_first b_start_nl inc with
    | Some (pre, post) =>
        Returns b_start_nl
                {| incoming := post;
                   written := wr ++ repeat b_start_nl (S (length pre)) |}
    | None => Diverges
    end.
Proof.
  revert wr n first_com; induction inc as [|l rest IH]; intros wr n first_com Hn H.
  - now apply await_start_silent.
  - destruct n as [|[|n]]; try (exfalso; cbn [length] in Hn; lia).
    rewrite (await_start_turn _ _ _ _ _ H); cbn [split_at_first].
    destruct (bytes_eqb l b_start_nl) eqn:El.
    + apply bytes_eqb_eq in El; subst l.
      now rewrite await_start_done.
    + rewrite IH by (cbn [length] in Hn; lia || exact El).
      destruct (split_at_first b_start_nl rest) as [[pre post]|]; [|reflexivity].
      cbn [length]; now rewrite repeat_snoc_app.
Qed.

(** A turn of the outer loop once the acknowledgement has been read. *)
Lemma start_loop_turn (n : nat) (inc wr : list (list byte)) :
  start_loop (S n) b_start_nl {| incoming := inc; written := wr |}
  = match inc with
    | [] => start_loop n b_start_nl {| incoming := []; written := wr |}
    | l :: rest =>
        match read_timestamps l true with
        | None => Raises {| incoming := rest; written := wr |}
        | Some _ =>
            if accepted l then deliver l {| incoming := rest; written := wr |}
            else start_loop n b_start_nl {| incoming := rest; written := wr |}
        end
    end.
Proof.
  cbn [start_loop]; rewrite await_start_done; cbn [and_then].
  destruct inc as [|l rest]; cbn [readline incoming written].
  - reflexivity.
  - unfold deliver.
    destruct (read_timestamps l true) as [[counts cha_info]|]; [|reflexivity].
    fold (accepted l); now destruct (accepted l).
Qed.

Lemma start_loop_silent (n : nat) (wr : list (list byte)) :
  start_loop n b_start_nl {| incoming := []; written := wr |} = Diverges.
Proof.
  induction n as [|n IH]; [reflexivity|].
  now rewrite start_loop_turn.
Qed.

Lemma start_loop_eq (inc wr : list (list byte)) (n : nat) :
  (length inc < n)%nat ->
  start_loop n b_start_nl {| incoming := inc; written := wr |}
  = match skip_rejected inc with
    | Some (line, rest) => deliver line {| incoming := rest; written := wr |}
    | None => Diverges
    end.
Proof.
  revert n; induction inc as [|l rest IH]; intros n Hn.
  - apply start_loop_silent.
  - destruct n as [|n]; [exfalso; lia|].
    rewrite start_loop_turn; cbn [skip_rejected].
    destruct (accepted l) eqn:Ha.
    + unfold deliver; now destruct (read_timestamps l true) as [[? ?]|].
    + destruct (rejected_decodes l Ha) as [r ->].
      apply IH; cbn [length] in Hn; lia.
Qed.

(** [start], written out: the lines up to the first "start" acknowledgement
    are answered with "start", the rejected lines after it are passed over,
    and the first accepted line is decoded. *)
Lemma start_eq (inc wr : list (list byte)) :
  start {| incoming := inc; written := wr |}
  = match split_at_first b_start_nl inc with
    | Some (pre, post) =>
        match skip_rejected post with
        | Some (line, rest) =>
            deliver line {| incoming := rest;
                            written := wr ++ repeat b_start_nl (S (length pre)) |}
        | None => Diverges
        end
    | None => Diverges
    end.
Proof.
  unfold start; cbn [incoming start_loop].
  rewrite await_start_eq by (lia || reflexivity).
  destruct (split_at_first b_start_nl inc) as [[pre post]|] eqn:E;
    [|reflexivity].
  cbn [and_then].
  pose proof (start_loop_turn (length inc) post
                (wr ++ repeat b_start_nl (S (length pre)))) as T.
  cbn [start_loop] in T; rewrite await_start_done in T; cbn [and_then] in T.
  rewrite T; clear T.
  apply split_at_first_some in E; destruct E as [E _].
  assert (Hlen : (length post < length inc)%nat)
    by (rewrite E, length_app; cbn [length]; lia).
  rewrite <- start_loop_turn.
  apply start_loop_eq; lia.
Qed.

Lemma split_at_first_app (g : list byte) (pre post : list (list byte)) :
  ~ In g pre -> split_at_first g (pre ++ g :: post) = Some (pre, post).
Proof.
  induction pre as [|l pre IH]; intros H; cbn [app split_at_first].
  - replace (bytes_eqb g g) with true by (symmetry; now apply bytes_eqb_eq).
    reflexivity.
  - replace (bytes_eqb l g) with false.
    2:{ symmetry; apply bytes_eqb_neq; intros ->; apply H; now left. }
    rewrite IH; [reflexivity|].
    intros Hin; apply H; now right.
Qed.

Lemma skip_rejected_app (skipped : list (list byte)) (line : list byte)
      (rest : list (list byte)) :
  Forall (fun l => accepted l = false) skipped ->
  accepted line = true ->
  skip_rejected (skipped ++ line :: rest) = Some (line, rest).
Proof.
  intros Hs Hl; induction Hs as [|l skipped Hl' _ IH]; cbn [app skip_rejected].
  - now rewrite Hl.
  - now rewrite Hl'.
Qed.

Lemma skip_rejected_some (lines : list (list byte)) (line : list byte)
      (rest : list (list byte)) :
  skip_rejected lines = Some (line, rest) ->
  In line lines /\ accepted line = true /\ (length rest < length lines)%nat.
Proof.
  induction lines as [|l lines IH]; cbn [skip_rejected]; [discriminate|].
  destruct (accepted l) eqn:Ha.
  - intros H; injection H as <- <-.
    repeat split; [now left|exact Ha|cbn [length]; lia].
  - intros H; destruct (IH H) as [H1 [H2 H3]].
    repeat split; [now right|exact H2|cbn [length]; lia].
Qed.

Lemma skip_rejected_none (lines : list (list byte)) :
  skip_rejected lines = None -> Forall (fun l => accepted l = false) lines.
Proof.
  induction lines as [|l lines IH]; cbn [skip_rejected]; [constructor|].
  destruct (accepted l) eqn:Ha; [discriminate|].
  intros H; constructor; [exact Ha|now apply IH].
Qed.

(** [start] returns the decoding of the first accepted line that follows the
    acknowledgement: when the lines read are some lines without "start\n",
    then "start\n", then lines among [b''], [b"start"], [b'\r\n'] and [b"a"],
    then a line that is none of these, [start] sends "start\n" once for each
    line up to the acknowledgement, leaves the lines after the accepted one
    unread, and returns the timestamps of that line (unchanged by the
    conversion to "ns"), the channels of its valid words and the totals of the
    four channels. *)
Theorem start_returns_first_accepted
        (UNO : serial_port) (junk skipped : list (list byte))
        (line : list byte) (rest : list (list byte)) :
  incoming UNO = junk ++ b_start_nl :: skipped ++ line :: rest ->
  ~ In b_start_nl junk ->
  Forall (fun l => accepted l = false) skipped ->
  accepted line = true ->
  stream_size_ok line ->
  exists ws ts ch,
    ts_word_list line = Some ws
    /\ read_timestamps line true = Some (ts, ch)
    /\ start UNO
       = Returns (line_result ws ts)
                 {| incoming := rest;
                    written := written UNO
                               ++ repeat b_start_nl (S (length junk)) |}.
Proof.
  intros Hinc Hjunk Hskipped Hline Hsize.
  destruct UNO as [inc wr]; cbn [incoming written] in *; subst inc.
  destruct (legacy_pipeline line Hsize) as [Hread _].
  eexists _, _, _; split; [apply ts_word_list_eq|].
  split; [exact Hread|].
  rewrite start_eq, (split_at_first_app _ _ _ Hjunk).
  rewrite (skip_rejected_app _ _ _ Hskipped Hline).
  now apply deliver_sized.
Qed.

Lemma start_returns_first_accepted_witness :
  exists ws ts ch,
    ts_word_list [x41; x01; x00; x00] = Some ws
    /\ read_timestamps [x41; x01; x00; x00] true = Some (ts, ch)
    /\ start {| incoming := [b_crlf; b_start_nl; []; b_a; [x41; x01; x00; x00];
                             b_crlf];
                written := [] |}
       = Returns (line_result ws ts)
                 {| incoming := [b_crlf];
                    written := written {| incoming := [b_crlf; b_start_nl; []; b_a;
                                                       [x41; x01; x00; x00]; b_crlf];
                                          written := [] |}
                               ++ repeat b_start_nl (S (length [b_crlf])) |}.
Proof.
  apply (start_returns_first_accepted
           {| incoming := [b_crlf; b_start_nl; []; b_a; [x41; x01; x00; x00]; b_crlf];
              written := [] |}
           [b_crlf] [[]; b_a] [x41; x01; x00; x00] [b_crlf]).
  - reflexivity.
  - intros [H|[]]; discriminate H.
  - repeat constructor.
  - reflexivity.
  - vm_compute; discriminate.
Defined.

Lemma split_at_first_absent (g : list byte) (lines : list (list byte)) :
  ~ In g lines -> split_at_first g lines = None.
Proof.
  intros H.
  destruct (split_at_first g lines) as [[pre post]|] eqn:E; [|reflexivity].
  apply split_at_first_some in E; destruct E as [-> _].
  exfalso; apply H, in_or_app; right; now left.
Qed.

Lemma skip_rejected_split (lines : list (list byte)) (line : list byte)
      (rest : list (list byte)) :
  skip_rejected lines = Some (line, rest) ->
  exists skipped,
    lines = skipped ++ line :: rest
    /\ Forall (fun l => accepted l = false) skipped
    /\ accepted line = true.
Proof.
  induction lines as [|l lines IH]; cbn [skip_rejected]; [discriminate|].
  destruct (accepted l) eqn:Ha.
  - intros H; injection H as <- <-.
    exists []; repeat split; [constructor|exact Ha].
  - intros H; destruct (IH H) as [skipped [-> [Hs Hl]]].
    exists (l :: skipped); repeat split; [now constructor|exact Hl].
Qed.

Lemma skip_rejected_all (lines : list (list byte)) :
  Forall (fun l => accepted l = false) lines -> skip_rejected lines = None.
Proof.
  intros H; induction H as [|l lines Hl _ IH]; cbn [skip_rejected];
    [reflexivity|].
  now rewrite Hl.
Qed.

Lemma deliver_ends (line : list byte) (UNO : serial_port) :
  deliver line UNO <> Diverges.
Proof.
  unfold deliver.
  destruct (read_timestamps line true) as [[counts cha_info]|]; [|discriminate].
  destruct (convert_units counts "ns"); [|discriminate].
  destruct (cha_strings cha_info); [|discriminate].
  destruct (channel_cleaner _) as [[? ?]|]; discriminate.
Qed.

(** The outcomes of [start] when the lines are of a size that the decoder
    takes (at most 2^37 bytes).  It never ends exactly when no "start\n"
    acknowledgement comes or every line after the first acknowledgement is
    one of the four rejected ones.  It raises nothing.  When it returns, the
    lines read are lines without "start\n", the acknowledgement, rejected
    lines and one accepted line; it has written "start\n" once for each line
    up to the acknowledgement and nothing else, the lines after the accepted
    one are left unread, and what it returns is the decoding of the accepted
    line. *)
Theorem start_outcomes (UNO : serial_port) :
  Forall stream_size_ok (incoming UNO) ->
  (start UNO = Diverges
   <-> (~ In b_start_nl (incoming UNO)
        \/ exists junk post,
             incoming UNO = junk ++ b_start_nl :: post
             /\ ~ In b_start_nl junk
             /\ Forall (fun l => accepted l = false) post))
  /\ match start UNO with
     | Returns r UNO' =>
         exists junk skipped line ws ts ch,
           incoming UNO = junk ++ b_start_nl :: skipped ++ line :: incoming UNO'
           /\ ~ In b_start_nl junk
           /\ Forall (fun l => accepted l = false) skipped
           /\ accepted line = true
           /\ written UNO' = written UNO ++ repeat b_start_nl (S (length junk))
           /\ ts_word_list line = Some ws
           /\ read_timestamps line true = Some (ts, ch)
           /\ r = line_result ws ts
     | Raises _ => False
     | Diverges => True
     end.
Proof.
  intros Hsize.
  destruct UNO as [inc wr]; cbn [incoming written] in *.
  rewrite start_eq.
  split.
  - split.
    + destruct (split_at_first b_start_nl inc) as [[pre post]|] eqn:E.
      * apply split_at_first_some in E; destruct E as [E Hpre].
        destruct (skip_rejected post) as [[line rest]|] eqn:Es.
        -- intros H; now apply deliver_ends in H.
        -- intros _; right; exists pre, post.
           split; [exact E|split; [exact Hpre|now apply skip_rejected_none]].
      * intros _; left; now apply split_at_first_none.
    + intros [H|[junk [post [-> [Hjunk Hpost]]]]].
      * now rewrite split_at_first_absent.
      * rewrite split_at_first_app by exact Hjunk.
        now rewrite skip_rejected_all.
  - destruct (split_at_first b_start_nl inc) as [[pre post]|] eqn:E; [|exact I].
    apply split_at_first_some in E; destruct E as [E Hpre].
    destruct (skip_rejected post) as [[line rest]|] eqn:Es; [|exact I].
    apply skip_rejected_split in Es; destruct Es as [skipped [-> [Hs Hl]]].
    assert (Hline : stream_size_ok line).
    { rewrite Forall_forall in Hsize; apply Hsize.
      rewrite E; apply in_or_app; right; right.
      apply in_or_app; right; now left. }
    destruct (legacy_pipeline line Hline) as [Hread _].
    rewrite deliver_sized by exact Hline.
    exists pre, skipped, line; eexists _, _, _; cbn [incoming written].
    split; [exact E|].
    split; [exact Hpre|].
    split; [exact Hs|].
    split; [exact Hl|].
    split; [reflexivity|].
    split; [apply ts_word_list_eq|].
    split; [exact Hread|reflexivity].
Qed.

Lemma start_outcomes_witness :
  (start {| incoming := [b_crlf; b_start_nl; []; [x41; x01; x00; x00]; b_a];
            written := [] |} = Diverges
   <-> (~ In b_start_nl
             (incoming {| incoming := [b_crlf; b_start_nl; []; [x41; x01; x00; x00];
                                       b_a];
                          written := [] |})
        \/ exists junk post,
             incoming {| incoming := [b_crlf; b_start_nl; []; [x41; x01; x00; x00];
                                      b_a];
                         written := [] |}
             = junk ++ b_start_nl :: post
             /\ ~ In b_start_nl junk
             /\ Forall (fun l => accepted l = false) post))
  /\ match start {| incoming := [b_crlf; b_start_nl; []; [x41; x01; x00; x00]; b_a];
                    written := [] |} with
     | Returns r UNO' =>
         exists junk skipped line ws ts ch,
           incoming {| incoming := [b_crlf; b_start_nl; []; [x41; x01; x00; x00];
                                    b_a];
                       written := [] |}
           = junk ++ b_start_nl :: skipped ++ line :: incoming UNO'
           /\ ~ In b_start_nl junk
           /\ Forall (fun l => accepted l = false) skipped
           /\ accepted line = true
           /\ written UNO'
              = written {| incoming := [b_crlf; b_start_nl; []; [x41; x01; x00; x00];
                                        b_a];
                           written := [] |}
                ++ repeat b_start_nl (S (length junk))
           /\ ts_word_list line = Some ws
           /\ read_timestamps line true = Some (ts, ch)
           /\ r = line_result ws ts
     | Raises _ => False
     | Diverges => True
     end.
Proof.
  apply (start_outcomes
           {| incoming := [b_crlf; b_start_nl; []; [x41; x01; x00; x00]; b_a];
              written := [] |}).
  repeat constructor; vm_compute; discriminate.
Defined.

(* ------------------------------------------------------------------------ *)
(** ** File names *)


Lemma str_length_app (a b : string) :
  String.length (String.append a b) = (String.length a + String.length b)%nat.
Proof.
  induction a as [|x a IH]; cbn [String.append String.length]; [reflexivity|].
  now rewrite IH.
Qed.

Lemma str_length_zeros (k : nat) : String.length (zeros k) = k.
Proof.
  induction k as [|k IH]; cbn [zeros String.length]; [reflexivity|].
  now rewrite IH.
Qed.




Lemma digits_nonnil (d : Decimal.uint) :
  d <> Decimal.Nil -> NilZero.string_of_uint d = NilEmpty.string_of_uint d.
Proof. destruct d; [congruence|reflexivity..]. Qed.














Lemma str_length_digits (d : Decimal.uint) :
  String.length (NilEmpty.string_of_uint d) = Decimal.nb_digits d.
Proof.
  induction d as [|d IH|d IH|d IH|d IH|d IH|d IH|d IH|d IH|d IH|d IH];
    [reflexivity|..];
    cbn [NilEmpty.string_of_uint String.length Decimal.nb_digits]; now rewrite IH.
Qed.

Lemma of_uint_acc_lower (d : Decimal.uint) (acc : positive) :
  Z.pos acc * 10 ^ Z.of_nat (Decimal.nb_digits d) <= Z.pos (Pos.of_uint_acc d acc).
Proof.
  revert acc;
    induction d as [|d IH|d IH|d IH|d IH|d IH|d IH|d IH|d IH|d IH|d IH];
    intros acc; cbn [Pos.of_uint_acc Decimal.nb_digits];
    [rewrite Z.pow_0_r; lia|..];
    rewrite Nat2Z.inj_succ, Z.pow_succ_r by lia;
    match goal with
    | |- _ <= Z.pos (Pos.of_uint_acc _ ?a) => specialize (IH a)
    end;
    pose proof (Z.pow_pos_nonneg 10 (Z.of_nat (Decimal.nb_digits d))
                  ltac:(lia) ltac:(lia));
    nia.
Qed.

Lemma to_uint_normal (p : positive) :
  Decimal.unorm (Pos.to_uint p) = Pos.to_uint p.
Proof.
  pose proof (DecimalPos.Unsigned.to_of (Pos.to_uint p)) as H.
  now rewrite DecimalPos.Unsigned.of_to in H.
Qed.

Lemma digits_below (p : positive) :
  Z.pos p < 10 ^ 9 -> (Decimal.nb_digits (Pos.to_uint p) <= 9)%nat.
Proof.
  intros Hp.
  pose proof (DecimalPos.Unsigned.of_to p) as Hof.
  pose proof (to_uint_normal p) as Hnorm.
  pose proof (DecimalPos.Unsigned.to_uint_nonzero p) as Hnz.
  destruct (Pos.to_uint p) as [|d|d|d|d|d|d|d|d|d|d];
    [cbn [Decimal.nb_digits]; lia
    |exfalso; unfold Decimal.unorm in Hnorm; cbn [Decimal.nzhead] in Hnorm;
     destruct (Decimal.nzhead d) eqn:Hn; try discriminate Hnorm;
     [injection Hnorm as <-; now apply Hnz
     |now apply (DecimalFacts.nzhead_nonzero _ _ Hn)]
    |..];
    cbn [Pos.of_uint] in Hof; injection Hof as Hof;
    match type of Hof with
    | Pos.of_uint_acc _ ?a = _ => pose proof (of_uint_acc_lower d a) as Hl
    end;
    rewrite Hof in Hl; cbn [Decimal.nb_digits];
    destruct (Nat.le_gt_cases (Decimal.nb_digits d) 8) as [Hle|Hgt]; try lia;
    exfalso;
    pose proof (Z.pow_le_mono_r 10 9 (Z.of_nat (Decimal.nb_digits d))
                  ltac:(lia) ltac:(lia));
    nia.
Qed.

Lemma length_format_09d (n : Z) :
  0 <= n < 10 ^ 9 -> String.length (format_09d n) = 9%nat.
Proof.
  intros Hn; destruct n as [|p|p]; [reflexivity| |lia].
  unfold format_09d; cbn [Z.to_int]; cbv zeta.
  rewrite str_length_app, str_length_zeros.
  rewrite (digits_nonnil _ (DecimalPos.Unsigned.to_uint_nonnil p)).
  rewrite str_length_digits.
  pose proof (digits_below p ltac:(lia)); lia.
Qed.

(** With both delays in 0 .. 10^9 - 1 the two delay fields have exactly nine
    characters each, so that a file name is the decimal text of the clock
    value followed by twenty characters. *)
Theorem get_file_name_width (date set_delay true_delay : Z) :
  0 <= set_delay < 10 ^ 9 ->
  0 <= true_delay < 10 ^ 9 ->
  String.length (format_09d set_delay) = 9%nat
  /\ String.length (format_09d true_delay) = 9%nat
  /\ String.length (get_file_name date set_delay true_delay)
     = (String.length (str_int date) + 20)%nat.
Proof.
  intros Hs Ht.
  pose proof (length_format_09d set_delay Hs) as Ls.
  pose proof (length_format_09d true_delay Ht) as Lt.
  repeat split; try assumption.
  unfold get_file_name; rewrite !str_length_app, Ls, Lt.
  cbn [String.length]; lia.
Qed.

Lemma get_file_name_width_witness :
  String.length (format_09d 1500) = 9%nat
  /\ String.length (format_09d 999999999) = 9%nat
  /\ String.length (get_file_name 1730000000 1500 999999999)
     = (String.length (str_int 1730000000) + 20)%nat.
Proof.
  apply (get_file_name_width 1730000000 1500 999999999); lia.
Defined.
